(** * Dauphine OOP 2025: a verification development

    Shallow embedding of the teaching scripts of the repository, and proofs
    of their contracts:

    - [exercise/s2/s_2_custom_list_part_2.py]: the custom [List] container
      backed by a Python [dict];
    - [theory/s2.py]: the [BankAccount] encapsulation example;
    - [theory/others/s3_extended.py]: the [FinancialAsset] quote update
      with its [NegativePriceException], and the [Option] hierarchy;
    - [exercise/s1/s_1_bs_option.py]: Black-Scholes prices and Greeks.

    Python objects are records; a method that mutates its receiver is a
    function in a state-and-exception monad over the receiver, a method that
    only reads it returns a value or an exception. Python [int] is [Z] and
    Python [float] is read with exact real arithmetic ([R]); a quotient
    whose dividend is a [numpy.float64] follows numpy, where a zero divisor
    gives an infinity or nan instead of [ZeroDivisionError]. The first part
    of the file is the embedding, the second part the proofs. *)

From Stdlib Require Import ZArith List Bool String Lia.
From Stdlib Require Import DecimalString.
From Stdlib Require Import Reals Lra.
Import ListNotations.

(** ** scipy.stats.norm: the standard normal law

    [norm.pdf] and [norm.cdf] belong to SciPy, not to the repository. They
    are read as the exact density and distribution function of the standard
    normal law: [pdf x = exp (- x^2 / 2) / sqrt (2 PI)], and [cdf x] is
    one half plus the integral of [pdf] from [0] to [x]. *)
Module norm.
Local Open Scope R_scope.

(** The unnormalised density [exp (- t^2 / 2)]. *)
Definition gauss (t : R) : R := exp (- (t * t) / 2).

Lemma gauss_continuity : continuity gauss.
Proof. unfold gauss. reg. Qed.

(** [gauss] is Riemann integrable between any two bounds. *)
Lemma gauss_integrable (a b : R) : Riemann_integrable gauss a b.
Proof.
  destruct (Rle_dec a b) as [Hab|Hba].
  - apply continuity_implies_RiemannInt; [exact Hab|].
    intros x _. apply gauss_continuity.
  - apply RiemannInt_P1, continuity_implies_RiemannInt; [lra|].
    intros x _. apply gauss_continuity.
Qed.

(** [norm.pdf] *)
Definition pdf (x : R) : R := gauss x / sqrt (2 * PI).

(** [norm.cdf] *)
Definition cdf (x : R) : R :=
  1 / 2 + RiemannInt (gauss_integrable 0 x) / sqrt (2 * PI).

End norm.

Set Implicit Arguments.

(** ** Python exceptions and the state-and-exception monad *)

(** The outcome of a call: a returned value or a raised exception of
    type [E]. *)
Inductive result (E A : Type) : Type :=
| Ok (a : A)
| Raise (e : E).

Arguments Ok {E A} a.
Arguments Raise {E A} e.

(** A method with receiver state [St]: it returns or raises, and leaves
    the receiver in the state reached at that point. *)
Definition M (E St A : Type) : Type := St -> result E A * St.

Definition ret {E St A} (a : A) : M E St A := fun s => (Ok a, s).

Definition raise {E St A} (e : E) : M E St A := fun s => (Raise e, s).

Definition bind {E St A B} (m : M E St A) (k : A -> M E St B) : M E St B :=
  fun s =>
    match m s with
    | (Ok a, s') => k a s'
    | (Raise e, s') => (Raise e, s')
    end.

Definition get_self {E St} : M E St St := fun s => (Ok s, s).

(** [try: body / except: handler], where [handler e] is [None] for an
    exception that no [except] clause matches. *)
Definition try_except {E St A} (body : M E St A)
    (handler : E -> option (M E St A)) : M E St A :=
  fun s =>
    match body s with
    | (Ok a, s') => (Ok a, s')
    | (Raise e, s') =>
        match handler e with
        | Some h => h s'
        | None => (Raise e, s')
        end
    end.

Declare Scope py_scope.
Delimit Scope py_scope with py.
Notation "x <- m ;; k" := (bind m (fun x => k))
  (at level 61, m at next level, right associativity) : py_scope.
Notation "m ;;; k" := (bind m (fun _ => k))
  (at level 61, right associativity) : py_scope.

(** The built-in exceptions the modelled code can raise. *)
Inductive exn : Type :=
| IndexError (msg : string)
| KeyError (key : Z)
| TypeError
| ZeroDivisionError
| ValueError.

(** [for i in xs: body i] *)
Fixpoint for_each {E St I} (xs : list I) (body : I -> M E St unit)
    : M E St unit :=
  match xs with
  | [] => ret tt
  | i :: xs' => bind (body i) (fun _ => for_each xs' body)
  end.

(** Python's [range(lo, hi)] on integers. *)
Definition range (lo hi : Z) : list Z :=
  map (fun k => lo + Z.of_nat k)%Z (seq 0 (Z.to_nat (hi - lo))).

(** ** Python's [dict] with integer keys

    A [dict] keeps its entries in insertion order, and [List.remove] and
    [List.get_index] iterate over [items()], so the mapping is embedded as
    an association list in insertion order. *)
Module Dict.
Section Dict.
Variable V : Type.

Definition t : Type := list (Z * V).

(** [{}] *)
Definition empty : t := [].

(** [d.items()] *)
Definition items (d : t) : list (Z * V) := d.

(** [d.keys()] *)
Definition keys (d : t) : list Z := map fst d.

(** [len(d)] *)
Definition len (d : t) : Z := Z.of_nat (List.length d).

(** [d[k]], [None] standing for [KeyError]. *)
Fixpoint get (d : t) (k : Z) : option V :=
  match d with
  | [] => None
  | (k', v) :: d' => if (k =? k')%Z then Some v else get d' k
  end.

(** [d[k] = v]: an existing key keeps its place, a new key goes last. *)
Fixpoint set (d : t) (k : Z) (v : V) : t :=
  match d with
  | [] => [(k, v)]
  | (k', v') :: d' =>
      if (k =? k')%Z then (k, v) :: d' else (k', v') :: set d' k v
  end.

(** [del d[k]] once the key is known to be present. *)
Fixpoint del (d : t) (k : Z) : t :=
  match d with
  | [] => []
  | (k', v') :: d' => if (k =? k')%Z then d' else (k', v') :: del d' k
  end.

(** Keys are unique in a [dict]. *)
Definition wf (d : t) : Prop := NoDup (keys d).

End Dict.
End Dict.

(** ** exercise/s2/s_2_custom_list_part_2.py *)
Module s_2_custom_list_part_2.
Section CustomList.
Local Open Scope Z_scope.
Local Open Scope py_scope.

(** The type of the stored elements, with Python's [==] on it and [str]. *)
Variable A : Type.
Variable A_eqb : A -> A -> bool.
Variable str : A -> string.

(** class List: the attributes [_elements] and [_count]. *)
Record List : Type := mkList {
  _elements : Dict.t A;
  _count : Z
}.

(** A method of [List]; it can raise a built-in exception. *)
Definition Method (R : Type) : Type := M exn List R.

(** [self._elements[k]] *)
Definition elements_getitem (k : Z) : Method A :=
  fun self =>
    match Dict.get (_elements self) k with
    | Some v => (Ok v, self)
    | None => (Raise (KeyError k), self)
    end.

(** [self._elements[k] = v] *)
Definition elements_setitem (k : Z) (v : A) : Method unit :=
  fun self => (Ok tt, mkList (Dict.set (_elements self) k v) (_count self)).

(** [self._elements.pop(k)] *)
Definition elements_pop (k : Z) : Method A :=
  fun self =>
    match Dict.get (_elements self) k with
    | Some v => (Ok v, mkList (Dict.del (_elements self) k) (_count self))
    | None => (Raise (KeyError k), self)
    end.

(** [del self._elements[k]] *)
Definition elements_del (k : Z) : Method unit :=
  _ <- elements_pop k ;; ret tt.

(** [self._count += n] *)
Definition count_add (n : Z) : Method unit :=
  fun self => (Ok tt, mkList (_elements self) (_count self + n)).

(** [List()] *)
Definition __init__ : List := mkList (Dict.empty A) 0.

(** [List.append] *)
Definition append (element : A) : Method unit :=
  self <- get_self ;;
  elements_setitem (_count self) element ;;;
  count_add 1.

(** The loop shared by [remove] and [pop]:
    [for i in range(index, self._count):
         self._elements[i] = self._elements.pop(i + 1)] *)
Definition shift_down (index : Z) : Method unit :=
  self <- get_self ;;
  for_each (range index (_count self))
    (fun i => v <- elements_pop (i + 1) ;; elements_setitem i v).

(** The first item of [items] whose element equals [value]. *)
Fixpoint find_item (items : list (Z * A)) (value : A) : option Z :=
  match items with
  | [] => None
  | (index, element) :: items' =>
      if A_eqb element value then Some index else find_item items' value
  end.

(** [List.remove]: the body runs for the first matching item, then the
    loop is left by [break]. *)
Definition remove (value : A) : Method unit :=
  self <- get_self ;;
  match find_item (Dict.items (_elements self)) value with
  | Some index =>
      elements_del index ;;;
      count_add (-1) ;;;
      shift_down index
  | None => ret tt
  end.

(** [List.pop] *)
Definition pop (index : Z) : Method A :=
  self <- get_self ;;
  if (index <? 0) || (index >=? _count self)
  then raise (IndexError "Out of bond Index")
  else
    element <- elements_pop index ;;
    count_add (-1) ;;;
    shift_down index ;;;
    ret element.

(** [List.get_index] *)
Definition get_index (value : A) : Method Z :=
  self <- get_self ;;
  match find_item (Dict.items (_elements self)) value with
  | Some index => ret index
  | None => ret (-1)
  end.

(** [", ".join(parts)] *)
Fixpoint join (sep : string) (parts : list string) : string :=
  match parts with
  | [] => EmptyString
  | [p] => p
  | p :: parts' => (p ++ sep ++ join sep parts')%string
  end.

(** [str(self._elements[i]) for i in range(self._count)] *)
Fixpoint str_items (indices : list Z) : Method (list string) :=
  match indices with
  | [] => ret []
  | i :: indices' =>
      v <- elements_getitem i ;;
      rest <- str_items indices' ;;
      ret (str v :: rest)
  end.

(** [List.__str__] *)
Definition __str__ : Method string :=
  self <- get_self ;;
  parts <- str_items (range 0 (_count self)) ;;
  ret ("[" ++ join ", " parts ++ "]")%string.

(** [List.__len__] *)
Definition __len__ : Method Z :=
  self <- get_self ;; ret (_count self).

(** [List.__getitem__] *)
Definition __getitem__ (index : Z) : Method A :=
  self <- get_self ;;
  if (index <? 0) || (index >=? _count self)
  then raise (IndexError "Out of bond Index")
  else elements_getitem index.

(** [List.__setitem__] *)
Definition __setitem__ (index : Z) (value : A) : Method unit :=
  self <- get_self ;;
  if (index <? 0) || (index >=? _count self)
  then raise (IndexError "Out of bond Index")
  else elements_setitem index value.

(** What can stand on the right of [+]: another custom [List], or a value
    of a type the exercise does not support. *)
Inductive operand : Type :=
| CustomList (l : List)
| BuiltinList (xs : list A)
| PyInt (z : Z)
| PyStr (s : string)
| PyNone.

(** What a binary special method can hand back. *)
Inductive value : Type :=
| VNone
| VNotImplemented
| VList (l : List).

(** [List.__add__]: the body is [pass], so the method returns [None].
    The state holds both objects the method has a reference to. *)
Definition __add__ : M exn (List * operand) value :=
  ret VNone.

(** [self + other]: Python calls [type(self).__add__(self, other)] and
    keeps what it returns unless that is [NotImplemented]; none of the
    operand types has a reflected [__radd__] taking a custom [List], so
    [NotImplemented] ends in [TypeError]. *)
Definition binary_add : M exn (List * operand) value :=
  r <- __add__ ;;
  match r with
  | VNotImplemented => raise TypeError
  | v => ret v
  end.

End CustomList.
End s_2_custom_list_part_2.

(** ** theory/s2.py *)
Module s2.
Local Open Scope Z_scope.
Local Open Scope py_scope.

(** [f"{amount}"] for a Python [int]. *)
Definition format_int (amount : Z) : string :=
  NilZero.string_of_int (Z.to_int amount).

(** class BankAccount: [owner], [_balance] and the name-mangled
    [__transaction_history]. Amounts are Python integers. *)
Record BankAccount : Type := mkBankAccount {
  owner : string;
  _balance : Z;
  __transaction_history : list string
}.

Definition Method (R : Type) : Type := M exn BankAccount R.

(** [BankAccount(owner, initial_balance)] *)
Definition __init__ (owner : string) (initial_balance : Z) : BankAccount :=
  mkBankAccount owner initial_balance [].

(** [self._balance += n] *)
Definition balance_add (n : Z) : Method unit :=
  fun self =>
    (Ok tt,
     mkBankAccount (owner self) (_balance self + n)
       (__transaction_history self)).

(** [BankAccount.__add_transaction] *)
Definition __add_transaction (transaction : string) : Method unit :=
  fun self =>
    (Ok tt,
     mkBankAccount (owner self) (_balance self)
       (__transaction_history self ++ [transaction])).

(** [BankAccount.deposit] *)
Definition deposit (amount : Z) : Method bool :=
  if amount >? 0 then
    balance_add amount ;;;
    __add_transaction ("Deposit of " ++ format_int amount) ;;;
    ret true
  else ret false.

(** [BankAccount.withdraw] *)
Definition withdraw (amount : Z) : Method bool :=
  self <- get_self ;;
  if (0 <? amount) && (amount <=? _balance self) then
    balance_add (- amount) ;;;
    __add_transaction ("Withdrawal of " ++ format_int amount) ;;;
    ret true
  else ret false.

(** [BankAccount.get_balance] *)
Definition get_balance : Method Z :=
  self <- get_self ;; ret (_balance self).

(** [BankAccount.get_transaction_history] *)
Definition get_transaction_history : Method (list string) :=
  self <- get_self ;; ret (__transaction_history self).

(** A call a client can make on an account. *)
Inductive call : Type :=
| Deposit (amount : Z)
| Withdraw (amount : Z).

(** The account after a call, whatever it returned. *)
Definition step (self : BankAccount) (c : call) : BankAccount :=
  match c with
  | Deposit amount => snd (deposit amount self)
  | Withdraw amount => snd (withdraw amount self)
  end.

(** The account after a sequence of calls. *)
Definition run (calls : list call) (self : BankAccount) : BankAccount :=
  fold_left step calls self.

(** The second [BankAccount] of the file, with [FinancialInstrument]: the
    operator-overloading example. Balances and prices are Python integers. *)
Module Overloading.

(** class FinancialInstrument *)
Module Instrument.
Record FinancialInstrument : Type := mkFinancialInstrument {
  ticker : string;
  price : Z;
  currency : string
}.
End Instrument.

(** class BankAccount *)
Record BankAccount : Type := mkBankAccount {
  name : string;
  balance : Z;
  currency : string
}.

(** What can stand on the right of [+] and [-]: the account itself (the
    same object), another account, an instrument, or a value of any other
    type. *)
Inductive operand : Type :=
| Itself
| Account (other : BankAccount)
| Instrument (other : Instrument.FinancialInstrument)
| Unsupported.

(** [self.balance = b] *)
Definition set_balance (b : Z) : M exn BankAccount unit :=
  fun self => (Ok tt, mkBankAccount (name self) b (currency self)).

(** [BankAccount.__add__]; a call that falls off the end returns [None]. *)
Definition __add__ (other : operand) : M exn BankAccount (option Z) :=
  self <- get_self ;;
  match other with
  | Itself =>
      set_balance (balance self + balance self) ;;;
      self <- get_self ;; ret (Some (balance self))
  | Account other =>
      if String.eqb (currency other) (currency self) then
        set_balance (balance self + balance other) ;;;
        self <- get_self ;; ret (Some (balance self))
      else ret None
  | Instrument other =>
      if String.eqb (Instrument.ticker other) (currency self) then
        set_balance (balance self + Instrument.price other) ;;;
        self <- get_self ;; ret (Some (balance self))
      else ret None
  | Unsupported => ret None
  end.

(** [BankAccount.__sub__] *)
Definition __sub__ (other : operand) : M exn BankAccount (option Z) :=
  self <- get_self ;;
  match other with
  | Itself =>
      set_balance (balance self - balance self) ;;;
      self <- get_self ;; ret (Some (balance self))
  | Account other =>
      if String.eqb (currency other) (currency self) then
        set_balance (balance self - balance other) ;;;
        self <- get_self ;; ret (Some (balance self))
      else ret None
  | Instrument other =>
      if String.eqb (Instrument.ticker other) (currency self) then
        set_balance (balance self - Instrument.price other) ;;;
        self <- get_self ;; ret (Some (balance self))
      else ret None
  | Unsupported => ret None
  end.

End Overloading.

End s2.


(** ** Python arithmetic on floats, read as exact reals *)

(** Calls that return a value of type [A] or raise a built-in exception,
    without touching any object. *)
Definition pure (A : Type) : Type := result exn A.

Definition pure_bind {A B} (m : pure A) (k : A -> pure B) : pure B :=
  match m with
  | Ok a => k a
  | Raise e => Raise e
  end.

Notation "x <~ m ;; k" := (pure_bind m (fun x => k))
  (at level 61, m at next level, right associativity) : py_scope.

(** [x / y] *)
Definition truediv (x y : R) : pure R :=
  if Req_dec_T y 0 then Raise ZeroDivisionError else Ok (x / y)%R.

(** [math.log(x)] *)
Definition math_log (x : R) : pure R :=
  if Rlt_dec 0 x then Ok (ln x) else Raise ValueError.

(** [math.sqrt(x)] *)
Definition math_sqrt (x : R) : pure R :=
  if Rle_dec 0 x then Ok (sqrt x) else Raise ValueError.

(** [math.exp(x)] *)
Definition math_exp (x : R) : R := exp x.

(** A [numpy.float64], what [norm.pdf] and [norm.cdf] return: a real, an
    infinity or nan.  The reals have one zero, read as [0.0]. *)
Inductive float64 : Type :=
| finite (x : R)
| inf
| neg_inf
| nan.

(** [x / y] with [x] a [numpy.float64] holding a real and [y] a float: a
    zero divisor gives an infinity of the sign of [x], or nan for [0 / 0],
    with a RuntimeWarning; nothing is raised. *)
Definition np_truediv (x y : R) : float64 :=
  if Req_dec_T y 0 then
    if Rlt_dec x 0 then neg_inf else if Rlt_dec 0 x then inf else nan
  else finite (x / y)%R.

(** [a + y] and [a - y] with [a] a [numpy.float64] and [y] a float. *)
Definition np_add (a : float64) (y : R) : float64 :=
  match a with
  | finite x => finite (x + y)%R
  | inf => inf
  | neg_inf => neg_inf
  | nan => nan
  end.

Definition np_sub (a : float64) (y : R) : float64 :=
  match a with
  | finite x => finite (x - y)%R
  | inf => inf
  | neg_inf => neg_inf
  | nan => nan
  end.

(** [a / y] with [a] any [numpy.float64]. *)
Definition np_truediv64 (a : float64) (y : R) : float64 :=
  match a with
  | finite x => np_truediv x y
  | inf => if Rlt_dec y 0 then neg_inf else inf
  | neg_inf => if Rlt_dec y 0 then inf else neg_inf
  | nan => nan
  end.

(** ** theory/others/s3_extended.py *)
Module s3_extended.
Section FinancialAssets.
Local Open Scope py_scope.

(** [datetime] values and the built-in [repr] of a [datetime] and of a
    [float]. *)
Variable datetime : Type.
Variable repr_datetime : datetime -> string.
Variable repr_float : R -> string.

(** class Quote *)
Record Quote : Type := mkQuote {
  date : datetime;
  price : R
}.

(** [Quote.__repr__] *)
Definition Quote__repr__ (self : Quote) : string :=
  ("Quote(date=" ++ repr_datetime (date self) ++ ", price="
     ++ repr_float (price self) ++ ")")%string.

(** class NegativePriceException, raised with one argument; it is the only
    exception the quote update can meet. *)
Inductive exception : Type :=
| NegativePriceException (args : Quote).

(** [NegativePriceException.__str__]: [_args] is a tuple of one quote. *)
Definition NegativePriceException__str__ (e : exception) : string :=
  match e with
  | NegativePriceException q =>
      ("Negative Price Exception for (" ++ Quote__repr__ q ++ ",)")%string
  end.

(** class FinancialAsset *)
Record FinancialAsset : Type := mkFinancialAsset {
  ticker : string;
  last_quote : Quote;
  currency : string;
  history : list Quote
}.

(** The state a method runs in: the asset and what was printed so far. *)
Record world : Type := mkWorld {
  self_ : FinancialAsset;
  stdout : list string
}.

Definition Method (R : Type) : Type := M exception world R.

(** [FinancialAsset(ticker, quote, currency)] *)
Definition __init__ (ticker : string) (quote : Quote) (currency : string)
    : FinancialAsset :=
  mkFinancialAsset ticker quote currency [].

(** [print(line)] *)
Definition print (line : string) : Method unit :=
  fun w => (Ok tt, mkWorld (self_ w) (stdout w ++ [line])).

(** [self.history.append(self.last_quote)] *)
Definition history_append_last_quote : Method unit :=
  fun w =>
    let a := self_ w in
    (Ok tt,
     mkWorld
       (mkFinancialAsset (ticker a) (last_quote a) (currency a)
          (history a ++ [last_quote a]))
       (stdout w)).

(** [self.last_quote = new_quote] *)
Definition set_last_quote (new_quote : Quote) : Method unit :=
  fun w =>
    let a := self_ w in
    (Ok tt,
     mkWorld
       (mkFinancialAsset (ticker a) new_quote (currency a) (history a))
       (stdout w)).

(** [FinancialAsset.__check_quote_for_asset] *)
Definition __check_quote_for_asset (new_quote : Quote) : Method unit :=
  if Rlt_dec (price new_quote) 0
  then raise (NegativePriceException new_quote)
  else ret tt.

(** [FinancialAsset.update_last_quote]; the [finally] clause is [pass]. *)
Definition update_last_quote (new_quote : Quote) : Method unit :=
  try_except
    (__check_quote_for_asset new_quote ;;;
     history_append_last_quote ;;;
     set_last_quote new_quote)
    (fun e =>
       match e with
       | NegativePriceException _ =>
           Some (print (NegativePriceException__str__ e) ;;;
                 print "Quote has not been updated")
       end).

End FinancialAssets.

Local Open Scope R_scope.
Local Open Scope py_scope.

(** class Option(Asset) *)
Record Option : Type := mkOption {
  spot : R;
  strike : R;
  risk_free : R;
  ttm : R;
  vol : R
}.

(** [Option.compute_d1] *)
Definition compute_d1 (self : Option) : pure R :=
  q <~ truediv (spot self) (strike self) ;;
  lg <~ math_log q ;;
  s <~ math_sqrt (ttm self) ;;
  truediv (lg + (risk_free self + 0.5 * vol self ^ 2) * ttm self)
    (vol self * s).

(** [Option.compute_d2] *)
Definition compute_d2 (self : Option) : pure R :=
  a <~ compute_d1 self ;;
  s <~ math_sqrt (ttm self) ;;
  Ok (a - vol self * s).

(** class Call(Option) *)
Module Call.

(** [Call.price] *)
Definition price (self : Option) : pure R :=
  a <~ compute_d1 self ;;
  b <~ compute_d2 self ;;
  Ok (spot self * norm.cdf a
      - strike self * math_exp (- risk_free self * ttm self) * norm.cdf b).

End Call.

(** class Put(Option) *)
Module Put.

(** [Put.price] *)
Definition price (self : Option) : pure R :=
  a <~ compute_d1 self ;;
  b <~ compute_d2 self ;;
  Ok (strike self * math_exp (- risk_free self * ttm self) * norm.cdf (- b)
      - spot self * norm.cdf (- a)).

End Put.

(** Values the calculator examples are called with. A [bool] is an
    instance of [int] in Python. *)
Inductive pyvalue : Type :=
| PyBool (b : bool)
| PyInt (z : Z)
| PyFloat (x : R)
| PyStr (s : string)
| PyNone.

(** [isinstance(v, int)] *)
Definition is_int (v : pyvalue) : bool :=
  match v with
  | PyBool _ | PyInt _ => true
  | _ => false
  end.

(** [isinstance(v, float)] *)
Definition is_float (v : pyvalue) : bool :=
  match v with
  | PyFloat _ => true
  | _ => false
  end.

(** The integer an instance of [int] stands for. *)
Definition int_value (v : pyvalue) : Z :=
  match v with
  | PyBool true => 1
  | PyInt z => z
  | _ => 0
  end.

(** The real a [float] stands for. *)
Definition float_value (v : pyvalue) : R :=
  match v with
  | PyFloat x => x
  | _ => 0
  end.

(** class CalculatorPythonNative *)
Module CalculatorPythonNative.

(** [_add_int]: [a + b] on instances of [int]. *)
Definition _add_int (a b : pyvalue) : pyvalue :=
  PyInt (int_value a + int_value b).

(** [_add_double]: [a + b] on floats. *)
Definition _add_double (a b : pyvalue) : pyvalue :=
  PyFloat (float_value a + float_value b).

(** [CalculatorPythonNative.add] *)
Definition add (a b : pyvalue) : pure pyvalue :=
  if is_int a && is_int b then Ok (_add_int a b)
  else if is_float a && is_float b then Ok (_add_double a b)
  else Raise TypeError.

End CalculatorPythonNative.

(** class CalculatorWithDynamicHandling *)
Module CalculatorWithDynamicHandling.

(** [sum(args)] on instances of [int], starting from the integer [0]. *)
Definition sum (args : list pyvalue) : Z :=
  fold_left (fun acc v => (acc + int_value v)%Z) args 0%Z.

(** [math.fsum(args)] on floats: the exact sum. *)
Definition fsum (args : list pyvalue) : R :=
  fold_left (fun acc v => acc + float_value v) args 0.

(** [CalculatorWithDynamicHandling.add], called with the positional
    arguments [args]. *)
Definition add (args : list pyvalue) : pure pyvalue :=
  if forallb is_int args then Ok (PyInt (sum args))
  else if forallb is_float args then Ok (PyFloat (fsum args))
  else Raise TypeError.

End CalculatorWithDynamicHandling.

(** class FinancialAssetUtil *)
Module FinancialAssetUtil.

(** What [calculate_return] can raise: a [ValueError] of its own with its
    message, the [ValueError] of [math.log], a [ZeroDivisionError], and the
    [IndexError] of a list access. *)
Inductive error : Type :=
| ValueError (msg : string)
| MathDomainError
| ZeroDivisionError
| IndexError.

(** A positional argument: a number ([int] or [float], read as a real), a
    list of prices, or anything else. *)
Inductive arg : Type :=
| Num (x : R)
| PriceList (prices : list R)
| Other.

(** What the function returns: one return or a list of returns. *)
Inductive returned : Type :=
| Return (x : R)
| Returns (xs : list R).

Definition bind {X Y} (m : result error X) (k : X -> result error Y)
    : result error Y :=
  match m with
  | Ok x => k x
  | Raise e => Raise e
  end.

(** [x / y] *)
Definition div (x y : R) : result error R :=
  if Req_dec_T y 0 then Raise ZeroDivisionError else Ok (x / y).

(** [math.log(x)] *)
Definition log (x : R) : result error R :=
  if Rlt_dec 0 x then Ok (ln x) else Raise MathDomainError.

(** The [if method == 'simple' ... elif method == 'log' ... else] block,
    which the source has once for two values and once in the loop. *)
Definition one_return (method : string) (initial_value final_value : R)
    : result error R :=
  if String.eqb method "simple" then
    div (final_value - initial_value) initial_value
  else if String.eqb method "log" then
    bind (div final_value initial_value) log
  else Raise (ValueError "Invalid method. Use 'simple' or 'log'.").

(** [prices[i]] *)
Definition getitem (prices : list R) (i : nat) : result error R :=
  match nth_error prices i with
  | Some x => Ok x
  | None => Raise IndexError
  end.

(** [for i in range(1, len(prices)): ...] over the indices still to visit,
    with the list [returns] built so far. *)
Fixpoint returns_loop (method : string) (prices : list R)
    (indices : list nat) (returns : list R) : result error (list R) :=
  match indices with
  | [] => Ok returns
  | i :: indices' =>
      bind (getitem prices (i - 1)) (fun initial_value =>
      bind (getitem prices i) (fun final_value =>
      bind (one_return method initial_value final_value) (fun ret =>
      returns_loop method prices indices' (returns ++ [ret]))))
  end.

(** [FinancialAssetUtil.calculate_return], called with the positional
    arguments [args] and the keyword argument [method]. *)
Definition calculate_return (args : list arg) (method : string)
    : result error returned :=
  match args with
  | [Num initial_value; Num final_value] =>
      bind (one_return method initial_value final_value)
        (fun ret => Ok (Return ret))
  | [PriceList prices] =>
      if (List.length prices <? 2)%nat then
        Raise (ValueError "Price list must contain at least two prices.")
      else
        bind (returns_loop method prices
                (seq 1 (List.length prices - 1)) [])
          (fun returns => Ok (Returns returns))
  | _ => Raise (ValueError "Invalid arguments provided.")
  end.

End FinancialAssetUtil.

(** class StockPricable and class CallPricable: the two kinds of asset the
    script prices through the [Pricable] protocol. *)
Inductive Pricable : Type :=
| StockPricable (symbol : string) (price_per_share : R)
| CallPricable (spot strike risk_free ttm vol : R).

(** class CallPricable, whose methods repeat those of [Call]. *)
Module CallPricableMethods.

(** [CallPricable.compute_d1] *)
Definition compute_d1 (spot strike risk_free ttm vol : R) : pure R :=
  q <~ truediv spot strike ;;
  lg <~ math_log q ;;
  s <~ math_sqrt ttm ;;
  truediv (lg + (risk_free + 0.5 * vol ^ 2) * ttm) (vol * s).

(** [CallPricable.compute_d2] *)
Definition compute_d2 (spot strike risk_free ttm vol : R) : pure R :=
  a <~ compute_d1 spot strike risk_free ttm vol ;;
  s <~ math_sqrt ttm ;;
  Ok (a - vol * s).

(** [CallPricable.price] *)
Definition price (spot strike risk_free ttm vol : R) : pure R :=
  a <~ compute_d1 spot strike risk_free ttm vol ;;
  b <~ compute_d2 spot strike risk_free ttm vol ;;
  Ok (spot * norm.cdf a - strike * math_exp (- risk_free * ttm) * norm.cdf b).

End CallPricableMethods.

(** [asset.price()] on an asset of either class. *)
Definition asset_price (asset : Pricable) : pure R :=
  match asset with
  | StockPricable _ price_per_share => Ok price_per_share
  | CallPricable spot strike risk_free ttm vol =>
      CallPricableMethods.price spot strike risk_free ttm vol
  end.

(** The loop of [calculate_asset_list_value] from a running [total]. *)
Fixpoint asset_list_loop (assets : list Pricable) (total : R) : pure R :=
  match assets with
  | [] => Ok total
  | asset :: assets' =>
      p <~ asset_price asset ;;
      asset_list_loop assets' (total + p)
  end.

(** [calculate_asset_list_value] *)
Definition calculate_asset_list_value (assets : list Pricable) : pure R :=
  asset_list_loop assets 0.0.

(** The state [divide] runs in: the local variable [division] and what was
    printed. *)
Record divide_state : Type := mkDivideState {
  division : option R;
  printed : list string
}.

(** [try: body / finally: return final]: the [return] of the [finally]
    clause replaces whatever the body did, a pending exception included. *)
Definition finally_return {E St X Y} (body : M E St X) (final : M E St Y)
    : M E St Y :=
  fun s => final (snd (body s)).

(** [divide(a, b)] on numbers. *)
Definition divide (a b : R) : M exn divide_state (option R) :=
  (fun s => (Ok tt, mkDivideState None (printed s))) ;;;
  finally_return
    (try_except
       (fun s =>
          match truediv a b with
          | Ok q => (Ok tt, mkDivideState (Some q) (printed s))
          | Raise e => (Raise e, s)
          end)
       (fun e =>
          match e with
          | ZeroDivisionError =>
              Some (fun s =>
                      (Ok tt,
                       mkDivideState (division s)
                         (printed s ++ ["You tried to divide by zero."%string])))
          | _ => None
          end))
    (s <- get_self ;; ret (division s)).

End s3_extended.

(** ** exercise/s1/s_1_bs_option.py *)
Module s_1_bs_option.
Local Open Scope R_scope.
Local Open Scope py_scope.

(** class Option; [Call] and [Put] inherit its attributes and add none. *)
Record Option : Type := mkOption {
  S : R;
  K : R;
  r : R;
  T : R;
  sigma : R
}.

(** [Option.d1]: the quotient by [sigma] is taken first and the result is
    then multiplied by [math.sqrt(self.T)], as [/] and [*] associate to the
    left. *)
Definition d1 (self : Option) : pure R :=
  q <~ truediv (S self) (K self) ;;
  lg <~ math_log q ;;
  a <~ truediv (lg + (r self + 0.5 * sigma self ^ 2) * T self) (sigma self) ;;
  s <~ math_sqrt (T self) ;;
  Ok (a * s).

(** [Option.d2] *)
Definition d2 (self : Option) : pure R :=
  a <~ d1 self ;;
  s <~ math_sqrt (T self) ;;
  Ok (a - sigma self * s).

(** [Option.vega], inherited unchanged by [Call] and [Put]. *)
Definition vega (self : Option) : pure R :=
  a <~ d1 self ;;
  s <~ math_sqrt (T self) ;;
  Ok (S self * norm.pdf a * s).

(** class Call(Option) *)
Module Call.

(** [Call.price] *)
Definition price (self : Option) : pure R :=
  d1 <~ d1 self ;;
  d2 <~ d2 self ;;
  Ok (S self * norm.cdf d1
      - K self * math_exp (- r self * T self) * norm.cdf d2).

(** [Call.delta] *)
Definition delta (self : Option) : pure R :=
  a <~ d1 self ;;
  Ok (norm.cdf a).

(** [Call.rho] *)
Definition rho (self : Option) : pure R :=
  b <~ d2 self ;;
  Ok (T self * K self * math_exp (- r self * T self) * norm.cdf b).

(** [Call.theta]: the dividend is a [numpy.float64], as [norm.pdf] returns
    one, so the quotient by [2 * math.sqrt(self.T)] follows numpy's
    division and raises nothing when the divisor is zero. *)
Definition theta (self : Option) : pure float64 :=
  d1 <~ d1 self ;;
  d2 <~ d2 self ;;
  s <~ math_sqrt (T self) ;;
  Ok (np_sub (np_truediv (- (S self * norm.pdf d1 * sigma self)) (2 * s))
        (r self * K self * math_exp (- r self * T self) * norm.cdf d2)).

(** [Call.theta_per_day] *)
Definition theta_per_day (self : Option) : pure float64 :=
  th <~ theta self ;;
  Ok (np_truediv64 th 365.0).

End Call.

(** class Put(Option) *)
Module Put.

(** [Put.price] *)
Definition price (self : Option) : pure R :=
  d1 <~ d1 self ;;
  d2 <~ d2 self ;;
  Ok (K self * math_exp (- r self * T self) * norm.cdf (- d2)
      - S self * norm.cdf (- d1)).

(** [Put.delta] *)
Definition delta (self : Option) : pure R :=
  a <~ d1 self ;;
  Ok (norm.cdf a - 1.0).

(** [Put.rho] *)
Definition rho (self : Option) : pure R :=
  b <~ d2 self ;;
  Ok (- T self * K self * math_exp (- r self * T self) * norm.cdf (- b)).

(** [Put.rho_per_1pct] *)
Definition rho_per_1pct (self : Option) : pure R :=
  rh <~ rho self ;;
  Ok (0.01 * rh).

(** [Put.theta], with the same [numpy.float64] quotient as [Call.theta]. *)
Definition theta (self : Option) : pure float64 :=
  d1 <~ d1 self ;;
  d2 <~ d2 self ;;
  s <~ math_sqrt (T self) ;;
  Ok (np_add (np_truediv (- (S self * norm.pdf d1 * sigma self)) (2 * s))
        (r self * K self * math_exp (- r self * T self) * norm.cdf (- d2))).

(** [Put.theta_per_day] *)
Definition theta_per_day (self : Option) : pure float64 :=
  th <~ theta self ;;
  Ok (np_truediv64 th 365.0).

End Put.

End s_1_bs_option.

(** ** exercise/s1/s_1_introduction.py *)
Module s_1_introduction.
Local Open Scope R_scope.
Local Open Scope py_scope.

(** class Equity(FinancialAsset); [eps] can be [None]. *)
Record Equity : Type := mkEquity {
  ticker : string;
  price : R;
  currency : string;
  eps : option R;
  pe : R
}.

(** [Equity.calculate_pe_ratio], which reads [self.price] and [self.eps]. *)
Definition calculate_pe_ratio (price : R) (eps : option R) : pure R :=
  match eps with
  | None => Ok 0
  | Some e => if Rle_dec e 0 then Ok 0 else truediv price e
  end.

(** [Equity(ticker, price, currency, eps)] *)
Definition Equity__init__ (ticker : string) (price : R) (currency : string)
    (eps : option R) : pure Equity :=
  pe <~ calculate_pe_ratio price eps ;;
  Ok (mkEquity ticker price currency eps pe).

(** A [datetime]: its wall-clock time, as a number of microseconds since a
    fixed origin, and its [tzinfo]: [None] for a naive datetime, the offset
    from UTC in microseconds for an aware one. *)
Record datetime : Type := mkDatetime {
  wall : Z;
  tzinfo : option Z
}.

(** [datetime.now()], called without a time zone: the naive datetime of
    the local clock. *)
Definition datetime_now (clock : Z) : datetime := mkDatetime clock None.

(** [a - b] on datetimes, the [timedelta] as its number of microseconds:
    two naive datetimes give the difference of their wall-clock times, two
    aware ones the difference of their UTC times, and a naive with an
    aware one raises [TypeError]. *)
Definition datetime_sub (a b : datetime) : pure Z :=
  match tzinfo a, tzinfo b with
  | None, None => Ok (wall a - wall b)%Z
  | Some offset_a, Some offset_b =>
      Ok ((wall a - offset_a) - (wall b - offset_b))%Z
  | _, _ => Raise TypeError
  end.

Definition microseconds_per_day : Z := 86400000000.

(** [delta.days]: a [timedelta] keeps its seconds and microseconds
    non-negative, so its days are the difference rounded down. *)
Definition timedelta_days (delta : Z) : Z :=
  (delta / microseconds_per_day)%Z.

(** [Bond.compute_ttm], with [clock] the wall-clock time that
    [datetime.now()] reads. *)
Definition compute_ttm (maturity_date : datetime) (clock : Z) : pure R :=
  let today := datetime_now clock in
  delta <~ datetime_sub maturity_date today ;;
  truediv (IZR (timedelta_days delta)) 365.

End s_1_introduction.

(** * Proofs *)

Unset Implicit Arguments.

(** ** Facts on [range] and on the dictionary embedding *)

Lemma range_nil (lo hi : Z) : (hi <= lo)%Z -> range lo hi = [].
Proof.
  intros H. unfold range.
  replace (Z.to_nat (hi - lo)) with 0%nat by lia. reflexivity.
Qed.

Lemma range_cons (lo hi : Z) :
  (lo < hi)%Z -> range lo hi = lo :: range (lo + 1) hi.
Proof.
  intros H. unfold range.
  replace (Z.to_nat (hi - lo)) with (S (Z.to_nat (hi - (lo + 1)))) by lia.
  cbn [seq map]. f_equal; [lia|].
  rewrite <- seq_shift, map_map.
  apply map_ext. intros k. lia.
Qed.

Lemma in_range (lo hi k : Z) : In k (range lo hi) <-> (lo <= k < hi)%Z.
Proof.
  unfold range. rewrite in_map_iff. split.
  - intros (n & <- & Hn). apply in_seq in Hn. lia.
  - intros Hk. exists (Z.to_nat (k - lo)). split; [lia|].
    apply in_seq. lia.
Qed.

Module DictFacts.
Section DictFacts.
Local Open Scope Z_scope.
Variable V : Type.
Implicit Types (d : Dict.t V) (k : Z) (v : V).

Lemma get_in_keys d k : In k (Dict.keys d) <-> exists v, Dict.get d k = Some v.
Proof.
  induction d as [|[k' v'] d IH]; cbn.
  - split; [tauto | intros (v & Hv); discriminate].
  - destruct (Z.eqb_spec k k') as [->|Hne].
    + split; [intros _; now exists v' | now left].
    + rewrite <- IH. split; [intros [H|H]; [congruence | exact H] | now right].
Qed.

Lemma get_none_not_in d k : Dict.get d k = None <-> ~ In k (Dict.keys d).
Proof.
  rewrite get_in_keys. split.
  - intros H (v & Hv). congruence.
  - intros H. destruct (Dict.get d k) as [v|]; [|reflexivity].
    exfalso. apply H. now exists v.
Qed.

Lemma get_set d k v k' :
  Dict.get (Dict.set d k v) k' = if k' =? k then Some v else Dict.get d k'.
Proof.
  induction d as [|[k0 v0] d IH]; cbn.
  - reflexivity.
  - destruct (Z.eqb_spec k k0) as [->|Hne]; cbn.
    + destruct (Z.eqb_spec k' k0); reflexivity.
    + rewrite IH. destruct (Z.eqb_spec k' k0) as [->|]; [|reflexivity].
      destruct (Z.eqb_spec k0 k); [congruence | reflexivity].
Qed.

Lemma keys_set d k v k' :
  In k' (Dict.keys (Dict.set d k v)) <-> k' = k \/ In k' (Dict.keys d).
Proof.
  rewrite !get_in_keys, get_set.
  destruct (Z.eqb_spec k' k) as [->|Hne].
  - split; [now left | intros _; now exists v].
  - split; [now right | intros [H|H]; [contradiction | exact H]].
Qed.

Lemma wf_set d k v : Dict.wf d -> Dict.wf (Dict.set d k v).
Proof.
  unfold Dict.wf. induction d as [|[k0 v0] d IH]; cbn; intros Hwf.
  - constructor; [intros [] | constructor].
  - inversion Hwf as [|? ? Hnotin Hwf']; subst.
    destruct (Z.eqb_spec k k0) as [->|Hne]; cbn.
    + now constructor.
    + constructor; [|now apply IH].
      intros Hin. apply (keys_set d k v k0) in Hin.
      destruct Hin as [Heq|Hin]; [congruence | contradiction].
Qed.

Lemma length_set_new d k v :
  ~ In k (Dict.keys d) -> Dict.len (Dict.set d k v) = Dict.len d + 1.
Proof.
  unfold Dict.len. induction d as [|[k0 v0] d IH]; cbn [Dict.set Dict.keys map fst In]; intros Hk.
  - reflexivity.
  - destruct (Z.eqb_spec k k0) as [->|Hne]; [exfalso; apply Hk; now left|].
    cbn [List.length]. rewrite !Nat2Z.inj_succ.
    rewrite IH; [lia | intros H; apply Hk; now right].
Qed.

Lemma length_set_old d k v :
  In k (Dict.keys d) -> Dict.len (Dict.set d k v) = Dict.len d.
Proof.
  unfold Dict.len. induction d as [|[k0 v0] d IH]; cbn [Dict.set Dict.keys map fst In]; intros Hk.
  - contradiction.
  - destruct (Z.eqb_spec k k0) as [->|Hne]; [reflexivity|].
    cbn [List.length]. rewrite !Nat2Z.inj_succ.
    rewrite IH; [lia | destruct Hk; [congruence | assumption]].
Qed.

Lemma get_del d k k' :
  Dict.wf d ->
  Dict.get (Dict.del d k) k' = if k' =? k then None else Dict.get d k'.
Proof.
  unfold Dict.wf. induction d as [|[k0 v0] d IH]; cbn; intros Hwf.
  - now destruct (k' =? k).
  - inversion Hwf as [|? ? Hnotin Hwf']; subst.
    destruct (Z.eqb_spec k k0) as [->|Hne]; cbn.
    + destruct (Z.eqb_spec k' k0) as [Heq|]; [|reflexivity].
      subst k'. now apply get_none_not_in.
    + rewrite IH by assumption.
      destruct (Z.eqb_spec k' k0) as [Heq|]; [|reflexivity].
      subst k'. destruct (Z.eqb_spec k0 k); [congruence | reflexivity].
Qed.

Lemma keys_del d k k' :
  Dict.wf d ->
  In k' (Dict.keys (Dict.del d k)) <-> k' <> k /\ In k' (Dict.keys d).
Proof.
  intros Hwf. rewrite !get_in_keys, get_del by assumption.
  destruct (Z.eqb_spec k' k) as [->|Hne].
  - split; [intros (v & Hv); discriminate | intros [H _]; congruence].
  - split; [now split | intros [_ H]; exact H].
Qed.

Lemma wf_del d k : Dict.wf d -> Dict.wf (Dict.del d k).
Proof.
  unfold Dict.wf. induction d as [|[k0 v0] d IH]; cbn; intros Hwf.
  - constructor.
  - inversion Hwf as [|? ? Hnotin Hwf']; subst.
    destruct (Z.eqb_spec k k0) as [->|Hne]; cbn; [assumption|].
    constructor; [|now apply IH].
    intros Hin. apply (keys_del d k k0 Hwf') in Hin. tauto.
Qed.

Lemma length_del d k :
  In k (Dict.keys d) -> Dict.len (Dict.del d k) = Dict.len d - 1.
Proof.
  unfold Dict.len. induction d as [|[k0 v0] d IH]; cbn [Dict.del Dict.keys map fst In]; intros Hk.
  - contradiction.
  - destruct (Z.eqb_spec k k0) as [->|Hne]; cbn [List.length]; rewrite !Nat2Z.inj_succ; [lia|].
    rewrite IH; [lia | destruct Hk; [congruence | assumption]].
Qed.

End DictFacts.
End DictFacts.

(** ** The custom [List]: representation invariant and method contracts *)
Module CustomListProofs.
Import s_2_custom_list_part_2.
Section Proofs.
Local Open Scope Z_scope.
Variable A : Type.
Implicit Types (l self : List A) (i k h index : Z).

(** The element stored under key [k], if any. *)
Definition item l k : option A := Dict.get (_elements l) k.

(** The representation invariant: [_count] is the number of stored
    entries and the keys are exactly [0 .. _count - 1]. *)
Definition List_inv l : Prop :=
  Dict.wf (_elements l) /\
  _count l = Dict.len (_elements l) /\
  forall k, In k (Dict.keys (_elements l)) <-> 0 <= k < _count l.

(** The state inside the shifting loop: the keys are [0 .. _count] with
    a hole at [h]. *)
Definition holed h l : Prop :=
  Dict.wf (_elements l) /\
  _count l = Dict.len (_elements l) /\
  0 <= h <= _count l /\
  forall k, In k (Dict.keys (_elements l)) <-> (0 <= k <= _count l /\ k <> h).

(** The guard of [__getitem__], [__setitem__] and [pop]. *)
Definition out_of_range i l : Prop := i < 0 \/ i >= _count l.

Lemma guard_true i l :
  out_of_range i l -> (i <? 0) || (i >=? _count l) = true.
Proof. unfold out_of_range. intros H. apply orb_true_iff. lia. Qed.

Lemma guard_false i l :
  ~ out_of_range i l -> (i <? 0) || (i >=? _count l) = false.
Proof. unfold out_of_range. intros H. apply orb_false_iff. lia. Qed.

Lemma inv_item_some l k :
  List_inv l -> 0 <= k < _count l -> exists v, item l k = Some v.
Proof.
  intros (_ & _ & Hkeys) Hk. apply DictFacts.get_in_keys. now apply Hkeys.
Qed.

Lemma inv_count_nonneg l : List_inv l -> 0 <= _count l.
Proof. intros (_ & Hlen & _). rewrite Hlen. unfold Dict.len. lia. Qed.

Lemma holed_end l : holed (_count l) l -> List_inv l.
Proof.
  intros (Hwf & Hlen & Hh & Hkeys). repeat split; try assumption.
  - apply Hkeys in H. lia.
  - apply Hkeys in H. lia.
  - intros Hk. apply Hkeys. lia.
Qed.

(** One round of the shifting loop moves the hole one place up. *)
Lemma shift_body i l :
  holed i l -> i < _count l ->
  exists l',
    bind (elements_pop (i + 1)) (fun v => elements_setitem i v) l = (Ok tt, l') /\
    holed (i + 1) l' /\
    _count l' = _count l /\
    forall k, item l' k =
      if k =? i then item l (i + 1)
      else if k =? i + 1 then None else item l k.
Proof.
  intros (Hwf & Hlen & Hh & Hkeys) Hi.
  assert (Hin : In (i + 1) (Dict.keys (_elements l))) by (apply Hkeys; lia).
  assert (Hnotin : ~ In i (Dict.keys (_elements l))).
  { intros H. apply Hkeys in H. lia. }
  destruct (proj1 (DictFacts.get_in_keys _ _ _) Hin) as [v Hv].
  eexists. split.
  { unfold bind, elements_pop, elements_setitem. rewrite Hv. cbn. reflexivity. }
  unfold holed. cbn [_elements _count]. split; [|split; [reflexivity|]].
  - split; [|split; [|split]].
    + apply DictFacts.wf_set. now apply DictFacts.wf_del.
    + rewrite DictFacts.length_set_new.
      * rewrite DictFacts.length_del by assumption. lia.
      * intros H. apply DictFacts.keys_del in H; tauto.
    + lia.
    + intros k. rewrite DictFacts.keys_set, DictFacts.keys_del by assumption.
      rewrite Hkeys. lia.
  - intros k. unfold item. cbn [_elements].
    rewrite DictFacts.get_set, DictFacts.get_del by assumption.
    destruct (Z.eqb_spec k i) as [->|]; [now rewrite Hv | reflexivity].
Qed.

(** The whole loop closes the hole: the entries above [i] move one key
    down, the others stay. *)
Lemma shift_loop (n : nat) : forall i l,
  Z.to_nat (_count l - i) = n -> holed i l ->
  exists l',
    for_each (range i (_count l))
      (fun j => bind (elements_pop (j + 1)) (fun v => elements_setitem j v)) l
      = (Ok tt, l') /\
    List_inv l' /\
    _count l' = _count l /\
    (forall k, k < i -> item l' k = item l k) /\
    (forall k, i <= k -> item l' k = item l (k + 1)).
Proof.
  induction n as [|n IH]; intros i l Hn Hholed.
  - assert (Hi : i = _count l) by (destruct Hholed as (_ & _ & ? & _); lia).
    exists l. rewrite range_nil by lia. subst i.
    split; [reflexivity|]. split; [now apply holed_end|].
    split; [reflexivity|]. split; [reflexivity|].
    intros k Hk. destruct Hholed as (_ & _ & _ & Hkeys). unfold item.
    transitivity (@None A); [|symmetry]; apply DictFacts.get_none_not_in;
      intros H; apply Hkeys in H; lia.
  - assert (Hi : i < _count l) by lia.
    destruct (shift_body i l Hholed Hi) as (l1 & Hbody & Hholed1 & Hc1 & Hitem1).
    destruct (IH (i + 1) l1 ltac:(lia) Hholed1)
      as (l' & Hloop & Hinv & Hc & Hlow & Hhigh).
    exists l'. rewrite range_cons by lia. cbn [for_each].
    unfold bind at 1. cbn beta. rewrite Hbody, <- Hc1, Hloop.
    split; [reflexivity|]. split; [assumption|]. split; [lia|]. split.
    + intros k Hk. rewrite Hlow by lia. rewrite Hitem1.
      destruct (Z.eqb_spec k i); [lia|]. destruct (Z.eqb_spec k (i + 1)); [lia|].
      reflexivity.
    + intros k Hk. destruct (Z.eq_dec k i) as [->|Hne].
      * rewrite Hlow by lia. rewrite Hitem1. now rewrite Z.eqb_refl.
      * rewrite Hhigh by lia. rewrite Hitem1.
        destruct (Z.eqb_spec (k + 1) i); [lia|].
        destruct (Z.eqb_spec (k + 1) (i + 1)); [lia|]. reflexivity.
Qed.

(** [shift_down] started on a list with a hole at [index]. *)
Lemma shift_down_spec index l :
  holed index l ->
  exists l',
    shift_down index l = (Ok tt, l') /\
    List_inv l' /\
    _count l' = _count l /\
    (forall k, k < index -> item l' k = item l k) /\
    (forall k, index <= k -> item l' k = item l (k + 1)).
Proof.
  intros Hholed. unfold shift_down, bind at 1, get_self.
  exact (shift_loop _ index l eq_refl Hholed).
Qed.

(** Taking the entry at an in-range key out and lowering [_count] leaves
    a hole at that key. *)
Lemma holed_after_del index l v :
  List_inv l -> 0 <= index < _count l -> item l index = Some v ->
  holed index (mkList (Dict.del (_elements l) index) (_count l + -1)).
Proof.
  intros (Hwf & Hlen & Hkeys) Hi Hv.
  assert (Hin : In index (Dict.keys (_elements l))) by now apply Hkeys.
  unfold holed. cbn [_elements _count]. split; [|split; [|split]].
  - now apply DictFacts.wf_del.
  - rewrite DictFacts.length_del by assumption. lia.
  - lia.
  - intros k. rewrite DictFacts.keys_del by assumption. rewrite Hkeys. lia.
Qed.

(** The full contract of [pop] at an in-range index. *)
Lemma pop_in_range index l :
  List_inv l -> 0 <= index < _count l ->
  exists v l',
    item l index = Some v /\
    pop index l = (Ok v, l') /\
    List_inv l' /\
    _count l' = _count l - 1 /\
    (forall k, k < index -> item l' k = item l k) /\
    (forall k, index <= k -> item l' k = item l (k + 1)).
Proof.
  intros Hinv Hi.
  destruct (inv_item_some l index Hinv Hi) as [v Hv].
  pose proof (holed_after_del index l v Hinv Hi Hv) as Hholed.
  destruct (shift_down_spec index _ Hholed) as (l' & Hshift & Hinv' & Hc & Hlow & Hhigh).
  exists v, l'. split; [assumption|]. split.
  { unfold pop, bind at 1, get_self.
    rewrite guard_false by (unfold out_of_range; lia).
    unfold bind at 1, elements_pop. unfold item in Hv. rewrite Hv.
    unfold bind at 1, count_add. cbn [_elements _count].
    unfold bind at 1. rewrite Hshift. reflexivity. }
  cbn [_count] in Hc. split; [assumption|]. split; [lia|].
  destruct Hinv as (Hwf & _ & _).
  split.
  - intros k Hk. rewrite Hlow by assumption. unfold item. cbn [_elements].
    rewrite DictFacts.get_del by assumption.
    destruct (Z.eqb_spec k index); [lia | reflexivity].
  - intros k Hk. rewrite Hhigh by assumption. unfold item. cbn [_elements].
    rewrite DictFacts.get_del by assumption.
    destruct (Z.eqb_spec (k + 1) index); [lia | reflexivity].
Qed.

Lemma pop_out_of_range index l :
  out_of_range index l ->
  pop index l = (Raise (IndexError "Out of bond Index"), l).
Proof.
  intros H. unfold pop, bind, get_self. now rewrite guard_true.
Qed.

Lemma getitem_out_of_range index l :
  out_of_range index l ->
  __getitem__ index l = (Raise (IndexError "Out of bond Index"), l).
Proof.
  intros H. unfold __getitem__, bind, get_self. now rewrite guard_true.
Qed.

Lemma getitem_in_range index l :
  List_inv l -> 0 <= index < _count l ->
  exists v, item l index = Some v /\ __getitem__ index l = (Ok v, l).
Proof.
  intros Hinv Hi. destruct (inv_item_some l index Hinv Hi) as [v Hv].
  exists v. split; [assumption|].
  unfold __getitem__, bind, get_self.
  rewrite guard_false by (unfold out_of_range; lia).
  unfold elements_getitem. unfold item in Hv. now rewrite Hv.
Qed.

Lemma setitem_out_of_range index value l :
  out_of_range index l ->
  __setitem__ index value l = (Raise (IndexError "Out of bond Index"), l).
Proof.
  intros H. unfold __setitem__, bind, get_self. now rewrite guard_true.
Qed.

Lemma setitem_in_range index value l :
  List_inv l -> 0 <= index < _count l ->
  exists l',
    __setitem__ index value l = (Ok tt, l') /\
    List_inv l' /\
    _count l' = _count l /\
    forall k, item l' k = if k =? index then Some value else item l k.
Proof.
  intros (Hwf & Hlen & Hkeys) Hi.
  assert (Hin : In index (Dict.keys (_elements l))) by now apply Hkeys.
  eexists. split.
  { unfold __setitem__, bind, get_self.
    rewrite guard_false by (unfold out_of_range; lia).
    unfold elements_setitem. reflexivity. }
  unfold List_inv. cbn [_elements _count]. split; [|split; [reflexivity|]].
  - split; [|split].
    + now apply DictFacts.wf_set.
    + now rewrite DictFacts.length_set_old.
    + intros k. rewrite DictFacts.keys_set, Hkeys. lia.
  - intros k. unfold item. cbn [_elements]. apply DictFacts.get_set.
Qed.

Lemma init_inv : List_inv (__init__ A).
Proof.
  unfold List_inv, __init__, Dict.wf. cbn. split; [constructor|].
  split; [reflexivity|]. intros k. split; [contradiction | lia].
Qed.

Lemma append_spec element l :
  List_inv l ->
  exists l',
    append element l = (Ok tt, l') /\
    List_inv l' /\
    _count l' = _count l + 1 /\
    forall k, item l' k = if k =? _count l then Some element else item l k.
Proof.
  intros Hinv. pose proof (inv_count_nonneg l Hinv) as Hnn.
  destruct Hinv as (Hwf & Hlen & Hkeys).
  assert (Hnotin : ~ In (_count l) (Dict.keys (_elements l))).
  { intros H. apply Hkeys in H. lia. }
  eexists. split.
  { unfold append, bind, get_self, elements_setitem, count_add. cbn. reflexivity. }
  unfold List_inv. cbn [_elements _count]. split; [|split; [reflexivity|]].
  - split; [|split].
    + now apply DictFacts.wf_set.
    + rewrite DictFacts.length_set_new by assumption. lia.
    + intros k. rewrite DictFacts.keys_set, Hkeys. lia.
  - intros k. unfold item. cbn [_elements]. apply DictFacts.get_set.
Qed.

(** [r] is a raised [IndexError]. *)
Definition raises_IndexError {R : Type} (r : result exn R) : Prop :=
  match r with
  | Raise (IndexError _) => True
  | _ => False
  end.

Lemma len_spec l : __len__ l = (Ok (_count l), l).
Proof. reflexivity. Qed.

(** C6. For a custom [List] [l] and an integer [index], [__getitem__],
    [__setitem__] and [pop] raise [IndexError] exactly when
    [index < 0 or index >= len(l)], negative indices included; when they
    raise, [l] is unchanged; otherwise [__getitem__] returns the element at
    position [index], [__setitem__] replaces it and touches nothing else,
    and [pop] returns it and removes it, the elements after it moving one
    position down. *)
Theorem List_index_contract l index (Hinv : List_inv l) :
  __len__ l = (Ok (_count l), l) /\
  ((raises_IndexError (fst (__getitem__ index l)) <-> out_of_range index l) /\
   (forall value, raises_IndexError (fst (__setitem__ index value l))
                  <-> out_of_range index l) /\
   (raises_IndexError (fst (pop index l)) <-> out_of_range index l)) /\
  (out_of_range index l ->
   snd (__getitem__ index l) = l /\
   (forall value, snd (__setitem__ index value l) = l) /\
   snd (pop index l) = l) /\
  (~ out_of_range index l ->
   exists e,
     item l index = Some e /\
     __getitem__ index l = (Ok e, l) /\
     (forall value, exists l',
        __setitem__ index value l = (Ok tt, l') /\
        _count l' = _count l /\
        forall k, item l' k = if k =? index then Some value else item l k) /\
     (exists l',
        pop index l = (Ok e, l') /\
        _count l' = _count l - 1 /\
        (forall k, k < index -> item l' k = item l k) /\
        (forall k, index <= k -> item l' k = item l (k + 1)))).
Proof.
  split; [apply len_spec|].
  assert (Hdec : out_of_range index l \/ 0 <= index < _count l).
  { unfold out_of_range. lia. }
  split; [|split].
  - destruct Hdec as [Hout|Hin].
    + rewrite getitem_out_of_range, pop_out_of_range by assumption.
      split; [|split].
      * cbn. tauto.
      * intros value. rewrite setitem_out_of_range by assumption. cbn. tauto.
      * cbn. tauto.
    + assert (Hnot : ~ out_of_range index l) by (unfold out_of_range; lia).
      destruct (getitem_in_range index l Hinv Hin) as (v & _ & Hget).
      destruct (pop_in_range index l Hinv Hin) as (v' & l' & _ & Hpop & _).
      rewrite Hget, Hpop. split; [|split].
      * cbn. tauto.
      * intros value.
        destruct (setitem_in_range index value l Hinv Hin) as (l'' & Hset & _).
        rewrite Hset. cbn. tauto.
      * cbn. tauto.
  - intros Hout. split; [|split].
    + now rewrite getitem_out_of_range.
    + intros value. now rewrite setitem_out_of_range.
    + now rewrite pop_out_of_range.
  - intros Hnot.
    assert (Hin : 0 <= index < _count l) by (unfold out_of_range in Hnot; lia).
    destruct (getitem_in_range index l Hinv Hin) as (e & He & Hget).
    exists e. split; [assumption|]. split; [assumption|]. split.
    + intros value.
      destruct (setitem_in_range index value l Hinv Hin)
        as (l' & Hset & _ & Hc & Hitems).
      now exists l'.
    + destruct (pop_in_range index l Hinv Hin)
        as (v & l' & Hv & Hpop & _ & Hc & Hlow & Hhigh).
      assert (v = e) by congruence. subst v.
      now exists l'.
Qed.

(** C4. [List.__add__] is unimplemented: for two custom lists [a] and [b],
    [a + b] returns [None], not a new [List], and leaves both [a] and [b]
    as they were. *)
Theorem add_returns_None (a b : List A) :
  __add__ (a, CustomList b) = (Ok (VNone A), (a, CustomList b)) /\
  binary_add (a, CustomList b) = (Ok (VNone A), (a, CustomList b)) /\
  forall c, fst (binary_add (a, CustomList b)) <> Ok (VList c).
Proof.
  split; [reflexivity|]. split; [reflexivity|]. intros c. discriminate.
Qed.

(** [self + other] returns [None] whatever stands on the right. *)
Lemma binary_add_any (l : List A) (other : operand A) :
  binary_add (l, other) = (Ok (VNone A), (l, other)).
Proof. reflexivity. Qed.

(** Python's [==] on the elements, and [str]. *)
Variable A_eqb : A -> A -> bool.
Variable str : A -> string.

Lemma find_item_in (items : list (Z * A)) value index :
  find_item A_eqb items value = Some index -> In index (map fst items).
Proof.
  induction items as [|[k e] items IH]; cbn; [discriminate|].
  destruct (A_eqb e value).
  - intros [= ->]. now left.
  - intros H. right. now apply IH.
Qed.

Lemma remove_spec value l :
  List_inv l ->
  exists l', remove A_eqb value l = (Ok tt, l') /\ List_inv l'.
Proof.
  intros Hinv. unfold remove, bind at 1, get_self.
  destruct (find_item A_eqb (Dict.items (_elements l)) value) as [index|] eqn:Hfind.
  - apply find_item_in in Hfind.
    assert (Hi : 0 <= index < _count l).
    { destruct Hinv as (_ & _ & Hkeys). now apply Hkeys. }
    destruct (inv_item_some l index Hinv Hi) as [v Hv].
    pose proof (holed_after_del index l v Hinv Hi Hv) as Hholed.
    destruct (shift_down_spec index _ Hholed) as (l' & Hshift & Hinv' & _).
    exists l'. split; [|assumption].
    unfold bind at 1, elements_del, bind at 1, elements_pop.
    unfold item in Hv. rewrite Hv. unfold ret.
    unfold bind at 1, count_add. cbn [_elements _count]. exact Hshift.
  - exists l. split; [reflexivity | assumption].
Qed.

Lemma str_items_ok indices l :
  (forall k, In k indices -> exists v, item l k = Some v) ->
  exists parts, str_items str indices l = (Ok parts, l).
Proof.
  induction indices as [|i indices IH]; intros H.
  - exists []. reflexivity.
  - destruct (H i (or_introl eq_refl)) as [v Hv].
    destruct IH as [parts Hparts]. { intros k Hk. apply H. now right. }
    exists (str v :: parts). cbn [str_items].
    unfold bind at 1, elements_getitem. unfold item in Hv. rewrite Hv.
    unfold bind at 1. rewrite Hparts. reflexivity.
Qed.

Lemma str_ok l : List_inv l -> exists s, __str__ str l = (Ok s, l).
Proof.
  intros Hinv. unfold __str__, bind at 1, get_self.
  destruct (str_items_ok (range 0 (_count l)) l) as [parts Hparts].
  { intros k Hk. apply in_range in Hk. now apply inv_item_some. }
  eexists. unfold bind. rewrite Hparts. reflexivity.
Qed.

(** The lists a client can build through the methods of the class. *)
Inductive reachable : List A -> Prop :=
| reach_init : reachable (__init__ A)
| reach_append l element :
    reachable l -> reachable (snd (append element l))
| reach_remove l value :
    reachable l -> reachable (snd (remove A_eqb value l))
| reach_pop l index :
    reachable l -> reachable (snd (pop index l))
| reach_setitem l index value :
    reachable l -> reachable (snd (__setitem__ index value l)).

Lemma reachable_inv l : reachable l -> List_inv l.
Proof.
  induction 1 as [|l element _ IH|l value _ IH|l index _ IH|l index value _ IH].
  - apply init_inv.
  - destruct (append_spec element l IH) as (l' & Happ & Hinv' & _).
    now rewrite Happ.
  - destruct (remove_spec value l IH) as (l' & Hrem & Hinv').
    now rewrite Hrem.
  - destruct (Z_lt_le_dec index 0) as [Hneg|Hnn];
      [|destruct (Z_lt_le_dec index (_count l)) as [Hlt|Hge]].
    + rewrite pop_out_of_range by (unfold out_of_range; lia). exact IH.
    + destruct (pop_in_range index l IH (conj Hnn Hlt))
        as (v & l' & _ & Hpop & Hinv' & _).
      now rewrite Hpop.
    + rewrite pop_out_of_range by (unfold out_of_range; lia). exact IH.
  - destruct (Z_lt_le_dec index 0) as [Hneg|Hnn];
      [|destruct (Z_lt_le_dec index (_count l)) as [Hlt|Hge]].
    + rewrite setitem_out_of_range by (unfold out_of_range; lia). exact IH.
    + destruct (setitem_in_range index value l IH (conj Hnn Hlt))
        as (l' & Hset & Hinv' & _).
      now rewrite Hset.
    + rewrite setitem_out_of_range by (unfold out_of_range; lia). exact IH.
Qed.

(** C9. The invariant of the custom [List] ([_count] is the number of
    stored entries and the keys of [_elements] are exactly
    [0 .. _count - 1]) holds after construction and is preserved by every
    [append], [remove], [pop] and [__setitem__] call; under it [__str__]
    returns and [__getitem__] returns at every in-range index, so neither
    meets a missing key. *)
Theorem List_invariant l (Hinv : List_inv l) :
  List_inv (__init__ A) /\
  (forall element, exists l',
     append element l = (Ok tt, l') /\ List_inv l') /\
  (forall value, exists l',
     remove A_eqb value l = (Ok tt, l') /\ List_inv l') /\
  (forall index, List_inv (snd (pop index l))) /\
  (forall index value, List_inv (snd (__setitem__ index value l))) /\
  (exists s, __str__ str l = (Ok s, l)) /\
  (forall index, 0 <= index < _count l ->
     exists v, __getitem__ index l = (Ok v, l)).
Proof.
  split; [apply init_inv|]. split; [|split; [|split; [|split; [|split]]]].
  - intros element.
    destruct (append_spec element l Hinv) as (l' & Happ & Hinv' & _).
    now exists l'.
  - intros value. now apply remove_spec.
  - intros index.
    assert (Hdec : out_of_range index l \/ 0 <= index < _count l).
    { unfold out_of_range. lia. }
    destruct Hdec as [Hout|Hin].
    + now rewrite pop_out_of_range.
    + destruct (pop_in_range index l Hinv Hin) as (v & l' & _ & Hpop & Hinv' & _).
      now rewrite Hpop.
  - intros index value.
    assert (Hdec : out_of_range index l \/ 0 <= index < _count l).
    { unfold out_of_range. lia. }
    destruct Hdec as [Hout|Hin].
    + now rewrite setitem_out_of_range.
    + destruct (setitem_in_range index value l Hinv Hin) as (l' & Hset & Hinv' & _).
      now rewrite Hset.
  - now apply str_ok.
  - intros index Hin.
    destruct (getitem_in_range index l Hinv Hin) as (v & _ & Hget).
    now exists v.
Qed.

End Proofs.

(** The list of [TestListDunder.setUp]: [1], [2] and [3] appended to an
    empty [List]. *)
Definition setUp_list : List Z :=
  snd (append 3%Z (snd (append 2%Z (snd (append 1%Z (__init__ Z)))))).

Lemma setUp_list_inv : List_inv Z setUp_list.
Proof.
  unfold List_inv, Dict.wf. cbn. split; [|split; [reflexivity|]].
  - repeat constructor; cbn; lia.
  - intros k. lia.
Defined.

(** The assertions of [TestListDunder] that do not involve [+], run on the
    embedding. *)
Example test_str :
  __str__ s2.format_int setUp_list = (Ok "[1, 2, 3]"%string, setUp_list).
Proof. reflexivity. Qed.

Example test_len : __len__ setUp_list = (Ok 3%Z, setUp_list).
Proof. reflexivity. Qed.

Example test_getitem :
  __getitem__ 1%Z setUp_list = (Ok 2%Z, setUp_list) /\
  __getitem__ 3%Z setUp_list
  = (Raise (IndexError "Out of bond Index"), setUp_list).
Proof. split; reflexivity. Qed.

Example test_setitem :
  (exists l', __setitem__ 1%Z 5%Z setUp_list = (Ok tt, l') /\
              __getitem__ 1%Z l' = (Ok 5%Z, l')) /\
  __setitem__ 3%Z 4%Z setUp_list
  = (Raise (IndexError "Out of bond Index"), setUp_list).
Proof. split; [eexists; split; reflexivity | reflexivity]. Qed.

Example pop_first :
  pop 0%Z setUp_list = (Ok 1%Z, mkList [(0, 2); (1, 3)]%Z 2%Z).
Proof. reflexivity. Qed.

Example remove_middle :
  remove Z.eqb 2%Z setUp_list = (Ok tt, mkList [(0, 1); (1, 3)]%Z 2%Z).
Proof. reflexivity. Qed.

Lemma List_index_contract_witness :
  List_inv Z setUp_list /\
  exists e, item Z setUp_list 1%Z = Some e /\
            __getitem__ 1%Z setUp_list = (Ok e, setUp_list).
Proof.
  split; [exact setUp_list_inv|].
  destruct (List_index_contract Z setUp_list 1%Z setUp_list_inv)
    as (_ & _ & _ & Hin).
  destruct Hin as (e & He & Hget & _).
  - unfold out_of_range. cbn. lia.
  - now exists e.
Defined.

Lemma List_invariant_witness :
  List_inv Z setUp_list /\
  exists l', remove Z.eqb 2%Z setUp_list = (Ok tt, l') /\ List_inv Z l'.
Proof.
  split; [exact setUp_list_inv|].
  exact (proj1 (proj2 (proj2
    (List_invariant Z Z.eqb s2.format_int setUp_list setUp_list_inv))) 2%Z).
Defined.

(** C3, on the code: in [TestListDunder.test_add] the expression
    [self.list + [2, 3, 4]] returns [None]; no [TypeError] is raised. *)
Theorem test_add_builtin_list_returns_None :
  binary_add (setUp_list, BuiltinList [2; 3; 4]%Z)
  = (Ok (VNone Z), (setUp_list, BuiltinList [2; 3; 4]%Z)).
Proof. reflexivity. Qed.

End CustomListProofs.

(** ** The custom [List] as a sequence

    The entries of [_elements], read in insertion order, are the elements of
    the list in index order; every method acts on that sequence as the
    corresponding operation of a Python [list]. *)
Module CustomListRefinement.
Import s_2_custom_list_part_2.
Import CustomListProofs.

Lemma range_snoc (lo hi : Z) :
  (lo <= hi)%Z -> range lo (hi + 1) = range lo hi ++ [hi].
Proof.
  intros H. unfold range.
  replace (Z.to_nat (hi + 1 - lo)) with (Z.to_nat (hi - lo) + 1)%nat by lia.
  rewrite seq_app, map_app. cbn. do 2 f_equal. lia.
Qed.

Lemma range_length (lo hi : Z) :
  List.length (range lo hi) = Z.to_nat (hi - lo).
Proof. unfold range. now rewrite length_map, length_seq. Qed.

Section DictOrder.
Local Open Scope Z_scope.
Variable V : Type.
Implicit Types (d pre post : Dict.t V) (k : Z) (v : V).

Lemma get_app_notin pre d k :
  ~ In k (Dict.keys pre) -> Dict.get (pre ++ d) k = Dict.get d k.
Proof.
  induction pre as [|[k0 v0] pre IH]; cbn; intros H; [reflexivity|].
  destruct (Z.eqb_spec k k0) as [->|_]; [tauto|]. apply IH. tauto.
Qed.

Lemma del_app_notin pre d k :
  ~ In k (Dict.keys pre) -> Dict.del (pre ++ d) k = pre ++ Dict.del d k.
Proof.
  induction pre as [|[k0 v0] pre IH]; cbn; intros H; [reflexivity|].
  destruct (Z.eqb_spec k k0) as [->|_]; [tauto|]. f_equal. apply IH. tauto.
Qed.

Lemma set_app_notin pre d k v :
  ~ In k (Dict.keys pre) -> Dict.set (pre ++ d) k v = pre ++ Dict.set d k v.
Proof.
  induction pre as [|[k0 v0] pre IH]; cbn; intros H; [reflexivity|].
  destruct (Z.eqb_spec k k0) as [->|_]; [tauto|]. f_equal. apply IH. tauto.
Qed.

(** Assigning to a new key appends an entry. *)
Lemma set_new d k v :
  ~ In k (Dict.keys d) -> Dict.set d k v = d ++ [(k, v)].
Proof.
  intros H. rewrite <- (app_nil_r d) at 1.
  now rewrite set_app_notin.
Qed.

(** A dictionary whose keys are [lo .. hi - 1] in order splits at any key
    [i] of that range. *)
Lemma split_at d : forall lo hi i,
  Dict.keys d = range lo hi -> lo <= i < hi ->
  exists pre e post,
    d = pre ++ (i, e) :: post /\
    Dict.keys pre = range lo i /\
    Dict.keys post = range (i + 1) hi.
Proof.
  unfold Dict.keys.
  induction d as [|[k0 e0] d IH]; intros lo hi i Hkeys Hi.
  - rewrite range_cons in Hkeys by lia. discriminate.
  - rewrite range_cons in Hkeys by lia. cbn [map fst] in Hkeys.
    injection Hkeys as -> Hkeys.
    destruct (Z.eq_dec i lo) as [->|Hne].
    + exists [], e0, d. split; [reflexivity|]. split; [|exact Hkeys].
      now rewrite range_nil by lia.
    + destruct (IH (lo + 1) hi i Hkeys ltac:(lia))
        as (pre & e & post & -> & Hpre & Hpost).
      exists ((lo, e0) :: pre), e, post.
      split; [reflexivity|]. split; [|exact Hpost].
      cbn [map fst]. rewrite Hpre. symmetry. apply range_cons. lia.
Qed.

End DictOrder.

Section Refinement.
Local Open Scope Z_scope.
Variable A : Type.
Variable A_eqb : A -> A -> bool.
Variable str : A -> string.
Implicit Types (l self : List A) (i k index : Z) (d pre mid post : Dict.t A).

(** The elements of the list, in the order [_elements] holds them. *)
Definition view l : list A := map snd (_elements l).

(** [_count] is not negative and the keys of [_elements], in insertion
    order, are [0 .. _count - 1]. *)
Definition ordered l : Prop :=
  0 <= _count l /\ Dict.keys (_elements l) = range 0 (_count l).

Lemma range_pred (lo hi : Z) :
  map (fun k => k - 1) (range (lo + 1) (hi + 1)) = range lo hi.
Proof.
  unfold range. rewrite map_map.
  replace (hi + 1 - (lo + 1)) with (hi - lo) by lia.
  apply map_ext. intros n. lia.
Qed.

Lemma range_app (b c : Z) : forall a,
  a <= b <= c -> range a b ++ range b c = range a c.
Proof.
  intros a H. remember (Z.to_nat (b - a)) as n eqn:Hn.
  revert a H Hn. induction n as [|n IH]; intros a H Hn.
  - replace a with b by lia. now rewrite (range_nil b b) by lia.
  - rewrite (range_cons a b), (range_cons a c) by lia. cbn [app].
    f_equal. apply IH; lia.
Qed.

(** The loop body of [shift_down]. *)
Definition shift_step (j : Z) : Method A unit :=
  bind (elements_pop (j + 1)) (fun v => elements_setitem j v).

(** Moving an entry one key down. *)
Definition relabel (mid : Dict.t A) : Dict.t A :=
  map (fun kv => (fst kv - 1, snd kv)) mid.

Lemma relabel_keys mid lo hi :
  Dict.keys mid = range (lo + 1) (hi + 1) -> Dict.keys (relabel mid) = range lo hi.
Proof.
  unfold Dict.keys, relabel. intros H. rewrite map_map. cbn [fst].
  rewrite <- (map_map fst (fun k => k - 1)), H. apply range_pred.
Qed.

Lemma relabel_values mid : map snd (relabel mid) = map snd mid.
Proof. unfold relabel. rewrite map_map. reflexivity. Qed.

(** The shifting loop on a dictionary in three blocks: the entries below
    [index], the entries still to move, and the entries already moved. *)
Lemma shift_loop_blocks mid : forall pre post j c index,
  Dict.keys pre = range 0 index ->
  Dict.keys mid = range (j + 1) (c + 1) ->
  Dict.keys post = range index j ->
  0 <= index <= j -> j <= c ->
  for_each (range j c) shift_step (mkList (pre ++ mid ++ post) c)
  = (Ok tt, mkList (pre ++ post ++ relabel mid) c).
Proof.
  induction mid as [|[k0 v] mid IH]; intros pre post j c index Hpre Hmid Hpost Hj Hc.
  - destruct (Z.eq_dec j c) as [->|Hne].
    + rewrite range_nil by lia. cbn. now rewrite app_nil_r.
    + rewrite range_cons in Hmid by lia. discriminate.
  - destruct (Z.eq_dec j c) as [->|Hne].
    { rewrite range_nil in Hmid by lia. discriminate. }
    rewrite range_cons in Hmid by lia. unfold Dict.keys in Hmid.
    cbn [map fst] in Hmid. injection Hmid as -> Hmid.
    rewrite (range_cons j c) by lia. cbn [for_each].
    assert (Hn1 : ~ In (j + 1) (Dict.keys pre)).
    { rewrite Hpre, in_range. lia. }
    assert (Hn2 : ~ In j (Dict.keys (pre ++ mid ++ post))).
    { unfold Dict.keys. rewrite !map_app. fold (Dict.keys pre).
      fold (Dict.keys post). rewrite Hpre, Hmid, Hpost, !in_app_iff, !in_range.
      lia. }
    assert (Hstep : shift_step j (mkList (pre ++ ((j + 1, v) :: mid) ++ post) c)
                    = (Ok tt, mkList (pre ++ mid ++ (post ++ [(j, v)])) c)).
    { unfold shift_step, bind, elements_pop, elements_setitem.
      cbn [_elements _count].
      rewrite get_app_notin by exact Hn1. cbn [app Dict.get].
      rewrite Z.eqb_refl. cbn [_elements _count].
      rewrite del_app_notin by exact Hn1. cbn [app Dict.del].
      rewrite Z.eqb_refl. rewrite set_new by exact Hn2.
      now rewrite <- !app_assoc. }
    unfold bind at 1. rewrite Hstep.
    rewrite (IH pre (post ++ [(j, v)]) (j + 1) c index); try assumption; try lia.
    + cbn [relabel map fst snd]. rewrite <- !app_assoc. cbn [app].
      now replace (j + 1 - 1) with j by lia.
    + unfold Dict.keys. rewrite map_app. fold (Dict.keys post).
      rewrite Hpost. cbn [map fst]. symmetry. apply range_snoc. lia.
Qed.

(** ** Each method on a dictionary split at the index it works on *)

Lemma guard_in_range i c : 0 <= i < c -> (i <? 0) || (i >=? c) = false.
Proof. intros H. apply orb_false_iff. lia. Qed.

Lemma keys_app pre post :
  Dict.keys (pre ++ post) = Dict.keys pre ++ Dict.keys post.
Proof. unfold Dict.keys. apply map_app. Qed.

Lemma not_in_keys_below pre i :
  Dict.keys pre = range 0 i -> ~ In i (Dict.keys pre).
Proof. intros H. rewrite H, in_range. lia. Qed.

Lemma pop_blocks pre e mid i c :
  Dict.keys pre = range 0 i -> Dict.keys mid = range (i + 1) c -> 0 <= i < c ->
  pop i (mkList (pre ++ (i, e) :: mid) c)
  = (Ok e, mkList (pre ++ relabel mid) (c + -1)).
Proof.
  intros Hpre Hmid Hi. pose proof (not_in_keys_below pre i Hpre) as Hn.
  unfold pop, bind at 1, get_self. cbn [_count].
  rewrite guard_in_range by exact Hi.
  unfold bind at 1, elements_pop. cbn [_elements _count].
  rewrite get_app_notin by exact Hn. cbn [Dict.get]. rewrite Z.eqb_refl.
  rewrite del_app_notin by exact Hn. cbn [Dict.del]. rewrite Z.eqb_refl.
  unfold bind at 1, count_add. cbn [_elements _count].
  unfold bind at 1, shift_down, bind at 1, get_self. cbn [_count].
  rewrite <- (app_nil_r mid) at 1.
  change (fun i0 : Z => bind (elements_pop (i0 + 1)) (fun v => elements_setitem i0 v))
    with shift_step.
  rewrite (shift_loop_blocks mid pre [] i (c + -1) i); try assumption; try lia.
  - reflexivity.
  - rewrite Hmid. f_equal. lia.
  - now rewrite range_nil by lia.
Qed.

Lemma remove_blocks pre e mid i c value :
  Dict.keys pre = range 0 i -> Dict.keys mid = range (i + 1) c -> 0 <= i < c ->
  find_item A_eqb (pre ++ (i, e) :: mid) value = Some i ->
  remove A_eqb value (mkList (pre ++ (i, e) :: mid) c)
  = (Ok tt, mkList (pre ++ relabel mid) (c + -1)).
Proof.
  intros Hpre Hmid Hi Hfind. pose proof (not_in_keys_below pre i Hpre) as Hn.
  unfold remove, bind at 1, get_self. unfold Dict.items. cbn [_elements].
  rewrite Hfind.
  unfold bind at 1, elements_del, bind at 1, elements_pop. cbn [_elements _count].
  rewrite get_app_notin by exact Hn. cbn [Dict.get]. rewrite Z.eqb_refl.
  rewrite del_app_notin by exact Hn. cbn [Dict.del]. rewrite Z.eqb_refl.
  unfold ret at 1.
  unfold bind at 1, count_add. cbn [_elements _count].
  unfold shift_down, bind at 1, get_self. cbn [_count].
  rewrite <- (app_nil_r mid) at 1.
  change (fun i0 : Z => bind (elements_pop (i0 + 1)) (fun v => elements_setitem i0 v))
    with shift_step.
  rewrite (shift_loop_blocks mid pre [] i (c + -1) i); try assumption; try lia.
  - reflexivity.
  - rewrite Hmid. f_equal. lia.
  - now rewrite range_nil by lia.
Qed.

Lemma ordered_blocks pre mid i c :
  Dict.keys pre = range 0 i -> Dict.keys mid = range (i + 1) c -> 0 <= i < c ->
  ordered (mkList (pre ++ relabel mid) (c + -1)).
Proof.
  intros Hpre Hmid Hi. unfold ordered. cbn [_elements _count]. split; [lia|].
  rewrite keys_app, Hpre, (relabel_keys mid i (c + -1)).
  - apply range_app. lia.
  - rewrite Hmid. f_equal. lia.
Qed.

(** No element of [xs] equals [value] under Python's [==]. *)
Definition none_equal (value : A) (xs : list A) : Prop :=
  Forall (fun x => A_eqb x value = false) xs.

Lemma find_item_none d value :
  find_item A_eqb d value = None <-> none_equal value (map snd d).
Proof.
  unfold none_equal. induction d as [|[k e] d IH]; cbn.
  - split; [constructor | reflexivity].
  - destruct (A_eqb e value) eqn:He.
    + split; [discriminate|]. intros H. inversion H; congruence.
    + rewrite IH. split; [now constructor | intros H; now inversion H].
Qed.

Lemma find_item_some d : forall lo hi value i,
  Dict.keys d = range lo hi ->
  find_item A_eqb d value = Some i ->
  exists pre e post,
    d = pre ++ (i, e) :: post /\
    Dict.keys pre = range lo i /\
    Dict.keys post = range (i + 1) hi /\
    lo <= i < hi /\
    none_equal value (map snd pre) /\
    A_eqb e value = true.
Proof.
  unfold Dict.keys, none_equal.
  induction d as [|[k0 e0] d IH]; intros lo hi value i Hkeys Hfind;
    [discriminate|].
  assert (Hlt : lo < hi).
  { destruct (Z_lt_le_dec lo hi) as [H|H]; [exact H|].
    rewrite range_nil in Hkeys by lia. discriminate. }
  rewrite range_cons in Hkeys by lia. cbn [map fst] in Hkeys.
  injection Hkeys as -> Hkeys. cbn [find_item] in Hfind.
  destruct (A_eqb e0 value) eqn:He.
  - injection Hfind as <-. exists [], e0, d.
    split; [reflexivity|]. split; [now rewrite range_nil by lia|].
    split; [exact Hkeys|]. split; [lia|]. split; [constructor | exact He].
  - destruct (IH (lo + 1) hi value i Hkeys Hfind)
      as (pre & e & post & -> & Hpre & Hpost & Hi & Hnone & Hmatch).
    exists ((lo, e0) :: pre), e, post.
    split; [reflexivity|]. split.
    { cbn [map fst]. rewrite Hpre. symmetry. apply range_cons. lia. }
    split; [exact Hpost|]. split; [lia|]. split; [|exact Hmatch].
    cbn [map snd]. now constructor.
Qed.

Lemma keys_length pre lo i :
  Dict.keys pre = range lo i -> List.length pre = Z.to_nat (i - lo).
Proof.
  intros H. rewrite <- (length_map fst pre). fold (Dict.keys pre).
  rewrite H. apply range_length.
Qed.

Lemma str_items_blocks rest : forall pre lo hi c,
  Dict.keys pre = range 0 lo -> Dict.keys rest = range lo hi -> 0 <= lo ->
  str_items str (range lo hi) (mkList (pre ++ rest) c)
  = (Ok (map str (map snd rest)), mkList (pre ++ rest) c).
Proof.
  induction rest as [|[k0 e] rest IH]; intros pre lo hi c Hpre Hrest Hlo.
  - destruct (Z_lt_le_dec lo hi) as [H|H].
    + rewrite range_cons in Hrest by lia. discriminate.
    + rewrite range_nil by lia. reflexivity.
  - destruct (Z_lt_le_dec lo hi) as [H|H].
    2:{ rewrite range_nil in Hrest by lia. discriminate. }
    rewrite range_cons in Hrest by lia. unfold Dict.keys in Hrest.
    cbn [map fst] in Hrest. injection Hrest as -> Hrest.
    rewrite range_cons by lia. cbn [str_items].
    unfold bind at 1, elements_getitem. cbn [_elements].
    rewrite get_app_notin by (now apply not_in_keys_below).
    cbn [Dict.get]. rewrite Z.eqb_refl.
    unfold bind at 1.
    replace (pre ++ (lo, e) :: rest) with ((pre ++ [(lo, e)]) ++ rest)
      by now rewrite <- app_assoc.
    rewrite (IH (pre ++ [(lo, e)]) (lo + 1) hi c); try assumption; try lia.
    + reflexivity.
    + rewrite keys_app, Hpre. cbn. symmetry. apply range_snoc. lia.
Qed.

(** ** The methods keep the keys in order *)

Lemma append_blocks d c element :
  Dict.keys d = range 0 c -> 0 <= c ->
  append element (mkList d c) = (Ok tt, mkList (d ++ [(c, element)]) (c + 1)).
Proof.
  intros Hd Hc. unfold append, bind, get_self, elements_setitem, count_add.
  cbn [_elements _count]. now rewrite set_new by (now apply not_in_keys_below).
Qed.

Lemma append_keeps_ordered l element :
  ordered l -> ordered (snd (append element l)).
Proof.
  destruct l as [d c]. unfold ordered. cbn [_elements _count]. intros [Hc Hd].
  rewrite append_blocks by assumption. cbn [snd _elements _count].
  split; [lia|]. rewrite keys_app, Hd. cbn. symmetry. now apply range_snoc.
Qed.

Lemma pop_keeps_ordered l index : ordered l -> ordered (snd (pop index l)).
Proof.
  intros Hord.
  destruct (Z_lt_le_dec index 0) as [Hneg|Hnn];
    [|destruct (Z_lt_le_dec index (_count l)) as [Hlt|Hge]].
  - rewrite pop_out_of_range by (unfold out_of_range; lia). exact Hord.
  - destruct l as [d c]. destruct Hord as [Hc Hd]. cbn [_elements _count] in *.
    destruct (split_at A d 0 c index Hd ltac:(lia)) as (pre & e & mid & -> & Hpre & Hmid).
    rewrite pop_blocks by (assumption || lia). cbn [snd].
    apply (ordered_blocks pre mid index c); assumption || lia.
  - rewrite pop_out_of_range by (unfold out_of_range; lia). exact Hord.
Qed.

Lemma remove_keeps_ordered l value :
  ordered l -> ordered (snd (remove A_eqb value l)).
Proof.
  intros Hord. destruct l as [d c]. destruct Hord as [Hc Hd].
  cbn [_elements _count] in *.
  destruct (find_item A_eqb d value) as [i|] eqn:Hfind.
  - destruct (find_item_some d 0 c value i Hd Hfind)
      as (pre & e & mid & -> & Hpre & Hmid & Hi & _).
    rewrite remove_blocks by assumption. cbn [snd].
    now apply (ordered_blocks pre mid i c).
  - unfold remove, bind, get_self, Dict.items. cbn [_elements]. rewrite Hfind.
    cbn. now split.
Qed.

Lemma setitem_blocks pre e post i c value :
  Dict.keys pre = range 0 i -> 0 <= i < c ->
  __setitem__ i value (mkList (pre ++ (i, e) :: post) c)
  = (Ok tt, mkList (pre ++ (i, value) :: post) c).
Proof.
  intros Hpre Hi. unfold __setitem__, bind, get_self. cbn [_count].
  rewrite guard_in_range by exact Hi. unfold elements_setitem.
  cbn [_elements _count].
  rewrite set_app_notin by (now apply not_in_keys_below).
  cbn [Dict.set]. now rewrite Z.eqb_refl.
Qed.

Lemma setitem_keeps_ordered l index value :
  ordered l -> ordered (snd (__setitem__ index value l)).
Proof.
  intros Hord.
  destruct (Z_lt_le_dec index 0) as [Hneg|Hnn];
    [|destruct (Z_lt_le_dec index (_count l)) as [Hlt|Hge]].
  - rewrite setitem_out_of_range by (unfold out_of_range; lia). exact Hord.
  - destruct l as [d c]. destruct Hord as [Hc Hd]. cbn [_elements _count] in *.
    destruct (split_at A d 0 c index Hd ltac:(lia)) as (pre & e & post & -> & Hpre & Hpost).
    rewrite setitem_blocks by (assumption || lia). cbn [snd].
    split; [exact Hc|]. cbn [_elements _count].
    rewrite keys_app in *. exact Hd.
  - rewrite setitem_out_of_range by (unfold out_of_range; lia). exact Hord.
Qed.

(** X1. In every list built through [List()], [append], [remove], [pop] and
    [__setitem__], the dictionary holds its keys in the order
    [0, 1, ..., _count - 1]: iterating over [items()] visits the elements
    by increasing index. *)
Theorem reachable_ordered l : reachable A A_eqb l -> ordered l.
Proof.
  induction 1 as [|l element _ IH|l value _ IH|l index _ IH|l index value _ IH].
  - unfold ordered, __init__. cbn. split; [lia | reflexivity].
  - now apply append_keeps_ordered.
  - now apply remove_keeps_ordered.
  - now apply pop_keeps_ordered.
  - now apply setitem_keeps_ordered.
Qed.

(** X2. [append] adds the element at the end of the sequence and raises
    nothing; popping the last index straight after gives the element back
    and restores the list exactly. *)
Theorem append_then_pop l element (Hord : ordered l) :
  exists l',
    append element l = (Ok tt, l') /\
    view l' = view l ++ [element] /\
    _count l' = _count l + 1 /\
    pop (_count l) l' = (Ok element, l).
Proof.
  destruct l as [d c]. destruct Hord as [Hc Hd]. cbn [_elements _count] in *.
  eexists. split; [now apply append_blocks|].
  unfold view. cbn [_elements _count]. split; [now rewrite map_app|].
  split; [reflexivity|].
  rewrite (pop_blocks d element [] c (c + 1)); try assumption; try lia.
  - cbn [relabel map]. rewrite app_nil_r. do 2 f_equal. lia.
  - now rewrite range_nil by lia.
Qed.

(** X3. [pop(index)] at an in-range index returns the element at that
    position of the sequence and removes exactly that element: the elements
    before and after it keep their order. *)
Theorem pop_sequence l index (Hord : ordered l) (Hin : 0 <= index < _count l) :
  exists before e after l',
    view l = before ++ e :: after /\
    List.length before = Z.to_nat index /\
    pop index l = (Ok e, l') /\
    view l' = before ++ after /\
    _count l' = _count l - 1 /\
    ordered l'.
Proof.
  destruct l as [d c]. destruct Hord as [Hc Hd]. cbn [_elements _count] in *.
  destruct (split_at A d 0 c index Hd Hin) as (pre & e & mid & -> & Hpre & Hmid).
  exists (map snd pre), e, (map snd mid). eexists.
  split; [unfold view; cbn [_elements]; now rewrite map_app|].
  split.
  { rewrite length_map, (keys_length pre 0 index Hpre). f_equal. lia. }
  split; [now apply pop_blocks|].
  unfold view. cbn [_elements _count].
  split; [now rewrite map_app, relabel_values|].
  split; [lia|]. now apply (ordered_blocks pre mid index c).
Qed.

(** X4. [remove(value)] deletes the first element equal to [value] and
    keeps the others in order; when no element equals [value] it leaves the
    list as it is, and it never raises (a built-in list raises
    [ValueError]). *)
Theorem remove_first_occurrence l value (Hord : ordered l) :
  (none_equal value (view l) /\ remove A_eqb value l = (Ok tt, l)) \/
  (exists before e after l',
     view l = before ++ e :: after /\
     none_equal value before /\
     A_eqb e value = true /\
     remove A_eqb value l = (Ok tt, l') /\
     view l' = before ++ after /\
     _count l' = _count l - 1 /\
     ordered l').
Proof.
  destruct l as [d c]. destruct Hord as [Hc Hd]. cbn [_elements _count] in *.
  destruct (find_item A_eqb d value) as [i|] eqn:Hfind.
  - right.
    destruct (find_item_some d 0 c value i Hd Hfind)
      as (pre & e & mid & -> & Hpre & Hmid & Hi & Hnone & Hmatch).
    exists (map snd pre), e, (map snd mid). eexists.
    split; [unfold view; cbn [_elements]; now rewrite map_app|].
    split; [exact Hnone|]. split; [exact Hmatch|].
    split; [now apply remove_blocks|].
    unfold view. cbn [_elements _count].
    split; [now rewrite map_app, relabel_values|].
    split; [lia|]. now apply (ordered_blocks pre mid i c).
  - left. split; [now apply find_item_none|].
    unfold remove, bind, get_self, Dict.items. cbn [_elements]. now rewrite Hfind.
Qed.

(** X5. [get_index(value)] returns the position of the first element equal
    to [value], or [-1] when there is none; it never raises and leaves the
    list unchanged. *)
Theorem get_index_first_occurrence l value (Hord : ordered l) :
  (none_equal value (view l) /\ get_index A_eqb value l = (Ok (-1), l)) \/
  (exists before e after,
     view l = before ++ e :: after /\
     none_equal value before /\
     A_eqb e value = true /\
     get_index A_eqb value l = (Ok (Z.of_nat (List.length before)), l)).
Proof.
  destruct l as [d c]. destruct Hord as [Hc Hd]. cbn [_elements _count] in *.
  unfold get_index, bind, get_self, Dict.items. cbn [_elements].
  destruct (find_item A_eqb d value) as [i|] eqn:Hfind.
  - right.
    destruct (find_item_some d 0 c value i Hd Hfind)
      as (pre & e & mid & Heq & Hpre & Hmid & Hi & Hnone & Hmatch).
    exists (map snd pre), e, (map snd mid).
    split; [unfold view; cbn [_elements]; now rewrite Heq, map_app|].
    split; [exact Hnone|]. split; [exact Hmatch|].
    rewrite length_map, (keys_length pre 0 i Hpre). unfold ret.
    do 2 f_equal. lia.
  - left. split; [now apply find_item_none | reflexivity].
Qed.

(** X6. [len(l)] is the length of the sequence and [str(l)] is the [str]
    of its elements, joined by [", "] between square brackets; neither
    raises nor changes the list. *)
Theorem len_and_str_of_sequence l (Hord : ordered l) :
  __len__ l = (Ok (Z.of_nat (List.length (view l))), l) /\
  __str__ str l = (Ok ("[" ++ join ", " (map str (view l)) ++ "]")%string, l).
Proof.
  destruct l as [d c]. destruct Hord as [Hc Hd]. cbn [_elements _count] in *.
  split.
  - unfold __len__, bind, get_self, ret, view. cbn [_elements _count].
    rewrite length_map, (keys_length d 0 c Hd). do 2 f_equal. lia.
  - unfold __str__, bind at 1, get_self. cbn [_count]. unfold bind at 1.
    pose proof (str_items_blocks d [] 0 c c eq_refl Hd (Z.le_refl 0)) as H.
    cbn [app] in H. rewrite H. reflexivity.
Qed.

(** X7. At an in-range index [__getitem__] returns the element at that
    position of the sequence, and [__setitem__] replaces that element and
    no other. *)
Theorem index_access_sequence l index
    (Hord : ordered l) (Hin : 0 <= index < _count l) :
  exists before e after,
    view l = before ++ e :: after /\
    List.length before = Z.to_nat index /\
    __getitem__ index l = (Ok e, l) /\
    forall value, exists l',
      __setitem__ index value l = (Ok tt, l') /\
      view l' = before ++ value :: after /\
      __getitem__ index l' = (Ok value, l') /\
      ordered l'.
Proof.
  destruct l as [d c]. destruct Hord as [Hc Hd]. cbn [_elements _count] in *.
  destruct (split_at A d 0 c index Hd Hin) as (pre & e & post & -> & Hpre & Hpost).
  pose proof (not_in_keys_below pre index Hpre) as Hn.
  assert (Hget : forall x,
    __getitem__ index (mkList (pre ++ (index, x) :: post) c)
    = (Ok x, mkList (pre ++ (index, x) :: post) c)).
  { intros x. unfold __getitem__, bind, get_self. cbn [_count].
    rewrite guard_in_range by exact Hin. unfold elements_getitem.
    cbn [_elements]. rewrite get_app_notin by exact Hn.
    cbn [Dict.get]. now rewrite Z.eqb_refl. }
  exists (map snd pre), e, (map snd post).
  split; [unfold view; cbn [_elements]; now rewrite map_app|].
  split.
  { rewrite length_map, (keys_length pre 0 index Hpre). f_equal. lia. }
  split; [apply Hget|].
  intros value. eexists. split; [now apply setitem_blocks|].
  split; [unfold view; cbn [_elements]; now rewrite map_app|].
  split; [apply Hget|].
  split; [exact Hc|]. cbn [_elements _count]. rewrite keys_app in *. exact Hd.
Qed.

End Refinement.

Arguments view {A} l.
Arguments ordered {A} l.

Lemma setUp_list_ordered : ordered setUp_list.
Proof. split; [cbn; lia | reflexivity]. Defined.

Lemma setUp_list_reachable : reachable Z Z.eqb setUp_list.
Proof. unfold setUp_list. repeat constructor. Defined.

Lemma reachable_ordered_witness :
  reachable Z Z.eqb setUp_list /\ ordered setUp_list.
Proof.
  split; [exact setUp_list_reachable|].
  exact (reachable_ordered Z Z.eqb setUp_list setUp_list_reachable).
Defined.

Lemma append_then_pop_witness :
  ordered setUp_list /\
  exists l', append 4%Z setUp_list = (Ok tt, l') /\
             pop 3%Z l' = (Ok 4%Z, setUp_list).
Proof.
  split; [exact setUp_list_ordered|].
  destruct (append_then_pop Z setUp_list 4%Z setUp_list_ordered)
    as (l' & Happ & _ & _ & Hpop).
  exists l'. split; assumption.
Defined.

Lemma pop_sequence_witness :
  ordered setUp_list /\
  exists before e after l',
    view setUp_list = before ++ e :: after /\
    pop 1%Z setUp_list = (Ok e, l') /\ view l' = before ++ after.
Proof.
  split; [exact setUp_list_ordered|].
  destruct (pop_sequence Z setUp_list 1%Z setUp_list_ordered)
    as (before & e & after & l' & Hview & _ & Hpop & Hview' & _).
  - cbn. lia.
  - exists before, e, after, l'. repeat split; assumption.
Defined.

Lemma remove_first_occurrence_witness :
  ordered setUp_list /\
  exists l', remove Z.eqb 2%Z setUp_list = (Ok tt, l').
Proof.
  split; [exact setUp_list_ordered|].
  destruct (remove_first_occurrence Z Z.eqb setUp_list 2%Z setUp_list_ordered)
    as [[_ H]|(before & e & after & l' & _ & _ & _ & H & _)];
    eexists; exact H.
Defined.

Lemma get_index_first_occurrence_witness :
  ordered setUp_list /\
  exists i, get_index Z.eqb 3%Z setUp_list = (Ok i, setUp_list).
Proof.
  split; [exact setUp_list_ordered|].
  destruct (get_index_first_occurrence Z Z.eqb setUp_list 3%Z setUp_list_ordered)
    as [[_ H]|(before & e & after & _ & _ & _ & H)];
    eexists; exact H.
Defined.

Lemma len_and_str_of_sequence_witness :
  ordered setUp_list /\
  __len__ setUp_list = (Ok (Z.of_nat (List.length (view setUp_list))), setUp_list).
Proof.
  split; [exact setUp_list_ordered|].
  exact (proj1 (len_and_str_of_sequence Z s2.format_int setUp_list
                  setUp_list_ordered)).
Defined.

Lemma index_access_sequence_witness :
  ordered setUp_list /\
  exists e, __getitem__ 2%Z setUp_list = (Ok e, setUp_list).
Proof.
  split; [exact setUp_list_ordered|].
  destruct (index_access_sequence Z setUp_list 2%Z setUp_list_ordered)
    as (before & e & after & _ & _ & Hget & _).
  - cbn. lia.
  - now exists e.
Defined.

End CustomListRefinement.

(** ** [BankAccount]: the balance never goes negative *)
Module BankAccountProofs.
Import s2.
Local Open Scope Z_scope.

Lemma get_balance_spec self : get_balance self = (Ok (_balance self), self).
Proof. reflexivity. Qed.

Lemma deposit_accepted self amount :
  amount > 0 ->
  deposit amount self
  = (Ok true,
     mkBankAccount (owner self) (_balance self + amount)
       (__transaction_history self ++ ["Deposit of " ++ format_int amount]%string)).
Proof.
  intros H. unfold deposit.
  destruct (Z.gtb_spec amount 0) as [_|Hle]; [reflexivity | lia].
Qed.

Lemma deposit_refused self amount :
  ~ amount > 0 -> deposit amount self = (Ok false, self).
Proof.
  intros H. unfold deposit.
  destruct (Z.gtb_spec amount 0) as [Hgt|_]; [lia | reflexivity].
Qed.

Lemma withdraw_accepted self amount :
  0 < amount <= _balance self ->
  withdraw amount self
  = (Ok true,
     mkBankAccount (owner self) (_balance self + - amount)
       (__transaction_history self ++ ["Withdrawal of " ++ format_int amount]%string)).
Proof.
  intros H. unfold withdraw, bind at 1, get_self.
  replace ((0 <? amount) && (amount <=? _balance self)) with true; [reflexivity|].
  symmetry. apply andb_true_iff. lia.
Qed.

Lemma withdraw_refused self amount :
  ~ 0 < amount <= _balance self -> withdraw amount self = (Ok false, self).
Proof.
  intros H. unfold withdraw, bind at 1, get_self.
  replace ((0 <? amount) && (amount <=? _balance self)) with false; [reflexivity|].
  symmetry. apply andb_false_iff. lia.
Qed.

Lemma step_nonneg self c : 0 <= _balance self -> 0 <= _balance (step self c).
Proof.
  intros H. destruct c as [amount|amount]; cbn [step].
  - destruct (Z_gt_le_dec amount 0) as [Hgt|Hle].
    + rewrite deposit_accepted by assumption. cbn. lia.
    + rewrite deposit_refused by lia. exact H.
  - destruct (Z_lt_le_dec 0 amount) as [Hpos|Hneg];
      [destruct (Z_le_gt_dec amount (_balance self)) as [Hle|Hgt]|].
    + rewrite withdraw_accepted by lia. cbn. lia.
    + rewrite withdraw_refused by lia. exact H.
    + rewrite withdraw_refused by lia. exact H.
Qed.

Lemma run_nonneg calls : forall self,
  0 <= _balance self -> 0 <= _balance (run calls self).
Proof.
  induction calls as [|c calls IH]; intros self H; cbn [run fold_left].
  - exact H.
  - apply IH. now apply step_nonneg.
Qed.

(** C10. An account created with [initial_balance >= 0] has a balance
    [>= 0] after any sequence of [deposit] and [withdraw] calls, as
    [get_balance] returns it; [deposit(amount)] returns [True] exactly when
    [amount > 0] and then adds [amount] to the balance; [withdraw(amount)]
    returns [True] exactly when [0 < amount <= balance] and then takes
    [amount] off the balance; in every other case the method returns
    [False] and leaves the account as it was. *)
Theorem BankAccount_balance_contract
    (name : string) (initial_balance : Z) (Hinit : initial_balance >= 0) :
  (forall calls,
     exists balance,
       fst (get_balance (run calls (__init__ name initial_balance)))
       = Ok balance /\ balance >= 0) /\
  (forall self amount,
     (fst (deposit amount self) = Ok true <-> amount > 0) /\
     (amount > 0 ->
      _balance (snd (deposit amount self)) = _balance self + amount) /\
     (~ amount > 0 -> deposit amount self = (Ok false, self))) /\
  (forall self amount,
     (fst (withdraw amount self) = Ok true <-> 0 < amount <= _balance self) /\
     (0 < amount <= _balance self ->
      _balance (snd (withdraw amount self)) = _balance self - amount) /\
     (~ 0 < amount <= _balance self ->
      withdraw amount self = (Ok false, self))).
Proof.
  split; [|split].
  - intros calls. eexists. rewrite get_balance_spec. split; [reflexivity|].
    apply Z.le_ge, run_nonneg. cbn. lia.
  - intros self amount. split; [|split].
    + destruct (Z_gt_le_dec amount 0) as [Hgt|Hle].
      * rewrite deposit_accepted by assumption. cbn. tauto.
      * rewrite deposit_refused by lia. cbn. split; [discriminate | lia].
    + intros Hgt. now rewrite deposit_accepted.
    + apply deposit_refused.
  - intros self amount. split; [|split].
    + destruct (Z_lt_le_dec 0 amount) as [Hpos|Hneg];
        [destruct (Z_le_gt_dec amount (_balance self)) as [Hle|Hgt]|].
      * rewrite withdraw_accepted by lia. cbn. tauto.
      * rewrite withdraw_refused by lia. cbn. split; [discriminate | lia].
      * rewrite withdraw_refused by lia. cbn. split; [discriminate | lia].
    + intros Hok. rewrite withdraw_accepted by assumption. cbn. lia.
    + apply withdraw_refused.
Qed.

Example usage_deposit :
  deposit 500 (__init__ "Someone" 1000)
  = (Ok true, mkBankAccount "Someone" 1500 ["Deposit of 500"%string]).
Proof. reflexivity. Qed.

Example overdraft_refused :
  withdraw 2000 (__init__ "Someone" 1000)
  = (Ok false, __init__ "Someone" 1000).
Proof. reflexivity. Qed.

(** The usage block of the script: an account opened with 1000, then a
    run of calls on it. *)
Lemma BankAccount_balance_contract_witness :
  1000 >= 0 /\
  exists balance,
    fst (get_balance
           (run [Deposit 500; Withdraw 2000; Withdraw 300; Deposit (-5)]
              (__init__ "Someone" 1000)))
    = Ok balance /\ balance >= 0.
Proof.
  split; [lia|].
  exact (proj1 (BankAccount_balance_contract "Someone" 1000 ltac:(lia))
           [Deposit 500; Withdraw 2000; Withdraw 300; Deposit (-5)]).
Defined.

End BankAccountProofs.

(** ** [FinancialAsset.update_last_quote] *)
Module FinancialAssetProofs.
Import s3_extended.
Local Open Scope R_scope.
Section Proofs.
Variable datetime : Type.
Variable repr_datetime : datetime -> string.
Variable repr_float : R -> string.

(** C5. [update_last_quote(new_quote)] never lets the exception out: with
    [new_quote.price < 0] the check raises [NegativePriceException], the
    handler prints two lines, the call returns, and [last_quote] and
    [history] are as before; with [new_quote.price >= 0] the previous
    [last_quote] is appended to [history], [last_quote] becomes
    [new_quote], and nothing is printed. *)
Theorem update_last_quote_contract
    (w : world datetime) (new_quote : Quote datetime) :
  (price new_quote < 0 ->
   __check_quote_for_asset new_quote w
   = (Raise (NegativePriceException new_quote), w) /\
   update_last_quote repr_datetime repr_float new_quote w
   = (Ok tt,
      mkWorld (self_ w)
        (stdout w ++
         [NegativePriceException__str__ repr_datetime repr_float
            (NegativePriceException new_quote)] ++
         ["Quote has not been updated"%string]))) /\
  (price new_quote >= 0 ->
   update_last_quote repr_datetime repr_float new_quote w
   = (Ok tt,
      mkWorld
        (mkFinancialAsset (ticker (self_ w)) new_quote (currency (self_ w))
           (history (self_ w) ++ [last_quote (self_ w)]))
        (stdout w))).
Proof.
  unfold update_last_quote, try_except, __check_quote_for_asset, bind.
  split; intros Hprice.
  - destruct (Rlt_dec (price new_quote) 0) as [_|Hge]; [|lra].
    split; [reflexivity|]. unfold raise, print. cbv beta iota.
    cbn [self_ stdout]. now rewrite <- app_assoc.
  - destruct (Rlt_dec (price new_quote) 0) as [Hlt|_]; [lra|].
    reflexivity.
Qed.

End Proofs.

(** The run at the end of the script: a quote at 175.0, then an update
    with a quote at -200. *)
Definition equity_last_quote : Quote Z := mkQuote 0%Z 175.

Definition equity_last_quote2 : Quote Z := mkQuote 1%Z (-200).

Definition equity : world Z :=
  mkWorld (__init__ "AAPL" equity_last_quote "USD") [].

Lemma update_last_quote_contract_witness :
  price equity_last_quote2 < 0 /\
  self_ (snd (update_last_quote s2.format_int (fun _ => "-200"%string)
                equity_last_quote2 equity))
  = self_ equity.
Proof.
  assert (H : price equity_last_quote2 < 0) by (cbn; lra).
  split; [exact H|].
  rewrite (proj2 (proj1 (update_last_quote_contract
                           Z s2.format_int (fun _ => "-200"%string)
                           equity equity_last_quote2) H)).
  reflexivity.
Defined.

End FinancialAssetProofs.

(** ** Integrals of continuous functions

    The Riemann integral of the Standard Library, packaged for functions
    that are continuous on the whole line. *)
Module Integral.
Local Open Scope R_scope.

Lemma Rabs_le_between (a b : R) : Rabs a <= b -> - b <= a <= b.
Proof. unfold Rabs. destruct (Rcase_abs a); lra. Qed.

Lemma derivable_pt_lim_ext (f g : R -> R) (x l : R) :
  (forall y, f y = g y) -> derivable_pt_lim f x l -> derivable_pt_lim g x l.
Proof.
  intros Hfg Hf eps Heps. destruct (Hf eps Heps) as [delta Hdelta].
  exists delta. intros h Hh0 Hh. rewrite <- !Hfg. now apply Hdelta.
Qed.

(** A function that agrees with [f] up to a constant near [x] has the
    derivative of [f] at [x]. *)
Lemma derivable_pt_lim_local (f g : R -> R) (x l c d : R) :
  0 < d ->
  (forall y, Rabs (y - x) < d -> g y = f y + c) ->
  derivable_pt_lim f x l -> derivable_pt_lim g x l.
Proof.
  intros Hd Hloc Hf eps Heps.
  destruct (Hf eps Heps) as [delta Hdelta].
  assert (Hmin : 0 < Rmin delta d).
  { apply Rmin_pos; [apply cond_pos | exact Hd]. }
  exists (mkposreal _ Hmin). cbn [pos]. intros h Hh0 Hh.
  rewrite (Hloc (x + h)), (Hloc x).
  - replace (f (x + h) + c - (f x + c)) with (f (x + h) - f x) by ring.
    apply Hdelta; [exact Hh0|].
    apply Rlt_le_trans with (1 := Hh), Rmin_l.
  - rewrite Rminus_diag, Rabs_R0. exact Hd.
  - replace (x + h - x) with h by ring.
    apply Rlt_le_trans with (1 := Hh), Rmin_r.
Qed.

Section Continuous.
Variable f : R -> R.
Hypothesis Cf : continuity f.

Lemma integrable (a b : R) : Riemann_integrable f a b.
Proof.
  destruct (Rle_dec a b) as [Hab|Hba].
  - apply continuity_implies_RiemannInt; [exact Hab|]. intros x _. apply Cf.
  - apply RiemannInt_P1, continuity_implies_RiemannInt; [lra|].
    intros x _. apply Cf.
Qed.

(** The integral of [f] from [a] to [b], for any order of the bounds. *)
Definition Int (a b : R) : R := RiemannInt (integrable a b).

Lemma Int_eq (a b : R) (pr : Riemann_integrable f a b) : RiemannInt pr = Int a b.
Proof. apply RiemannInt_P5. Qed.

Lemma Int_chasles (a b c : R) : Int a b + Int b c = Int a c.
Proof. apply RiemannInt_P26. Qed.

Lemma Int_refl (a : R) : Int a a = 0.
Proof. apply RiemannInt_P9. Qed.

Lemma Int_swap (a b : R) : Int a b = - Int b a.
Proof. apply RiemannInt_P8. Qed.

(** The first fundamental theorem: [x |-> Int a x] has derivative [f x]. *)
Lemma Int_derivable_pt_lim (a x : R) : derivable_pt_lim (Int a) x (f x).
Proof.
  set (lo := Rmin a x - 1). set (hi := Rmax a x + 1).
  assert (Hlo_a : lo < a) by (unfold lo; pose proof (Rmin_l a x); lra).
  assert (Hlo_x : lo < x) by (unfold lo; pose proof (Rmin_r a x); lra).
  assert (Hhi_a : a < hi) by (unfold hi; pose proof (Rmax_l a x); lra).
  assert (Hhi_x : x < hi) by (unfold hi; pose proof (Rmax_r a x); lra).
  assert (Hle : lo <= hi) by lra.
  assert (C0 : forall y, lo <= y <= hi -> continuity_pt f y).
  { intros y _. apply Cf. }
  pose proof (RiemannInt_P27 Hle C0 (conj Hlo_x Hhi_x)) as HP.
  assert (Hd : 0 < Rmin (x - lo) (hi - x)) by (apply Rmin_pos; lra).
  apply (derivable_pt_lim_local (primitive Hle (FTC_P1 Hle C0)) (Int a)
           x (f x) (- Int lo a) _ Hd); [|exact HP].
  intros y Hy.
  assert (Hy' : lo <= y <= hi).
  { pose proof (Rmin_l (x - lo) (hi - x)). pose proof (Rmin_r (x - lo) (hi - x)).
    apply Rabs_def2 in Hy. lra. }
  unfold primitive.
  destruct (Rle_dec lo y) as [H1|H1]; [|lra].
  destruct (Rle_dec y hi) as [H2|H2]; [|lra].
  rewrite Int_eq, <- (Int_chasles lo a y). ring.
Qed.

(** The second fundamental theorem, for any antiderivative [F] of [f]. *)
Lemma Int_antiderivative (F : R -> R) (a b : R) :
  (forall x, derivable_pt_lim F x (f x)) -> Int a b = F b - F a.
Proof.
  intros HF.
  set (D := fun x => Int a x - F x).
  assert (HD : forall x, derivable_pt_lim D x 0).
  { intros x. replace 0 with (f x - f x) by ring.
    apply (derivable_pt_lim_minus (Int a) F); [apply Int_derivable_pt_lim | apply HF]. }
  assert (Hconst : constant D).
  { apply (null_derivative_1 D (fun x => exist _ 0 (HD x))).
    intros x. reflexivity. }
  pose proof (Hconst b a) as Hba. unfold D in Hba.
  rewrite Int_refl in Hba. lra.
Qed.

Lemma Int_nonneg (a b : R) :
  a <= b -> (forall x, a < x < b -> 0 <= f x) -> 0 <= Int a b.
Proof.
  intros Hab Hpos.
  pose proof (RiemannInt_P19 (RiemannInt_P14 a b 0) (integrable a b) Hab) as H19.
  rewrite RiemannInt_P15 in H19. unfold Int.
  rewrite Rmult_0_l in H19. apply H19. intros x Hx. unfold fct_cte. now apply Hpos.
Qed.

Lemma Int_abs_bound (a b M : R) :
  a <= b -> (forall x, a < x < b -> Rabs (f x) <= M) ->
  Rabs (Int a b) <= M * (b - a).
Proof.
  intros Hab HM.
  destruct (RiemannInt_const_bound (l := - M) (u := M) (integrable a b) Hab)
    as [H1 H2].
  { intros x Hx. apply Rabs_le_between, HM, Hx. }
  apply Rabs_le. fold (Int a b) in H1, H2. lra.
Qed.

End Continuous.

Lemma Int_ext (f g : R -> R) (Cf : continuity f) (Cg : continuity g) (a b : R) :
  (forall x, f x = g x) -> Int f Cf a b = Int g Cg a b.
Proof.
  intros Hfg. destruct (Rle_dec a b) as [Hab|Hba].
  - apply RiemannInt_P18; [exact Hab|]. intros x _. apply Hfg.
  - rewrite (Int_swap f), (Int_swap g). f_equal.
    apply RiemannInt_P18; [lra|]. intros x _. apply Hfg.
Qed.

Lemma Int_plus_scal (f g : R -> R) (l : R)
    (Cf : continuity f) (Cg : continuity g)
    (Cfg : continuity (fun x => f x + l * g x)) (a b : R) :
  Int (fun x => f x + l * g x) Cfg a b = Int f Cf a b + l * Int g Cg a b.
Proof. apply RiemannInt_P13. Qed.

Lemma Int_scal (g : R -> R) (l : R)
    (Cg : continuity g) (Clg : continuity (fun x => l * g x)) (a b : R) :
  Int (fun x => l * g x) Clg a b = l * Int g Cg a b.
Proof.
  set (f0 := fun _ : R => 0).
  assert (C0 : continuity f0) by (apply continuity_const; intros x y; reflexivity).
  assert (Csum : continuity (fun x => f0 x + l * g x)).
  { intros x. apply (continuity_pt_plus f0 (mult_real_fct l g)).
    - apply C0.
    - apply continuity_pt_scal, Cg. }
  rewrite (Int_ext (fun x => l * g x) (fun x => f0 x + l * g x) Clg Csum)
    by (intros x; unfold f0; ring).
  rewrite (Int_plus_scal f0 g l C0 Cg Csum).
  rewrite (Int_antiderivative f0 C0 (fct_cte 0) a b).
  - unfold fct_cte. ring.
  - intros x. apply derivable_pt_lim_const.
Qed.

End Integral.

(** ** Differentiation under the integral sign *)
Module ParametricIntegral.
Import Integral.
Local Open Scope R_scope.

(** A bounded derivative gives a Lipschitz bound. *)
Lemma lipschitz (f f' : R -> R) (M : R) :
  (forall y, derivable_pt_lim f y (f' y)) ->
  (forall y, Rabs (f' y) <= M) ->
  forall a b, Rabs (f b - f a) <= M * Rabs (b - a).
Proof.
  intros Hd HM.
  assert (Hlt : forall a b, a < b -> Rabs (f b - f a) <= M * Rabs (b - a)).
  { intros a b Hab.
    destruct (MVT_cor2 f f' a b Hab) as (c & Hc & _).
    { intros y _. apply Hd. }
    rewrite Hc, Rabs_mult. apply Rmult_le_compat_r; [apply Rabs_pos | apply HM]. }
  intros a b. destruct (Rtotal_order a b) as [Hab|[Hab|Hab]].
  - now apply Hlt.
  - subst b. rewrite !Rminus_diag, Rabs_R0. lra.
  - rewrite (Rabs_minus_sym (f b)), (Rabs_minus_sym b). now apply Hlt.
Qed.

(** The first-order Taylor remainder under a bound on the second
    derivative. *)
Lemma taylor_remainder (f f' f'' : R -> R) (M : R) :
  (forall y, derivable_pt_lim f y (f' y)) ->
  (forall y, derivable_pt_lim f' y (f'' y)) ->
  (forall y, Rabs (f'' y) <= M) ->
  forall x h, Rabs (f (x + h) - f x - h * f' x) <= M * (h * h).
Proof.
  intros Hd Hdd HM x h.
  pose proof (lipschitz f' f'' M Hdd HM) as Hlip.
  assert (HM0 : 0 <= M).
  { apply Rle_trans with (2 := HM 0). apply Rabs_pos. }
  set (g := fun y => f y - f' x * y).
  assert (Hg : forall y, derivable_pt_lim g y (f' y - f' x)).
  { intros y. unfold g.
    apply (derivable_pt_lim_minus f (fun y => f' x * y)); [apply Hd|].
    replace (f' x) with (f' x * 1) at 1 by ring.
    apply (derivable_pt_lim_scal id (f' x) y 1), derivable_pt_lim_id. }
  assert (Hrem : f (x + h) - f x - h * f' x = g (x + h) - g x).
  { unfold g. ring. }
  rewrite Hrem.
  destruct (Rtotal_order h 0) as [Hh|[Hh|Hh]].
  - destruct (MVT_cor2 g (fun y => f' y - f' x) (x + h) x ltac:(lra)) as (c & Hc & Hcx).
    { intros y _. apply Hg. }
    rewrite Rabs_minus_sym, Hc, Rabs_mult.
    pose proof (Hlip x c) as Hl.
    rewrite (Rabs_left1 (c - x)) in Hl by lra.
    rewrite (Rabs_right (x - (x + h))) by lra.
    assert (Hl' : Rabs (f' c - f' x) <= M * - h).
    { apply Rle_trans with (1 := Hl). apply Rmult_le_compat_l; lra. }
    replace (M * (h * h)) with (M * - h * (x - (x + h))) by ring.
    apply Rmult_le_compat_r; lra.
  - subst h. replace (x + 0) with x by ring. rewrite Rminus_diag, Rabs_R0. nra.
  - destruct (MVT_cor2 g (fun y => f' y - f' x) x (x + h) ltac:(lra)) as (c & Hc & Hcx).
    { intros y _. apply Hg. }
    rewrite Hc, Rabs_mult.
    pose proof (Hlip x c) as Hl.
    rewrite (Rabs_right (c - x)) in Hl by lra.
    rewrite (Rabs_right (x + h - x)) by lra.
    assert (Hl' : Rabs (f' c - f' x) <= M * h).
    { apply Rle_trans with (1 := Hl). apply Rmult_le_compat_l; lra. }
    replace (M * (h * h)) with (M * h * (x + h - x)) by ring.
    apply Rmult_le_compat_r; lra.
Qed.

Section UnderIntegral.
Variables k dk : R -> R -> R.
Hypothesis Ck : forall x, continuity (k x).
Hypothesis Cdk : forall x, continuity (dk x).
Variable M : R.
Hypothesis remainder :
  forall x h t, Rabs (k (x + h) t - k x t - h * dk x t) <= M * (h * h).

(** If [dk x t] is the derivative of [k x t] in [x], with a first-order
    remainder bounded uniformly in [t], then the integral of [k x] over
    [[0, 1]] has the integral of [dk x] as its derivative in [x]. *)
Lemma derivable_pt_lim_Int (x : R) :
  derivable_pt_lim (fun x => Int (k x) (Ck x) 0 1) x (Int (dk x) (Cdk x) 0 1).
Proof.
  intros eps Heps.
  assert (HM0 : 0 <= M).
  { pose proof (remainder 0 1 0) as H. pose proof (Rabs_pos (k (0 + 1) 0 - k 0 0 - 1 * dk 0 0)). lra. }
  assert (Hdelta : 0 < eps / (M + 1)).
  { apply Rdiv_lt_0_compat; lra. }
  exists (mkposreal _ Hdelta). cbn [pos]. intros h Hh0 Hh.
  set (f1 := fun t => k (x + h) t + (-1) * k x t).
  set (rem := fun t => f1 t + (- h) * dk x t).
  assert (Cf1 : continuity f1).
  { intros t. apply (continuity_pt_plus (k (x + h)) (mult_real_fct (-1) (k x))).
    - apply Ck.
    - apply continuity_pt_scal, Ck. }
  assert (Crem : continuity rem).
  { intros t. apply (continuity_pt_plus f1 (mult_real_fct (- h) (dk x))).
    - apply Cf1.
    - apply continuity_pt_scal, Cdk. }
  assert (Hint : Int rem Crem 0 1
                 = Int (k (x + h)) (Ck (x + h)) 0 1 - Int (k x) (Ck x) 0 1
                   - h * Int (dk x) (Cdk x) 0 1).
  { unfold rem. rewrite (Int_plus_scal f1 (dk x) (- h) Cf1 (Cdk x)).
    unfold f1. rewrite (Int_plus_scal (k (x + h)) (k x) (-1) (Ck (x + h)) (Ck x)).
    ring. }
  assert (Hbound : Rabs (Int rem Crem 0 1) <= M * (h * h) * (1 - 0)).
  { apply Int_abs_bound; [lra|]. intros t _. unfold rem, f1.
    replace (k (x + h) t + -1 * k x t + - h * dk x t)
      with (k (x + h) t - k x t - h * dk x t) by ring.
    apply remainder. }
  replace ((Int (k (x + h)) (Ck (x + h)) 0 1 - Int (k x) (Ck x) 0 1) / h
           - Int (dk x) (Cdk x) 0 1)
    with (Int rem Crem 0 1 / h) by (rewrite Hint; field; exact Hh0).
  unfold Rdiv at 1. rewrite Rabs_mult, Rabs_inv.
  assert (Hah : 0 < Rabs h) by now apply Rabs_pos_lt.
  apply Rmult_lt_reg_r with (Rabs h); [exact Hah|].
  rewrite Rmult_assoc, Rinv_l, Rmult_1_r by lra.
  apply Rle_lt_trans with (1 := Hbound).
  replace (h * h) with (Rabs h * Rabs h)
    by (rewrite <- Rabs_mult; apply Rabs_right; nra).
  assert (Heq : eps = eps / (M + 1) * (M + 1)) by (field; lra).
  assert (Hm : M * Rabs h < eps).
  { rewrite Heq. pose proof (Rabs_pos h). 
    apply Rle_lt_trans with (Rabs h * (M + 1)); [nra|].
    apply Rmult_lt_compat_r; lra. }
  nra.
Qed.

End UnderIntegral.
End ParametricIntegral.

(** ** The Gaussian integral *)
Module Gaussian.
Import norm Integral ParametricIntegral.
Local Open Scope R_scope.

(** The integral of [gauss] from [0] to [x]. *)
Definition J (x : R) : R := Int gauss gauss_continuity 0 x.

Lemma J_0 : J 0 = 0.
Proof. apply Int_refl. Qed.

Lemma J_derivable_pt_lim (x : R) : derivable_pt_lim J x (gauss x).
Proof. apply Int_derivable_pt_lim. Qed.

Lemma gauss_even (x : R) : gauss (- x) = gauss x.
Proof. unfold gauss. now replace (- x * - x) with (x * x) by ring. Qed.

Lemma gauss_pos (x : R) : 0 < gauss x.
Proof. apply exp_pos. Qed.

(** A function whose derivative vanishes everywhere is constant. *)
Lemma zero_derivative_constant (f : R -> R) :
  (forall x, derivable_pt_lim f x 0) -> forall x y, f x = f y.
Proof.
  intros Hf. apply (null_derivative_1 f (fun x => exist _ 0 (Hf x))).
  intros x. reflexivity.
Qed.

(** [J] is odd, as [gauss] is even. *)
Lemma J_odd (x : R) : J (- x) = - J x.
Proof.
  set (D := fun x => J x + J (- x)).
  assert (HD : forall y, derivable_pt_lim D y 0).
  { intros y. replace 0 with (gauss y + gauss (- y) * -1)
      by (rewrite gauss_even; ring).
    apply (derivable_pt_lim_plus J (fun y => J (- y))).
    - apply J_derivable_pt_lim.
    - apply (derivable_pt_lim_comp (fun y => - y) J).
      + replace (-1) with (- 1) by ring.
        apply (derivable_pt_lim_opp id y 1), derivable_pt_lim_id.
      + apply J_derivable_pt_lim. }
  pose proof (zero_derivative_constant D HD x 0) as H. unfold D in H.
  replace (- 0) with 0 in H by ring. rewrite J_0 in H. lra.
Qed.

(** The kernel of the auxiliary integral and its first two derivatives in
    [x]. *)
Definition kern (x t : R) : R :=
  exp (- (x * x) * (1 + t * t) / 2) / (1 + t * t).

Definition dkern (x t : R) : R :=
  - x * exp (- (x * x) * (1 + t * t) / 2).

Definition ddkern (x t : R) : R :=
  (x * x * (1 + t * t) - 1) * exp (- (x * x) * (1 + t * t) / 2).

Lemma kern_continuity (x : R) : continuity (kern x).
Proof. unfold kern. reg. intros t. nra. Qed.

Lemma dkern_continuity (x : R) : continuity (dkern x).
Proof. unfold dkern. reg. Qed.

Lemma kern_derivable_pt_lim (t x : R) :
  derivable_pt_lim (fun x => kern x t) x (dkern x t).
Proof.
  assert (Hs : 1 + t * t <> 0) by nra.
  unfold kern, dkern.
  assert (pr : derivable_pt
                 (fun x => exp (- (x * x) * (1 + t * t) / 2) / (1 + t * t)) x)
    by (reg; assumption).
  apply (derive_pt_eq_1 _ _ _ pr). reg.
  unfold Rdiv. field. exact Hs.
Qed.

Lemma dkern_derivable_pt_lim (t x : R) :
  derivable_pt_lim (fun x => dkern x t) x (ddkern x t).
Proof.
  unfold dkern, ddkern.
  assert (pr : derivable_pt
                 (fun x => - x * exp (- (x * x) * (1 + t * t) / 2)) x)
    by reg.
  apply (derive_pt_eq_1 _ _ _ pr). reg.
  unfold comp, Rdiv. field.
Qed.

(** [|(u - 1) exp (- u / 2)| <= 1] for [u >= 0]. *)
Lemma ddkern_bound (x t : R) : Rabs (ddkern x t) <= 1.
Proof.
  unfold ddkern. set (u := x * x * (1 + t * t)).
  assert (Hu : 0 <= u) by (unfold u; nra).
  replace (- (x * x) * (1 + t * t) / 2) with (- (u / 2)) by (unfold u; field).
  rewrite exp_Ropp.
  assert (He : 1 + u / 2 + u * u / 16 <= exp (u / 2)).
  { replace (u / 2) with (u / 4 + u / 4) at 2 by field.
    rewrite exp_plus. pose proof (exp_ineq1_le (u / 4)) as H1. nra. }
  assert (Hpos : 0 < exp (u / 2)) by apply exp_pos.
  apply Rabs_le. split.
  - apply Rmult_le_reg_r with (exp (u / 2)); [exact Hpos|].
    rewrite Rmult_assoc, Rinv_l by lra. nra.
  - apply Rmult_le_reg_r with (exp (u / 2)); [exact Hpos|].
    rewrite Rmult_assoc, Rinv_l by lra. nra.
Qed.

Lemma kern_remainder (x h t : R) :
  Rabs (kern (x + h) t - kern x t - h * dkern x t) <= 1 * (h * h).
Proof.
  apply (taylor_remainder (fun y => kern y t) (fun y => dkern y t)
           (fun y => ddkern y t) 1).
  - intros y. apply kern_derivable_pt_lim.
  - intros y. apply dkern_derivable_pt_lim.
  - intros y. apply ddkern_bound.
Qed.

(** The auxiliary integral and its derivative. *)
Definition Kint (x : R) : R := Int (kern x) (kern_continuity x) 0 1.

Definition Lint (x : R) : R := Int (dkern x) (dkern_continuity x) 0 1.

Lemma Kint_derivable_pt_lim (x : R) : derivable_pt_lim Kint x (Lint x).
Proof.
  exact (derivable_pt_lim_Int kern dkern kern_continuity dkern_continuity 1
           kern_remainder x).
Qed.

(** The change of variable [u = x t]: [J x] as an integral over [[0, 1]]. *)
Definition scaled (x t : R) : R := x * gauss (x * t).

Lemma scaled_continuity (x : R) : continuity (scaled x).
Proof. unfold scaled, gauss. reg. Qed.

Lemma Int_scaled (x : R) : Int (scaled x) (scaled_continuity x) 0 1 = J x.
Proof.
  rewrite (Int_antiderivative (scaled x) (scaled_continuity x)
             (fun t => J (x * t)) 0 1).
  - rewrite Rmult_1_r, Rmult_0_r, J_0. ring.
  - intros t. unfold scaled.
    replace (x * gauss (x * t)) with (gauss (x * t) * (x * 1)) by ring.
    apply (derivable_pt_lim_comp (fun t => x * t) J).
    + apply (derivable_pt_lim_scal id x t 1), derivable_pt_lim_id.
    + apply J_derivable_pt_lim.
Qed.

Lemma dkern_scaled (x t : R) : dkern x t = - gauss x * scaled x t.
Proof.
  unfold dkern, scaled, gauss.
  replace (- (x * x) * (1 + t * t) / 2)
    with (- (x * x) / 2 + - (x * t * (x * t)) / 2) by field.
  rewrite exp_plus. ring.
Qed.

Lemma Lint_eq (x : R) : Lint x = - gauss x * J x.
Proof.
  unfold Lint.
  assert (C : continuity (fun t => - gauss x * scaled x t)).
  { intros t. apply (continuity_pt_scal (scaled x)), scaled_continuity. }
  rewrite (Int_ext (dkern x) (fun t => - gauss x * scaled x t)
             (dkern_continuity x) C) by apply dkern_scaled.
  rewrite (Int_scal (scaled x) (- gauss x) (scaled_continuity x) C).
  now rewrite Int_scaled.
Qed.

Lemma Kint_nonneg (x : R) : 0 <= Kint x.
Proof.
  apply Int_nonneg; [lra|]. intros t _. unfold kern.
  apply Rlt_le, Rdiv_lt_0_compat; [apply exp_pos | nra].
Qed.

Lemma Kint_0 : Kint 0 = PI / 4.
Proof.
  unfold Kint.
  rewrite (Int_antiderivative (kern 0) (kern_continuity 0) atan 0 1).
  - rewrite atan_1, atan_0. ring.
  - intros t. unfold kern.
    replace (exp (- (0 * 0) * (1 + t * t) / 2) / (1 + t * t))
      with (/ (1 + t ^ 2)).
    + apply derivable_pt_lim_atan.
    + replace (- (0 * 0) * (1 + t * t) / 2) with 0 by field.
      rewrite exp_0. field. nra.
Qed.

(** The identity behind the Gaussian integral:
    [(J x)^2 + 2 * Kint x = PI / 2] for every [x]. *)
Lemma J_sqr_Kint (x : R) : J x * J x + 2 * Kint x = PI / 2.
Proof.
  set (D := fun x => J x * J x + 2 * Kint x).
  assert (HD : forall y, derivable_pt_lim D y 0).
  { intros y.
    replace 0 with (gauss y * J y + J y * gauss y + 2 * Lint y)
      by (rewrite Lint_eq; ring).
    apply (derivable_pt_lim_plus (J * J)%F (mult_real_fct 2 Kint)).
    - apply derivable_pt_lim_mult; apply J_derivable_pt_lim.
    - apply derivable_pt_lim_scal, Kint_derivable_pt_lim. }
  pose proof (zero_derivative_constant D HD x 0) as H. unfold D in H.
  rewrite H, J_0, Kint_0. field.
Qed.

(** [|J x| <= sqrt (2 PI) / 2]. *)
Lemma J_bound (x : R) : Rabs (J x) <= sqrt (2 * PI) / 2.
Proof.
  pose proof (J_sqr_Kint x) as H. pose proof (Kint_nonneg x) as HK.
  pose proof PI_RGT_0 as Hpi.
  assert (Hs : 0 < sqrt (2 * PI)) by (apply sqrt_lt_R0; lra).
  assert (Hss : sqrt (2 * PI) * sqrt (2 * PI) = 2 * PI) by (apply sqrt_sqrt; lra).
  apply Rabs_le. split; nra.
Qed.

End Gaussian.

(** ** Properties of [norm.pdf] and [norm.cdf] *)
Module NormFacts.
Import norm Integral Gaussian.
Local Open Scope R_scope.

Lemma sqrt_2PI_pos : 0 < sqrt (2 * PI).
Proof. apply sqrt_lt_R0. pose proof PI_RGT_0. lra. Qed.

Lemma cdf_J (x : R) : cdf x = 1 / 2 + J x / sqrt (2 * PI).
Proof. unfold cdf, J. now rewrite (Int_eq gauss gauss_continuity). Qed.

(** The density is positive. *)
Lemma pdf_pos (x : R) : 0 < pdf x.
Proof.
  unfold pdf. apply Rdiv_lt_0_compat; [apply gauss_pos | apply sqrt_2PI_pos].
Qed.

(** [cdf] is an antiderivative of [pdf]. *)
Lemma cdf_derivable_pt_lim (x : R) : derivable_pt_lim cdf x (pdf x).
Proof.
  apply (derivable_pt_lim_ext (fun x => 1 / 2 + / sqrt (2 * PI) * J x)).
  { intros y. rewrite cdf_J. unfold Rdiv. ring. }
  replace (pdf x) with (0 + / sqrt (2 * PI) * gauss x)
    by (unfold pdf, Rdiv; ring).
  apply (derivable_pt_lim_plus (fct_cte (1 / 2))
           (mult_real_fct (/ sqrt (2 * PI)) J)).
  - apply derivable_pt_lim_const.
  - apply derivable_pt_lim_scal, J_derivable_pt_lim.
Qed.

(** The law is symmetric about [0]. *)
Lemma cdf_symm (x : R) : cdf x + cdf (- x) = 1.
Proof.
  rewrite !cdf_J, J_odd. pose proof sqrt_2PI_pos. field. lra.
Qed.

(** [cdf] takes its values in [[0, 1]]. *)
Lemma cdf_range (x : R) : 0 <= cdf x <= 1.
Proof.
  rewrite cdf_J. pose proof sqrt_2PI_pos as Hs.
  pose proof (J_bound x) as HJ. apply Rabs_le_between in HJ.
  assert (Hq : - (1 / 2) <= J x / sqrt (2 * PI) <= 1 / 2).
  { split.
    - apply Rmult_le_reg_r with (sqrt (2 * PI)); [exact Hs|].
      unfold Rdiv at 2. rewrite Rmult_assoc, Rinv_l by lra. lra.
    - apply Rmult_le_reg_r with (sqrt (2 * PI)); [exact Hs|].
      unfold Rdiv at 1. rewrite Rmult_assoc, Rinv_l by lra. lra. }
  lra.
Qed.

(** The upper tail vanishes at infinity, so [cdf] tends to [1] at [+oo]
    and, by symmetry, to [0] at [-oo]. *)
Lemma cdf_upper_tail (x : R) :
  0 <= x -> 1 - cdf x <= 2 * exp (- (x * x) / 2) / PI.
Proof.
  intros Hx. pose proof sqrt_2PI_pos as Hs. pose proof PI_RGT_0 as Hpi.
  assert (Hss : sqrt (2 * PI) * sqrt (2 * PI) = 2 * PI) by (apply sqrt_sqrt; lra).
  assert (HJ0 : 0 <= J x).
  { apply Int_nonneg; [exact Hx|]. intros t _. apply Rlt_le, gauss_pos. }
  assert (HK : Kint x <= exp (- (x * x) / 2)).
  { unfold Kint.
    pose proof (Int_abs_bound (kern x) (kern_continuity x) 0 1
                  (exp (- (x * x) / 2)) ltac:(lra)) as Hb.
    apply Rle_trans with (1 := Rle_abs _).
    rewrite Rminus_0_r, Rmult_1_r in Hb. apply Hb. intros t _.
    unfold kern. rewrite Rabs_right.
    2:{ apply Rle_ge, Rlt_le, Rdiv_lt_0_compat; [apply exp_pos | nra]. }
    apply Rle_trans with (exp (- (x * x) * (1 + t * t) / 2)).
    - apply Rmult_le_reg_r with (1 + t * t); [nra|].
      unfold Rdiv at 1. rewrite Rmult_assoc, Rinv_l by nra.
      pose proof (exp_pos (- (x * x) * (1 + t * t) / 2)). nra.
    - destruct (Req_dec (- (x * x) * (1 + t * t) / 2) (- (x * x) / 2)) as [->|Hne];
        [lra|].
      apply Rlt_le, exp_increasing. nra. }
  pose proof (J_sqr_Kint x) as Hid.
  rewrite cdf_J.
  set (E := exp (- (x * x) / 2)) in *.
  assert (HE : 0 < E) by apply exp_pos.
  (* c - J <= 2 E / c, with c = sqrt (2 PI) / 2 *)
  assert (Hdiff : (sqrt (2 * PI) / 2 - J x) * (sqrt (2 * PI) / 2) <= 2 * E).
  { pose proof (J_bound x) as Hb. apply Rabs_le_between in Hb. nra. }
  apply Rmult_le_reg_r with (PI); [lra|].
  unfold Rdiv at 3. rewrite Rmult_assoc, Rinv_l by lra.
  replace ((1 - (1 / 2 + J x / sqrt (2 * PI))) * PI)
    with ((sqrt (2 * PI) / 2 - J x) * (sqrt (2 * PI) / 2)).
  - lra.
  - set (s := sqrt (2 * PI)) in *.
    replace PI with (s * s / 2) by lra. field. lra.
Qed.

End NormFacts.

(** ** Black-Scholes: [d1], put-call parity and the Greeks *)
Module BlackScholesProofs.
Local Open Scope R_scope.

(** The [d1] of the specification:
    [(ln (S / K) + (r + 0.5 sigma^2) T) / (sigma sqrt T)]. *)
Definition spec_d1 (S K r T sigma : R) : R :=
  (ln (S / K) + (r + 0.5 * sigma ^ 2) * T) / (sigma * sqrt T).

Lemma truediv_Ok (x y : R) : y <> 0 -> truediv x y = Ok (x / y).
Proof.
  intros Hy. unfold truediv. destruct (Req_dec_T y 0); [contradiction | reflexivity].
Qed.

Lemma math_log_Ok (x : R) : 0 < x -> math_log x = Ok (ln x).
Proof.
  intros Hx. unfold math_log. destruct (Rlt_dec 0 x); [reflexivity | contradiction].
Qed.

Lemma math_sqrt_Ok (x : R) : 0 <= x -> math_sqrt x = Ok (sqrt x).
Proof.
  intros Hx. unfold math_sqrt. destruct (Rle_dec 0 x); [reflexivity | contradiction].
Qed.

Section s1.
Import s_1_bs_option.
Variable o : Option.
Hypothesis HS : S o > 0.
Hypothesis HK : K o > 0.
Hypothesis HT : T o > 0.
Hypothesis Hsigma : sigma o > 0.

(** What [Option.d1] returns on valid parameters. *)
Lemma d1_Ok :
  d1 o = Ok ((ln (S o / K o) + (r o + 0.5 * sigma o ^ 2) * T o)
             / sigma o * sqrt (T o)).
Proof using HS HK HT Hsigma.
  unfold d1.
  rewrite truediv_Ok by lra. cbn [pure_bind].
  rewrite math_log_Ok by (apply Rdiv_lt_0_compat; lra). cbn [pure_bind].
  rewrite truediv_Ok by lra. cbn [pure_bind].
  rewrite math_sqrt_Ok by lra. reflexivity.
Qed.

Lemma d2_Ok :
  exists a, d1 o = Ok a /\ d2 o = Ok (a - sigma o * sqrt (T o)).
Proof using HS HK HT Hsigma.
  eexists. split; [apply d1_Ok|]. unfold d2. rewrite d1_Ok. cbn [pure_bind].
  rewrite math_sqrt_Ok by lra. reflexivity.
Qed.

(** The value returned by [Option.d1] is the specified [d1] times [T]. *)
Lemma d1_is_spec_d1_times_T :
  d1 o = Ok (spec_d1 (S o) (K o) (r o) (T o) (sigma o) * T o).
Proof using HS HK HT Hsigma.
  rewrite d1_Ok. f_equal. unfold spec_d1.
  assert (Hs : 0 < sqrt (T o)) by (apply sqrt_lt_R0; lra).
  assert (Hss : sqrt (T o) * sqrt (T o) = T o) by (apply sqrt_sqrt; lra).
  set (num := ln (S o / K o) + (r o + 0.5 * sigma o ^ 2) * T o).
  set (s := sqrt (T o)) in *.
  replace (T o) with (s * s) by exact Hss. field. lra.
Qed.

(** C2. Put-call parity: on valid parameters [Call.price] and [Put.price]
    return, and [Call.price() - Put.price() = S - K * exp (- r * T)]. *)
Theorem put_call_parity :
  exists c p,
    Call.price o = Ok c /\ Put.price o = Ok p /\
    c - p = S o - K o * exp (- r o * T o).
Proof using HS HK HT Hsigma.
  destruct d2_Ok as (a & Ha & Hb).
  unfold Call.price, Put.price. rewrite Ha, Hb. cbn [pure_bind].
  do 2 eexists. split; [reflexivity|]. split; [reflexivity|].
  unfold math_exp.
  pose proof (NormFacts.cdf_symm a) as H1.
  pose proof (NormFacts.cdf_symm (a - sigma o * sqrt (T o))) as H2.
  replace (norm.cdf (- a)) with (1 - norm.cdf a) by lra.
  replace (norm.cdf (- (a - sigma o * sqrt (T o))))
    with (1 - norm.cdf (a - sigma o * sqrt (T o))) by lra.
  ring.
Qed.

(** C7. On valid parameters [Call.delta] returns a value in [[0, 1]] and
    [Put.delta] a value in [[-1, 0]]. *)
Theorem delta_range :
  exists dc dp,
    Call.delta o = Ok dc /\ Put.delta o = Ok dp /\
    0 <= dc <= 1 /\ -1 <= dp <= 0.
Proof using HS HK HT Hsigma.
  unfold Call.delta, Put.delta. rewrite d1_Ok. cbn [pure_bind].
  do 2 eexists. split; [reflexivity|]. split; [reflexivity|].
  match goal with |- context [norm.cdf ?a] => pose proof (NormFacts.cdf_range a) end.
  lra.
Qed.

(** X30. On valid parameters [Option.vega], the one method [Call] and [Put]
    both inherit, returns [S * pdf a * sqrt T] with [a] the value
    [Option.d1] itself returns, and the result is not negative. *)
Theorem vega_nonneg :
  exists a v,
    d1 o = Ok a /\ vega o = Ok v /\
    v = S o * norm.pdf a * sqrt (T o) /\ 0 <= v.
Proof using HS HK HT Hsigma.
  unfold vega. rewrite d1_Ok. cbn [pure_bind].
  rewrite math_sqrt_Ok by lra.
  do 2 eexists. split; [reflexivity|]. split; [reflexivity|].
  split; [reflexivity|].
  match goal with |- context [norm.pdf ?a] => pose proof (NormFacts.pdf_pos a) end.
  assert (Hs : 0 < sqrt (T o)) by (apply sqrt_lt_R0; lra).
  apply Rmult_le_pos; [apply Rmult_le_pos|]; lra.
Qed.

End s1.

Section s3.
Import s3_extended.
Variable o : Option.
Hypothesis HS : spot o > 0.
Hypothesis HK : strike o > 0.
Hypothesis HT : ttm o > 0.
Hypothesis Hsigma : vol o > 0.

(** [Option.compute_d1] of [s3_extended.py] returns the specified [d1]. *)
Lemma compute_d1_is_spec_d1 :
  compute_d1 o
  = Ok (spec_d1 (spot o) (strike o) (risk_free o) (ttm o) (vol o)).
Proof using HS HK HT Hsigma.
  unfold compute_d1.
  rewrite truediv_Ok by lra. cbn [pure_bind].
  rewrite math_log_Ok by (apply Rdiv_lt_0_compat; lra). cbn [pure_bind].
  rewrite math_sqrt_Ok by lra. cbn [pure_bind].
  assert (Hs : 0 < sqrt (ttm o)) by (apply sqrt_lt_R0; lra).
  rewrite truediv_Ok by nra. reflexivity.
Qed.

End s3.

Lemma sqrt_4 : sqrt 4 = 2.
Proof. apply sqrt_lem_1; lra. Qed.

(** C1, on the code: for [S = K = 100], [r = 0], [T = 4], [sigma = 1] the
    specified [d1] is [1]; [Option.compute_d1] of [s3_extended.py] returns
    it, and [Option.d1] of [s_1_bs_option.py] returns [4]. *)
Theorem d1_at_T_4 :
  spec_d1 100 100 0 4 1 = 1 /\
  s3_extended.compute_d1 (s3_extended.mkOption 100 100 0 4 1)
  = Ok 1 /\
  s_1_bs_option.d1 (s_1_bs_option.mkOption 100 100 0 4 1) = Ok 4.
Proof.
  assert (Hspec : spec_d1 100 100 0 4 1 = 1).
  { unfold spec_d1. replace (100 / 100) with 1 by field.
    rewrite ln_1, sqrt_4. lra. }
  split; [exact Hspec|]. split.
  - rewrite compute_d1_is_spec_d1 by (cbn; lra). cbn. now rewrite Hspec.
  - rewrite d1_is_spec_d1_times_T by (cbn; lra). cbn. rewrite Hspec.
    f_equal. ring.
Qed.

Lemma pdf_4_lt_pdf_1 : norm.pdf 4 < norm.pdf 1.
Proof.
  unfold norm.pdf, norm.gauss, Rdiv.
  apply Rmult_lt_compat_r.
  - apply Rinv_0_lt_compat, NormFacts.sqrt_2PI_pos.
  - apply exp_increasing. lra.
Qed.

(** C8, on the code: for [S = K = 100], [r = 0], [T = 4], [sigma = 1] the
    specified vega [S * pdf(d1) * sqrt T] is [100 * pdf 1 * 2], with [d1]
    the specified [d1 = 1]; [Option.vega] of [s_1_bs_option.py] takes its
    [d1] from [Option.d1], which returns [4] there, and returns
    [100 * pdf 4 * 2], a smaller value, though still not negative. *)
Theorem vega_at_T_4 :
  100 * norm.pdf (spec_d1 100 100 0 4 1) * sqrt 4 = 100 * norm.pdf 1 * 2 /\
  s_1_bs_option.vega (s_1_bs_option.mkOption 100 100 0 4 1)
  = Ok (100 * norm.pdf 4 * 2) /\
  0 <= 100 * norm.pdf 4 * 2 < 100 * norm.pdf (spec_d1 100 100 0 4 1) * sqrt 4.
Proof.
  assert (Hspec : spec_d1 100 100 0 4 1 = 1).
  { unfold spec_d1. replace (100 / 100) with 1 by field.
    rewrite ln_1, sqrt_4. lra. }
  rewrite Hspec, sqrt_4.
  split; [reflexivity|]. split.
  - unfold s_1_bs_option.vega.
    rewrite d1_is_spec_d1_times_T by (cbn; lra). cbn [pure_bind].
    cbn [s_1_bs_option.S s_1_bs_option.K s_1_bs_option.r s_1_bs_option.T
         s_1_bs_option.sigma].
    rewrite Hspec, math_sqrt_Ok by lra. cbn [pure_bind].
    rewrite sqrt_4. replace (1 * 4) with 4 by ring. reflexivity.
  - pose proof (NormFacts.pdf_pos 4) as Hp.
    pose proof pdf_4_lt_pdf_1 as Hlt. lra.
Qed.

(** The option of the script: [S = 200], [K = 250], [r = 0.05],
    [T = 1.0], [sigma = 0.15]. *)
Definition script_option : s_1_bs_option.Option :=
  s_1_bs_option.mkOption 200 250 0.05 1.0 0.15.

Lemma script_option_valid :
  s_1_bs_option.S script_option > 0 /\ s_1_bs_option.K script_option > 0 /\
  s_1_bs_option.T script_option > 0 /\ s_1_bs_option.sigma script_option > 0.
Proof. cbn. lra. Defined.

Lemma put_call_parity_witness :
  s_1_bs_option.S script_option > 0 /\
  exists c p,
    s_1_bs_option.Call.price script_option = Ok c /\
    s_1_bs_option.Put.price script_option = Ok p /\
    c - p = s_1_bs_option.S script_option
            - s_1_bs_option.K script_option
              * exp (- s_1_bs_option.r script_option
                     * s_1_bs_option.T script_option).
Proof.
  destruct script_option_valid as (HS & HK & HT & Hsigma).
  split; [exact HS|].
  exact (put_call_parity script_option HS HK HT Hsigma).
Defined.

Lemma delta_range_witness :
  s_1_bs_option.S script_option > 0 /\
  exists dc dp,
    s_1_bs_option.Call.delta script_option = Ok dc /\
    s_1_bs_option.Put.delta script_option = Ok dp /\
    0 <= dc <= 1 /\ -1 <= dp <= 0.
Proof.
  destruct script_option_valid as (HS & HK & HT & Hsigma).
  split; [exact HS|].
  exact (delta_range script_option HS HK HT Hsigma).
Defined.

Lemma vega_nonneg_witness :
  s_1_bs_option.S script_option > 0 /\
  exists v, s_1_bs_option.vega script_option = Ok v /\ 0 <= v.
Proof.
  destruct script_option_valid as (HS & HK & HT & Hsigma).
  split; [exact HS|].
  destruct (vega_nonneg script_option HS HK HT Hsigma) as (a & v & _ & Hv & _ & Hpos).
  now exists v.
Defined.

End BlackScholesProofs.

(** ** The Black-Scholes value is never negative *)
Module BlackScholesCore.
Import norm.
Local Open Scope R_scope.

Lemma cdf_0 : cdf 0 = 1 / 2.
Proof. rewrite NormFacts.cdf_J, Gaussian.J_0. field. pose proof NormFacts.sqrt_2PI_pos. lra. Qed.

(** The lower tail: [cdf (- y) <= 1 / y] for [y > 0]. *)
Lemma cdf_lower_tail (y : R) : 0 < y -> cdf (- y) <= 1 / y.
Proof.
  intros Hy. pose proof (NormFacts.cdf_symm y) as Hsym.
  pose proof (NormFacts.cdf_upper_tail y (Rlt_le _ _ Hy)) as Htail.
  pose proof PI2_1 as Hpi.
  assert (He : exp (- (y * y) / 2) <= / (1 + y * y / 2)).
  { replace (- (y * y) / 2) with (- (y * y / 2)) by field.
    rewrite exp_Ropp. apply Rinv_le_contravar; [nra|].
    apply exp_ineq1_le. }
  assert (Hinv : / (1 + y * y / 2) <= / y).
  { apply Rinv_le_contravar; [exact Hy | nra]. }
  assert (Hb : 2 * exp (- (y * y) / 2) / PI <= exp (- (y * y) / 2)).
  { pose proof (exp_pos (- (y * y) / 2)) as Hp.
    apply Rmult_le_reg_r with PI; [lra|].
    unfold Rdiv. rewrite Rmult_assoc, Rinv_l by lra. nra. }
  replace (1 / y) with (/ y) by (field; lra). lra.
Qed.

Lemma pdf_shift (x s : R) : pdf (x - s) = pdf x * exp (x * s - s * s / 2).
Proof.
  unfold pdf, gauss, Rdiv. rewrite Rmult_assoc, (Rmult_comm (/ _)), <- Rmult_assoc.
  rewrite <- exp_plus. do 2 f_equal. field.
Qed.

Section Core.
Variables A B s : R.
Hypothesis HA : 0 < A.
Hypothesis HB : 0 < B.
Hypothesis Hs : 0 < s.

(** The value as a function of the first argument of [cdf]. *)
Definition value (x : R) : R := A * cdf x - B * cdf (x - s).

Definition dvalue (x : R) : R := A * pdf x - B * pdf (x - s).

Lemma value_derivable_pt_lim (x : R) : derivable_pt_lim value x (dvalue x).
Proof using.
  unfold value, dvalue.
  apply (derivable_pt_lim_minus (fun x => A * cdf x) (fun x => B * cdf (x - s))).
  - apply (derivable_pt_lim_scal cdf A), NormFacts.cdf_derivable_pt_lim.
  - apply (derivable_pt_lim_scal (fun x => cdf (x - s)) B).
    replace (pdf (x - s)) with (pdf (x - s) * (1 - 0)) by ring.
    apply (derivable_pt_lim_comp (fun x => x - s) cdf).
    + apply (derivable_pt_lim_minus id (fct_cte s));
        [apply derivable_pt_lim_id | apply derivable_pt_lim_const].
    + apply NormFacts.cdf_derivable_pt_lim.
Qed.

(** The point where the value is largest. *)
Definition peak : R := (ln (A / B) + s * s / 2) / s.

Lemma dvalue_nonneg (x : R) : x <= peak -> 0 <= dvalue x.
Proof using HA HB Hs.
  intros Hx. unfold dvalue. rewrite pdf_shift.
  pose proof (NormFacts.pdf_pos x) as Hp.
  assert (Hexp : exp (x * s - s * s / 2) <= A / B).
  { rewrite <- (exp_ln (A / B)) at 1 by (apply Rdiv_lt_0_compat; lra).
    destruct (Req_dec (x * s - s * s / 2) (ln (A / B))) as [->|Hne]; [lra|].
    apply Rlt_le, exp_increasing.
    assert (Hps : peak * s = ln (A / B) + s * s / 2) by (unfold peak; field; lra).
    assert (x * s <= peak * s) by (apply Rmult_le_compat_r; lra).
    lra. }
  assert (HBexp : B * exp (x * s - s * s / 2) <= A).
  { apply Rmult_le_compat_l with (r := B) in Hexp; [|lra].
    replace (B * (A / B)) with A in Hexp by (field; lra). exact Hexp. }
  replace (A * pdf x - B * (pdf x * exp (x * s - s * s / 2)))
    with (pdf x * (A - B * exp (x * s - s * s / 2))) by ring.
  apply Rmult_le_pos; lra.
Qed.

Lemma value_below_peak (a : R) : a < peak -> value a <= value peak.
Proof using HA HB Hs.
  intros Ha.
  destruct (MVT_cor2 value dvalue a peak Ha) as (c & Hc & Hac).
  { intros x _. apply value_derivable_pt_lim. }
  pose proof (dvalue_nonneg c ltac:(lra)) as Hd.
  assert (0 <= dvalue c * (peak - a)) by (apply Rmult_le_pos; lra).
  lra.
Qed.

(** [A * cdf peak - B * cdf (peak - s)] is not negative. *)
Lemma value_peak_nonneg : 0 <= value peak.
Proof using HA HB Hs.
  destruct (Rle_lt_dec 0 (value peak)) as [H|Hneg]; [exact H|exfalso].
  set (eps := - value peak / (2 * B)).
  assert (Heps : 0 < eps) by (unfold eps; apply Rdiv_lt_0_compat; lra).
  (* a point far enough on the left *)
  set (y := / eps + Rabs peak + s + 1).
  assert (Hie : 0 < / eps) by now apply Rinv_0_lt_compat.
  assert (Hy : / eps < y).
  { unfold y. pose proof (Rabs_pos peak). lra. }
  assert (Hy0 : 0 < y) by lra.
  assert (Ha : - y + s < peak).
  { unfold y. pose proof (Rle_abs (- peak)) as H1. rewrite Rabs_Ropp in H1. lra. }
  pose proof (value_below_peak (- y + s) Ha) as Hmono.
  assert (Htail : cdf (- y) <= eps).
  { apply Rle_trans with (1 := cdf_lower_tail y Hy0).
    replace (1 / y) with (/ y) by (field; lra).
    rewrite <- (Rinv_inv eps). apply Rinv_le_contravar; lra. }
  assert (Hlow : - (B * eps) <= value (- y + s)).
  { unfold value. replace (- y + s - s) with (- y) by ring.
    pose proof (NormFacts.cdf_range (- y + s)) as [Hc0 _].
    assert (0 <= A * cdf (- y + s)) by (apply Rmult_le_pos; lra).
    assert (B * cdf (- y) <= B * eps) by (apply Rmult_le_compat_l; lra).
    lra. }
  assert (Hbe : B * eps = - value peak / 2) by (unfold eps; field; lra).
  lra.
Qed.

End Core.
End BlackScholesCore.

(** ** Black-Scholes: further contracts of the two option hierarchies *)
Module BlackScholesExtras.
Import BlackScholesProofs.
Local Open Scope R_scope.

Section s1.
Import s_1_bs_option.
Variable o : Option.
Hypothesis HS : S o > 0.
Hypothesis HK : K o > 0.
Hypothesis HT : T o > 0.
Hypothesis Hsigma : sigma o > 0.

Lemma sqrt_T_pos : 0 < sqrt (T o).
Proof using HT. apply sqrt_lt_R0. lra. Qed.

(** X8. On valid parameters the Greeks of a call and of a put with the same
    parameters differ by the derivatives of [S - K * exp (- r * T)]:
    the deltas by [1], the rhos by [T * K * exp (- r * T)] and the thetas
    by [- r * K * exp (- r * T)]. *)
Theorem greeks_parity :
  exists dc dp rc rp tc tp,
    Call.delta o = Ok dc /\ Put.delta o = Ok dp /\
    Call.rho o = Ok rc /\ Put.rho o = Ok rp /\
    Call.theta o = Ok (finite tc) /\ Put.theta o = Ok (finite tp) /\
    dc - dp = 1 /\
    rc - rp = T o * K o * exp (- r o * T o) /\
    tc - tp = - r o * K o * exp (- r o * T o).
Proof using HS HK HT Hsigma.
  destruct (d2_Ok o HS HK HT Hsigma) as (a & Ha & Hb).
  pose proof sqrt_T_pos as Hs.
  unfold Call.delta, Put.delta, Call.rho, Put.rho, Call.theta, Put.theta.
  rewrite Ha, Hb. cbn [pure_bind].
  rewrite math_sqrt_Ok by lra. cbn [pure_bind].
  unfold np_truediv.
  destruct (Req_dec_T (2 * sqrt (T o)) 0) as [Hz|_]; [lra|]. cbn [np_sub np_add].
  do 6 eexists. repeat (split; [reflexivity|]).
  unfold math_exp.
  pose proof (NormFacts.cdf_symm (a - sigma o * sqrt (T o))) as H2.
  split; [lra|]. split.
  - replace (norm.cdf (- (a - sigma o * sqrt (T o))))
      with (1 - norm.cdf (a - sigma o * sqrt (T o))) by lra. ring.
  - replace (norm.cdf (- (a - sigma o * sqrt (T o))))
      with (1 - norm.cdf (a - sigma o * sqrt (T o))) by lra. ring.
Qed.

(** X9. On valid parameters [Call.rho] is not negative and [Put.rho] is not
    positive, and [Put.rho_per_1pct] is one hundredth of [Put.rho]. *)
Theorem rho_signs :
  exists rc rp,
    Call.rho o = Ok rc /\ Put.rho o = Ok rp /\
    Put.rho_per_1pct o = Ok (0.01 * rp) /\
    0 <= rc /\ rp <= 0.
Proof using HS HK HT Hsigma.
  destruct (d2_Ok o HS HK HT Hsigma) as (a & Ha & Hb).
  unfold Put.rho_per_1pct, Call.rho, Put.rho. rewrite Hb. cbn [pure_bind].
  do 2 eexists. repeat (split; [reflexivity|]).
  unfold math_exp.
  pose proof (exp_pos (- r o * T o)) as He.
  pose proof (NormFacts.cdf_range (a - sigma o * sqrt (T o))) as [Hc _].
  pose proof (NormFacts.cdf_range (- (a - sigma o * sqrt (T o)))) as [Hc' _].
  assert (Hd : 0 <= T o * K o * exp (- r o * T o)).
  { apply Rmult_le_pos; [apply Rmult_le_pos|]; lra. }
  split.
  - apply Rmult_le_pos; assumption.
  - replace (- T o * K o * exp (- r o * T o) * norm.cdf (- (a - sigma o * sqrt (T o))))
      with (- (T o * K o * exp (- r o * T o) * norm.cdf (- (a - sigma o * sqrt (T o)))))
      by ring.
    assert (0 <= T o * K o * exp (- r o * T o) * norm.cdf (- (a - sigma o * sqrt (T o))))
      by (apply Rmult_le_pos; assumption).
    lra.
Qed.

End s1.

(** X10. When [Option.d1] of [s_1_bs_option.py] returns and what it
    raises: [ZeroDivisionError] for [K = 0], [ValueError] for [S / K <= 0],
    [ZeroDivisionError] for [sigma = 0], [ValueError] for [T < 0], in that
    order; otherwise it returns, a negative [sigma] and [T = 0] included. *)
Theorem d1_outcome (o : s_1_bs_option.Option) :
  let S := s_1_bs_option.S o in
  let K := s_1_bs_option.K o in
  let r := s_1_bs_option.r o in
  let T := s_1_bs_option.T o in
  let sigma := s_1_bs_option.sigma o in
  (K = 0 -> s_1_bs_option.d1 o = Raise ZeroDivisionError) /\
  (K <> 0 -> S / K <= 0 -> s_1_bs_option.d1 o = Raise ValueError) /\
  (K <> 0 -> 0 < S / K -> sigma = 0 ->
   s_1_bs_option.d1 o = Raise ZeroDivisionError) /\
  (K <> 0 -> 0 < S / K -> sigma <> 0 -> T < 0 ->
   s_1_bs_option.d1 o = Raise ValueError) /\
  (K <> 0 -> 0 < S / K -> sigma <> 0 -> 0 <= T ->
   s_1_bs_option.d1 o
   = Ok ((ln (S / K) + (r + 0.5 * sigma ^ 2) * T) / sigma * sqrt T)).
Proof.
  cbv zeta. unfold s_1_bs_option.d1, truediv, math_log, math_sqrt.
  repeat split; intros;
    repeat match goal with
    | |- context [Req_dec_T ?x ?y] => destruct (Req_dec_T x y)
    | |- context [Rlt_dec ?x ?y] => destruct (Rlt_dec x y)
    | |- context [Rle_dec ?x ?y] => destruct (Rle_dec x y)
    | _ => progress cbn [pure_bind]
    end; try reflexivity; try contradiction; try lra.
Qed.

Lemma d1_outcome_witness :
  s_1_bs_option.d1 (s_1_bs_option.mkOption 100 0 0.05 1 0.2)
  = Raise ZeroDivisionError.
Proof.
  apply (proj1 (d1_outcome (s_1_bs_option.mkOption 100 0 0.05 1 0.2))).
  reflexivity.
Defined.

Section expiry.
Import s_1_bs_option.
Variable o : Option.
Hypothesis HS : S o > 0.
Hypothesis HK : K o > 0.
Hypothesis HT : T o = 0.
Hypothesis Hsigma : sigma o > 0.

Lemma d1_at_expiry : d1 o = Ok 0.
Proof using HS HK HT Hsigma.
  unfold d1. rewrite truediv_Ok by lra. cbn [pure_bind].
  rewrite math_log_Ok by (apply Rdiv_lt_0_compat; lra). cbn [pure_bind].
  rewrite truediv_Ok by lra. cbn [pure_bind].
  rewrite math_sqrt_Ok by lra. cbn [pure_bind].
  rewrite HT, sqrt_0. f_equal. ring.
Qed.

(** X11. At [T = 0], which the code does not reject, [Option.d1] and
    [Option.d2] return [0], so [Call.price] returns [(S - K) / 2] and
    [Put.price] returns [(K - S) / 2]; [Call.theta] and [Put.theta] raise
    nothing: the numpy quotient of a negative number by zero makes both
    return minus infinity. *)
Theorem prices_at_expiry :
  d1 o = Ok 0 /\ d2 o = Ok 0 /\
  Call.price o = Ok ((S o - K o) / 2) /\
  Put.price o = Ok ((K o - S o) / 2) /\
  Call.theta o = Ok neg_inf /\
  Put.theta o = Ok neg_inf.
Proof using HS HK HT Hsigma.
  pose proof d1_at_expiry as Hd1.
  assert (Hd2 : d2 o = Ok 0).
  { unfold d2. rewrite Hd1. cbn [pure_bind]. rewrite math_sqrt_Ok by lra.
    cbn [pure_bind]. rewrite HT, sqrt_0. f_equal. ring. }
  assert (Hnum : - (S o * norm.pdf 0 * sigma o) < 0).
  { pose proof (NormFacts.pdf_pos 0) as Hp.
    assert (0 < S o * norm.pdf 0 * sigma o)
      by (apply Rmult_lt_0_compat; [apply Rmult_lt_0_compat|]; lra).
    lra. }
  split; [exact Hd1|]. split; [exact Hd2|].
  unfold Call.price, Put.price, Call.theta, Put.theta. rewrite Hd1, Hd2.
  cbn [pure_bind]. rewrite math_sqrt_Ok by lra. cbn [pure_bind].
  unfold np_truediv. rewrite HT, sqrt_0.
  destruct (Req_dec_T (2 * 0) 0) as [_|Hne]; [|exfalso; lra].
  destruct (Rlt_dec (- (S o * norm.pdf 0 * sigma o)) 0) as [_|Hge];
    [|contradiction].
  cbn [np_sub np_add].
  unfold math_exp. replace (- r o * 0) with 0 by ring.
  rewrite exp_0, Ropp_0, BlackScholesCore.cdf_0.
  repeat split; try reflexivity; f_equal; field.
Qed.

End expiry.

Lemma prices_at_expiry_witness :
  s_1_bs_option.S (s_1_bs_option.mkOption 200 250 0.05 0 0.15) > 0 /\
  s_1_bs_option.Call.price (s_1_bs_option.mkOption 200 250 0.05 0 0.15)
  = Ok ((200 - 250) / 2).
Proof.
  assert (HS : s_1_bs_option.S (s_1_bs_option.mkOption 200 250 0.05 0 0.15) > 0)
    by (cbn; lra).
  split; [exact HS|].
  refine (proj1 (proj2 (proj2
    (prices_at_expiry (s_1_bs_option.mkOption 200 250 0.05 0 0.15)
       HS _ eq_refl _)))); cbn; lra.
Defined.

Section s3.
Import s3_extended.
Variable o : Option.
Hypothesis HS : spot o > 0.
Hypothesis HK : strike o > 0.
Hypothesis HT : ttm o > 0.
Hypothesis Hsigma : vol o > 0.

(** The discounted strike. *)
Definition discounted_strike : R := strike o * exp (- risk_free o * ttm o).

Lemma compute_d2_Ok :
  exists a, compute_d1 o = Ok a /\ compute_d2 o = Ok (a - vol o * sqrt (ttm o)) /\
            a = spec_d1 (spot o) (strike o) (risk_free o) (ttm o) (vol o).
Proof using HS HK HT Hsigma.
  eexists. split; [now apply compute_d1_is_spec_d1|]. split; [|reflexivity].
  unfold compute_d2. rewrite compute_d1_is_spec_d1 by assumption.
  cbn [pure_bind]. rewrite math_sqrt_Ok by lra. reflexivity.
Qed.

Lemma prices_Ok :
  exists a,
    a = spec_d1 (spot o) (strike o) (risk_free o) (ttm o) (vol o) /\
    Call.price o
    = Ok (spot o * norm.cdf a
          - discounted_strike * norm.cdf (a - vol o * sqrt (ttm o))) /\
    Put.price o
    = Ok (discounted_strike * norm.cdf (- (a - vol o * sqrt (ttm o)))
          - spot o * norm.cdf (- a)).
Proof using HS HK HT Hsigma.
  destruct compute_d2_Ok as (a & Ha & Hb & Heq).
  exists a. split; [exact Heq|].
  unfold Call.price, Put.price, discounted_strike, math_exp.
  rewrite Ha, Hb. cbn [pure_bind]. split; reflexivity.
Qed.

(** The specified [d1] is the point where the Black-Scholes value peaks. *)
Lemma spec_d1_is_peak :
  spec_d1 (spot o) (strike o) (risk_free o) (ttm o) (vol o)
  = BlackScholesCore.peak (spot o) discounted_strike (vol o * sqrt (ttm o)).
Proof using HS HK HT Hsigma.
  unfold spec_d1, BlackScholesCore.peak, discounted_strike.
  assert (Hs : 0 < sqrt (ttm o)) by (apply sqrt_lt_R0; lra).
  assert (Hss : sqrt (ttm o) * sqrt (ttm o) = ttm o) by (apply sqrt_sqrt; lra).
  assert (Hln : ln (spot o / (strike o * exp (- risk_free o * ttm o)))
                = ln (spot o / strike o) + risk_free o * ttm o).
  { replace (spot o / (strike o * exp (- risk_free o * ttm o)))
      with (spot o / strike o * exp (risk_free o * ttm o)).
    - rewrite ln_mult, ln_exp; [reflexivity | | apply exp_pos].
      apply Rdiv_lt_0_compat; lra.
    - replace (- risk_free o * ttm o) with (- (risk_free o * ttm o)) by ring.
      rewrite exp_Ropp. field. split; [|lra].
      pose proof (exp_pos (risk_free o * ttm o)). lra. }
  rewrite Hln. f_equal.
  replace (vol o * sqrt (ttm o) * (vol o * sqrt (ttm o)))
    with (vol o * vol o * (sqrt (ttm o) * sqrt (ttm o))) by ring.
  rewrite Hss. lra.
Qed.

(** X12. Put-call parity for the hierarchy of [s3_extended.py]. *)
Theorem put_call_parity_s3 :
  exists c p,
    Call.price o = Ok c /\ Put.price o = Ok p /\
    c - p = spot o - strike o * exp (- risk_free o * ttm o).
Proof using HS HK HT Hsigma.
  destruct prices_Ok as (a & _ & Hc & Hp).
  do 2 eexists. split; [exact Hc|]. split; [exact Hp|].
  fold discounted_strike.
  pose proof (NormFacts.cdf_symm a) as H1.
  pose proof (NormFacts.cdf_symm (a - vol o * sqrt (ttm o))) as H2.
  replace (norm.cdf (- a)) with (1 - norm.cdf a) by lra.
  replace (norm.cdf (- (a - vol o * sqrt (ttm o))))
    with (1 - norm.cdf (a - vol o * sqrt (ttm o))) by lra.
  ring.
Qed.

(** The call and put formulas are the Black-Scholes value at its peak. *)
Lemma formulas_nonneg (a : R) :
  a = spec_d1 (spot o) (strike o) (risk_free o) (ttm o) (vol o) ->
  0 <= spot o * norm.cdf a
       - discounted_strike * norm.cdf (a - vol o * sqrt (ttm o)) /\
  0 <= discounted_strike * norm.cdf (- (a - vol o * sqrt (ttm o)))
       - spot o * norm.cdf (- a).
Proof using HS HK HT Hsigma.
  intros Ha.
  assert (HB : 0 < discounted_strike).
  { unfold discounted_strike. apply Rmult_lt_0_compat; [lra | apply exp_pos]. }
  assert (Hs : 0 < vol o * sqrt (ttm o)).
  { apply Rmult_lt_0_compat; [lra | apply sqrt_lt_R0; lra]. }
  pose proof spec_d1_is_peak as Hpk.
  set (s := vol o * sqrt (ttm o)) in *.
  split.
  - pose proof (BlackScholesCore.value_peak_nonneg (spot o) discounted_strike s
                  ltac:(lra) HB Hs) as Hcall.
    unfold BlackScholesCore.value in Hcall.
    now rewrite <- Hpk, <- Ha in Hcall.
  - pose proof (BlackScholesCore.value_peak_nonneg discounted_strike (spot o) s
                  HB ltac:(lra) Hs) as Hput.
    unfold BlackScholesCore.value in Hput.
    assert (Hpeak : BlackScholesCore.peak discounted_strike (spot o) s = - (a - s)).
    { rewrite Ha, Hpk. unfold BlackScholesCore.peak.
      replace (discounted_strike / spot o) with (/ (spot o / discounted_strike))
        by (field; lra).
      rewrite ln_Rinv by (apply Rdiv_lt_0_compat; lra). field. lra. }
    rewrite Hpeak in Hput. now replace (- (a - s) - s) with (- a) in Hput by ring.
Qed.

Lemma call_price_nonneg : exists c, Call.price o = Ok c /\ 0 <= c.
Proof using HS HK HT Hsigma.
  destruct prices_Ok as (a & Ha & Hc & _).
  eexists. split; [exact Hc|]. now apply formulas_nonneg.
Qed.

(** X13. The prices of [s3_extended.py] respect the no-arbitrage bounds:
    [max (S - K exp (- r T), 0) <= call <= S] and
    [max (K exp (- r T) - S, 0) <= put <= K exp (- r T)]. *)
Theorem no_arbitrage_bounds :
  exists c p,
    Call.price o = Ok c /\ Put.price o = Ok p /\
    Rmax (spot o - strike o * exp (- risk_free o * ttm o)) 0 <= c <= spot o /\
    Rmax (strike o * exp (- risk_free o * ttm o) - spot o) 0 <= p
      <= strike o * exp (- risk_free o * ttm o).
Proof using HS HK HT Hsigma.
  destruct prices_Ok as (a & Ha & Hc & Hp).
  do 2 eexists. split; [exact Hc|]. split; [exact Hp|].
  fold discounted_strike.
  assert (HB : 0 < discounted_strike).
  { unfold discounted_strike. apply Rmult_lt_0_compat; [lra | apply exp_pos]. }
  destruct (formulas_nonneg a Ha) as [Hcall Hput].
  set (s := vol o * sqrt (ttm o)) in *.
  pose proof (NormFacts.cdf_symm a) as H1.
  pose proof (NormFacts.cdf_symm (a - s)) as H2.
  pose proof (NormFacts.cdf_range a) as [H3 H4].
  pose proof (NormFacts.cdf_range (a - s)) as [H5 H6].
  pose proof (NormFacts.cdf_range (- a)) as [H7 H8].
  pose proof (NormFacts.cdf_range (- (a - s))) as [H9 H10].
  assert (spot o * norm.cdf a <= spot o) by nra.
  assert (0 <= discounted_strike * norm.cdf (a - s)) by nra.
  assert (discounted_strike * norm.cdf (- (a - s)) <= discounted_strike) by nra.
  assert (0 <= spot o * norm.cdf (- a)) by nra.
  assert (Hpar : spot o * norm.cdf a - discounted_strike * norm.cdf (a - s)
                 - (discounted_strike * norm.cdf (- (a - s)) - spot o * norm.cdf (- a))
                 = spot o - discounted_strike).
  { replace (norm.cdf (- a)) with (1 - norm.cdf a) by lra.
    replace (norm.cdf (- (a - s))) with (1 - norm.cdf (a - s)) by lra. ring. }
  repeat split; try lra; apply Rmax_lub; lra.
Qed.

End s3.

Definition lecture_option : s3_extended.Option :=
  s3_extended.mkOption 100 90 0.05 1 0.2.

Lemma lecture_option_valid :
  s3_extended.spot lecture_option > 0 /\ s3_extended.strike lecture_option > 0 /\
  s3_extended.ttm lecture_option > 0 /\ s3_extended.vol lecture_option > 0.
Proof. cbn. lra. Defined.

Lemma greeks_parity_witness :
  s_1_bs_option.S script_option > 0 /\
  exists dc dp,
    s_1_bs_option.Call.delta script_option = Ok dc /\
    s_1_bs_option.Put.delta script_option = Ok dp /\ dc - dp = 1.
Proof.
  destruct script_option_valid as (HS & HK & HT & Hsigma).
  split; [exact HS|].
  destruct (greeks_parity script_option HS HK HT Hsigma)
    as (dc & dp & rc & rp & tc & tp & H1 & H2 & _ & _ & _ & _ & H3 & _).
  exists dc, dp. repeat split; assumption.
Defined.

Lemma rho_signs_witness :
  s_1_bs_option.S script_option > 0 /\
  exists rc, s_1_bs_option.Call.rho script_option = Ok rc /\ 0 <= rc.
Proof.
  destruct script_option_valid as (HS & HK & HT & Hsigma).
  split; [exact HS|].
  destruct (rho_signs script_option HS HK HT Hsigma)
    as (rc & rp & H1 & _ & _ & H2 & _).
  exists rc. split; assumption.
Defined.

Lemma put_call_parity_s3_witness :
  s3_extended.spot lecture_option > 0 /\
  exists c p,
    s3_extended.Call.price lecture_option = Ok c /\
    s3_extended.Put.price lecture_option = Ok p /\
    c - p = s3_extended.spot lecture_option
            - s3_extended.strike lecture_option
              * exp (- s3_extended.risk_free lecture_option
                     * s3_extended.ttm lecture_option).
Proof.
  destruct lecture_option_valid as (HS & HK & HT & Hsigma).
  split; [exact HS|].
  exact (put_call_parity_s3 lecture_option HS HK HT Hsigma).
Defined.

Lemma no_arbitrage_bounds_witness :
  s3_extended.spot lecture_option > 0 /\
  exists c, s3_extended.Call.price lecture_option = Ok c /\ 0 <= c.
Proof.
  destruct lecture_option_valid as (HS & HK & HT & Hsigma).
  split; [exact HS|].
  destruct (no_arbitrage_bounds lecture_option HS HK HT Hsigma)
    as (c & p & Hc & _ & [Hlow _] & _).
  exists c. split; [exact Hc|].
  apply Rle_trans with (2 := Hlow), Rmax_r.
Defined.

Section agreement.
Variable o : s_1_bs_option.Option.
Hypothesis HS : s_1_bs_option.S o > 0.
Hypothesis HK : s_1_bs_option.K o > 0.
Hypothesis HT : s_1_bs_option.T o = 1.
Hypothesis Hsigma : s_1_bs_option.sigma o > 0.

(** The same parameters, as an option of [s3_extended.py]. *)
Definition as_s3 : s3_extended.Option :=
  s3_extended.mkOption (s_1_bs_option.S o) (s_1_bs_option.K o)
    (s_1_bs_option.r o) (s_1_bs_option.T o) (s_1_bs_option.sigma o).

(** X14. For a maturity of one year the two files agree: [Option.d1] of
    [s_1_bs_option.py] returns what [Option.compute_d1] of
    [s3_extended.py] returns, and so do the call and put prices. *)
Theorem files_agree_at_one_year :
  s_1_bs_option.d1 o = s3_extended.compute_d1 as_s3 /\
  s_1_bs_option.Call.price o = s3_extended.Call.price as_s3 /\
  s_1_bs_option.Put.price o = s3_extended.Put.price as_s3.
Proof using HS HK HT Hsigma.
  assert (HT' : s_1_bs_option.T o > 0) by lra.
  assert (Hd1 : s_1_bs_option.d1 o = s3_extended.compute_d1 as_s3).
  { rewrite (d1_is_spec_d1_times_T o HS HK HT' Hsigma).
    rewrite (compute_d1_is_spec_d1 as_s3) by (cbn; lra).
    cbn [as_s3 s3_extended.spot s3_extended.strike s3_extended.risk_free
         s3_extended.ttm s3_extended.vol].
    rewrite HT. f_equal. ring. }
  assert (Hd2 : s_1_bs_option.d2 o = s3_extended.compute_d2 as_s3).
  { unfold s_1_bs_option.d2, s3_extended.compute_d2. rewrite Hd1. reflexivity. }
  split; [exact Hd1|].
  unfold s_1_bs_option.Call.price, s_1_bs_option.Put.price,
    s3_extended.Call.price, s3_extended.Put.price.
  rewrite Hd1, Hd2. split; reflexivity.
Qed.

End agreement.

Lemma files_agree_at_one_year_witness :
  s_1_bs_option.S script_option > 0 /\
  s_1_bs_option.d1 script_option
  = s3_extended.compute_d1 (as_s3 script_option).
Proof.
  destruct script_option_valid as (HS & HK & HT & Hsigma).
  split; [exact HS|].
  refine (proj1 (files_agree_at_one_year script_option HS HK _ Hsigma)).
  cbn. lra.
Defined.

End BlackScholesExtras.

(** ** The calculators, [calculate_return], [divide] and the asset list of
    [s3_extended.py] *)
Module UtilitiesProofs.
Import s3_extended.

(** *** The two calculators *)
Section Calculators.
Local Open Scope Z_scope.

Lemma sum_from (args : list pyvalue) : forall acc,
  fold_left (fun acc v => acc + int_value v) args acc
  = acc + fold_right Z.add 0 (map int_value args).
Proof.
  induction args as [|v args IH]; intros acc; cbn [fold_left fold_right map].
  - lia.
  - rewrite IH. lia.
Qed.

Lemma fsum_from (args : list pyvalue) : forall acc,
  fold_left (fun acc v => (acc + float_value v)%R) args acc
  = (acc + fold_right Rplus 0%R (map float_value args))%R.
Proof.
  induction args as [|v args IH]; intros acc; cbn [fold_left fold_right map].
  - ring.
  - rewrite IH. ring.
Qed.

(** X15. [CalculatorWithDynamicHandling.add] returns the integer [0] when
    called without arguments; on instances of [int] only (booleans
    included) it returns their sum as an [int], additive over
    concatenation of the arguments; on floats only it returns their sum as
    a [float]; for any other mix, an [int] with a [float] included, it
    raises [TypeError]. *)
Theorem dynamic_add_contract :
  CalculatorWithDynamicHandling.add [] = Ok (PyInt 0) /\
  (forall args, forallb is_int args = true ->
     CalculatorWithDynamicHandling.add args
     = Ok (PyInt (fold_right Z.add 0 (map int_value args)))) /\
  (forall xs ys, forallb is_int xs = true -> forallb is_int ys = true ->
     exists x y,
       CalculatorWithDynamicHandling.add xs = Ok (PyInt x) /\
       CalculatorWithDynamicHandling.add ys = Ok (PyInt y) /\
       CalculatorWithDynamicHandling.add (xs ++ ys) = Ok (PyInt (x + y))) /\
  (forall args, forallb is_int args = false -> forallb is_float args = true ->
     CalculatorWithDynamicHandling.add args
     = Ok (PyFloat (fold_right Rplus 0%R (map float_value args)))) /\
  (forall args, forallb is_int args = false -> forallb is_float args = false ->
     CalculatorWithDynamicHandling.add args = Raise TypeError) /\
  (forall z x,
     CalculatorWithDynamicHandling.add [PyInt z; PyFloat x] = Raise TypeError).
Proof.
  assert (Hint : forall args, forallb is_int args = true ->
            CalculatorWithDynamicHandling.add args
            = Ok (PyInt (fold_right Z.add 0 (map int_value args)))).
  { intros args H. unfold CalculatorWithDynamicHandling.add. rewrite H.
    unfold CalculatorWithDynamicHandling.sum. now rewrite sum_from. }
  split; [reflexivity|]. split; [exact Hint|]. split; [|split; [|split]].
  - intros xs ys Hx Hy. do 2 eexists.
    split; [now apply Hint|]. split; [now apply Hint|].
    rewrite Hint by (rewrite forallb_app, Hx, Hy; reflexivity).
    rewrite map_app, fold_right_app. do 2 f_equal.
    generalize (fold_right Z.add 0 (map int_value ys)). intros y.
    induction (map int_value xs) as [|x l IH]; cbn [fold_right]; lia.
  - intros args H1 H2. unfold CalculatorWithDynamicHandling.add.
    rewrite H1, H2. unfold CalculatorWithDynamicHandling.fsum.
    rewrite fsum_from. do 2 f_equal. ring.
  - intros args H1 H2. unfold CalculatorWithDynamicHandling.add.
    now rewrite H1, H2.
  - reflexivity.
Qed.

(** X16. [CalculatorPythonNative.add] does not depend on the order of its
    two arguments, and on two arguments that are not both floats
    [CalculatorWithDynamicHandling.add] returns or raises exactly what it
    does: the [int] sum when both are instances of [int], [TypeError]
    otherwise.  Two floats are left out: there one class adds with
    [math.fsum] and the other with [+]. *)
Theorem calculators_agree (a b : pyvalue) :
  CalculatorPythonNative.add a b = CalculatorPythonNative.add b a /\
  (is_float a && is_float b = false ->
   CalculatorWithDynamicHandling.add [a; b] = CalculatorPythonNative.add a b /\
   (is_int a && is_int b = true ->
    CalculatorPythonNative.add a b = Ok (PyInt (int_value a + int_value b))) /\
   (is_int a && is_int b = false ->
    CalculatorPythonNative.add a b = Raise TypeError)).
Proof.
  split.
  - unfold CalculatorPythonNative.add, CalculatorPythonNative._add_int,
      CalculatorPythonNative._add_double.
    rewrite (andb_comm (is_int a)), (andb_comm (is_float a)).
    destruct (is_int b && is_int a); [do 2 f_equal; lia|].
    destruct (is_float b && is_float a); [do 2 f_equal; ring | reflexivity].
  - intros Hfloat.
    unfold CalculatorWithDynamicHandling.add, CalculatorPythonNative.add,
      CalculatorPythonNative._add_int, CalculatorWithDynamicHandling.sum.
    cbn [forallb fold_left]. rewrite !andb_true_r, Hfloat.
    destruct (is_int a && is_int b).
    + split; [do 2 f_equal|]. split; [reflexivity | discriminate].
    + split; [reflexivity|]. split; [discriminate | reflexivity].
Qed.

End Calculators.

(** *** [divide] *)
Section Divide.
Local Open Scope R_scope.

(** X17. [divide(a, b)] never raises: for [b <> 0] it returns [a / b] and
    prints nothing; for [b = 0] it returns [None] after printing one line.
    What the caller had printed before is kept. *)
Theorem divide_never_raises (a b : R) (s : divide_state) :
  (b <> 0 ->
   divide a b s = (Ok (Some (a / b)), mkDivideState (Some (a / b)) (printed s))) /\
  (b = 0 ->
   divide a b s
   = (Ok None,
      mkDivideState None (printed s ++ ["You tried to divide by zero."%string]))).
Proof.
  unfold divide, bind, finally_return, try_except, truediv, get_self, ret.
  split; intros Hb; destruct (Req_dec_T b 0) as [Hz|Hnz]; try contradiction;
    reflexivity.
Qed.

End Divide.

(** *** [FinancialAssetUtil.calculate_return] *)
Section CalculateReturn.
Import FinancialAssetUtil.
Local Open Scope R_scope.

(** The returns of the consecutive pairs of [prices], left to right. *)
Fixpoint pairwise (method : string) (prices : list R)
    : result error (list R) :=
  match prices with
  | p :: (q :: _) as rest =>
      bind (one_return method p q) (fun r =>
      bind (pairwise method rest) (fun rs => Ok (r :: rs)))
  | _ => Ok []
  end.

Lemma pairwise_cons (method : string) (p q : R) (rest : list R) :
  pairwise method (p :: q :: rest)
  = bind (one_return method p q) (fun r =>
    bind (pairwise method (q :: rest)) (fun rs => Ok (r :: rs))).
Proof. reflexivity. Qed.

Lemma nth_error_middle (pre : list R) (p : R) (rest : list R) :
  nth_error (pre ++ p :: rest) (List.length pre) = Some p.
Proof. induction pre as [|x pre IH]; [reflexivity | exact IH]. Qed.

(** The loop over the indices visits the consecutive pairs. *)
Lemma returns_loop_pairwise (method : string) (rest : list R) :
  forall pre p acc,
    returns_loop method (pre ++ p :: rest)
      (seq (S (List.length pre)) (List.length rest)) acc
    = bind (pairwise method (p :: rest)) (fun rs => Ok (acc ++ rs)).
Proof.
  induction rest as [|q rest IH]; intros pre p acc.
  - cbn. now rewrite app_nil_r.
  - cbn [List.length seq returns_loop].
    replace (S (List.length pre) - 1)%nat with (List.length pre) by lia.
    unfold getitem at 1. rewrite nth_error_middle. cbn [bind].
    unfold getitem at 1.
    replace (pre ++ p :: q :: rest) with ((pre ++ [p]) ++ q :: rest)
      by now rewrite <- app_assoc.
    replace (S (List.length pre)) with (List.length (pre ++ [p]))
      by (rewrite length_app; cbn; lia).
    rewrite nth_error_middle. cbn [bind]. rewrite pairwise_cons.
    destruct (one_return method p q) as [r|e]; cbn [bind]; [|reflexivity].
    rewrite IH.
    destruct (pairwise method (q :: rest)) as [rs|e]; cbn [bind]; [|reflexivity].
    now rewrite <- app_assoc.
Qed.

Lemma price_list_pairwise (method : string) (prices : list R) :
  (2 <= List.length prices)%nat ->
  calculate_return [PriceList prices] method
  = bind (pairwise method prices) (fun rs => Ok (Returns rs)).
Proof.
  intros Hlen. unfold calculate_return.
  destruct (Nat.ltb_spec (List.length prices) 2) as [Hlt|_]; [lia|].
  destruct prices as [|p rest]; [cbn in Hlen; lia|].
  cbn [List.length]. replace (S (List.length rest) - 1)%nat
    with (List.length rest) by lia.
  pose proof (returns_loop_pairwise method rest [] p []) as H.
  cbn [app List.length] in H. rewrite H.
  destruct (pairwise method (p :: rest)); reflexivity.
Qed.

Lemma two_values (method : string) (p q r : R) :
  calculate_return [Num p; Num q] method = Ok (Return r)
  <-> one_return method p q = Ok r.
Proof.
  unfold calculate_return. destruct (one_return method p q) as [x|e]; cbn [bind].
  - split; intros H; injection H as ->; reflexivity.
  - split; discriminate.
Qed.

Lemma pairwise_Forall2 (method : string) (prices : list R) : forall rs,
  pairwise method prices = Ok rs <->
  Forall2 (fun pq r => one_return method (fst pq) (snd pq) = Ok r)
    (combine prices (tl prices)) rs.
Proof.
  induction prices as [|p [|q rest] IH]; intros rs.
  - cbn. split; [intros [= <-]; constructor | intros H; now inversion H].
  - cbn. split; [intros [= <-]; constructor | intros H; now inversion H].
  - rewrite pairwise_cons. cbn [tl combine]. cbn [tl] in IH.
    destruct (one_return method p q) as [r|e] eqn:Hr; cbn [bind].
    + destruct (pairwise method (q :: rest)) as [rs'|e] eqn:Hrs; cbn [bind].
      * split.
        -- intros [= <-]. constructor; [exact Hr|]. now apply IH.
        -- intros H. inversion H as [|? r0 ? rs0 H1 H2]; subst.
           cbn [fst snd] in H1. apply IH in H2. congruence.
      * split; [discriminate|]. intros H.
        inversion H as [|? r0 ? rs0 H1 H2]; subst. apply IH in H2. discriminate.
    + split; [discriminate|]. intros H.
      inversion H as [|? r0 ? rs0 H1 H2]; subst. cbn [fst snd] in H1. congruence.
Qed.

(** X18. Called with a list of at least two prices, [calculate_return]
    returns the list [rs] exactly when [rs] holds, in order, what the call
    with two values returns on each pair of consecutive prices. *)
Theorem price_list_returns_pairwise
    (method : string) (prices rs : list R)
    (Hlen : (2 <= List.length prices)%nat) :
  calculate_return [PriceList prices] method = Ok (Returns rs) <->
  Forall2
    (fun pq r =>
       calculate_return [Num (fst pq); Num (snd pq)] method = Ok (Return r))
    (combine prices (tl prices)) rs.
Proof.
  rewrite price_list_pairwise by exact Hlen.
  transitivity (pairwise method prices = Ok rs).
  - destruct (pairwise method prices) as [rs'|e]; cbn [bind].
    + split; intros H; injection H as ->; reflexivity.
    + split; discriminate.
  - rewrite pairwise_Forall2. split; intros H.
    + eapply Forall2_impl; [|exact H]. intros pq r Hr. now apply two_values.
    + eapply Forall2_impl; [|exact H]. intros pq r Hr. now apply two_values.
Qed.

(** X19. What [calculate_return] raises: a price list with fewer than two
    prices is refused whatever [method] is; every argument list that is
    neither two numbers nor one list is refused; with two numbers an unknown [method]
    is refused, a zero initial value raises [ZeroDivisionError], and the
    log return of a non-positive ratio raises the [ValueError] of
    [math.log]. *)
Theorem calculate_return_errors :
  (forall prices method, (List.length prices < 2)%nat ->
     calculate_return [PriceList prices] method
     = Raise (ValueError "Price list must contain at least two prices.")) /\
  (forall args method,
     (forall x y, args <> [Num x; Num y]) ->
     (forall prices, args <> [PriceList prices]) ->
     calculate_return args method
     = Raise (ValueError "Invalid arguments provided.")) /\
  (forall method x y, method <> "simple"%string -> method <> "log"%string ->
     calculate_return [Num x; Num y] method
     = Raise (ValueError "Invalid method. Use 'simple' or 'log'.")) /\
  (forall method y, method = "simple"%string \/ method = "log"%string ->
     calculate_return [Num 0; Num y] method = Raise ZeroDivisionError) /\
  (forall x y, x <> 0 -> y / x <= 0 ->
     calculate_return [Num x; Num y] "log" = Raise MathDomainError).
Proof.
  split; [|split; [|split; [|split]]].
  - intros prices method H. unfold calculate_return.
    destruct (Nat.ltb_spec (List.length prices) 2); [reflexivity | lia].
  - intros args method Hnum Hlist.
    destruct args as [|[x|prices|] [|[y|prices'|] [|c rest]]];
      first [ reflexivity
            | exfalso; eapply Hlist; reflexivity
            | exfalso; eapply Hnum; reflexivity ].
  - intros method x y H1 H2. unfold calculate_return, one_return.
    destruct (String.eqb_spec method "simple"); [contradiction|].
    destruct (String.eqb_spec method "log"); [contradiction | reflexivity].
  - intros method y [-> | ->]; unfold calculate_return, one_return, div;
      cbn [String.eqb Ascii.eqb Bool.eqb];
      destruct (Req_dec_T 0 0) as [_|H]; try reflexivity; contradiction.
  - intros x y Hx Hr. unfold calculate_return, one_return, div, log.
    cbn [String.eqb Ascii.eqb Bool.eqb].
    destruct (Req_dec_T x 0); [contradiction|]. cbn [bind].
    destruct (Rlt_dec 0 (y / x)); [lra | reflexivity].
Qed.

(** The sum and the product of a list of reals. *)
Definition total (xs : list R) : R := fold_right Rplus 0 xs.

Definition compound (xs : list R) : R :=
  fold_right (fun r acc => (1 + r) * acc) 1 xs.

Lemma one_return_log (p q : R) :
  0 < p -> 0 < q -> one_return "log" p q = Ok (ln (q / p)).
Proof.
  intros Hp Hq. unfold one_return, div, log. cbn [String.eqb Ascii.eqb Bool.eqb].
  destruct (Req_dec_T p 0); [lra|]. cbn [bind].
  destruct (Rlt_dec 0 (q / p)) as [_|H]; [reflexivity|].
  exfalso. apply H. apply Rdiv_lt_0_compat; lra.
Qed.

Lemma one_return_simple (p q : R) :
  p <> 0 -> one_return "simple" p q = Ok ((q - p) / p).
Proof.
  intros Hp. unfold one_return, div. cbn [String.eqb Ascii.eqb Bool.eqb].
  destruct (Req_dec_T p 0); [contradiction | reflexivity].
Qed.

Lemma pairwise_log (rest : list R) : forall p,
  Forall (fun x => 0 < x) (p :: rest) ->
  exists rs,
    pairwise "log" (p :: rest) = Ok rs /\
    total rs = ln (last (p :: rest) 0 / p).
Proof.
  induction rest as [|q rest IH]; intros p Hpos.
  - exists []. split; [reflexivity|]. cbn [last total fold_right].
    inversion Hpos; subst.
    replace (p / p) with 1 by (field; lra). now rewrite ln_1.
  - inversion Hpos as [|? ? Hp Hrest]; subst.
    assert (Hq : 0 < q) by now inversion Hrest.
    destruct (IH q Hrest) as (rs & Hrs & Hsum).
    exists (ln (q / p) :: rs). split.
    + rewrite pairwise_cons, one_return_log by assumption. cbn [bind].
      rewrite Hrs. reflexivity.
    + cbn [total fold_right]. fold (total rs). rewrite Hsum.
      change (last (p :: q :: rest) 0) with (last (q :: rest) 0).
      assert (Hl : 0 < last (q :: rest) 0).
      { assert (Hin : In (last (q :: rest) 0) (q :: rest)).
        { destruct (exists_last (l := q :: rest) ltac:(discriminate))
            as (l' & a & Heq).
          rewrite Heq, last_last. apply in_or_app. right. now left. }
        rewrite Forall_forall in Hrest. now apply Hrest. }
      rewrite <- ln_mult by (apply Rdiv_lt_0_compat; lra).
      f_equal. field. lra.
Qed.

(** X20. Log returns add up: for a list of at least two positive prices
    the call with [method='log'] returns a list whose sum is the log return
    between the first and the last price, as the call with those two values
    gives it. *)
Theorem log_returns_telescope (p : R) (rest : list R)
    (Hlen : (1 <= List.length rest)%nat)
    (Hpos : Forall (fun x => 0 < x) (p :: rest)) :
  exists rs,
    calculate_return [PriceList (p :: rest)] "log" = Ok (Returns rs) /\
    List.length rs = List.length rest /\
    calculate_return [Num p; Num (last (p :: rest) 0)] "log"
    = Ok (Return (total rs)).
Proof.
  destruct (pairwise_log rest p Hpos) as (rs & Hrs & Hsum).
  exists rs. split; [|split].
  - rewrite price_list_pairwise by (cbn; lia). now rewrite Hrs.
  - apply pairwise_Forall2 in Hrs. apply Forall2_length in Hrs.
    rewrite length_combine in Hrs. cbn [tl List.length] in Hrs. lia.
  - apply two_values. rewrite Hsum. apply one_return_log.
    + now inversion Hpos.
    + assert (Hin : In (last (p :: rest) 0) (p :: rest)).
      { destruct (exists_last (l := p :: rest) ltac:(discriminate))
          as (l' & a & Heq).
        rewrite Heq, last_last. apply in_or_app. right. now left. }
      rewrite Forall_forall in Hpos. now apply Hpos.
Qed.

Lemma pairwise_simple (rest : list R) : forall p,
  Forall (fun x => x <> 0) (p :: rest) ->
  exists rs,
    pairwise "simple" (p :: rest) = Ok rs /\
    compound rs = last (p :: rest) 0 / p.
Proof.
  induction rest as [|q rest IH]; intros p Hnz.
  - exists []. split; [reflexivity|]. cbn [last compound fold_right].
    inversion Hnz; subst. field. assumption.
  - inversion Hnz as [|? ? Hp Hrest]; subst.
    assert (Hq : q <> 0) by now inversion Hrest.
    destruct (IH q Hrest) as (rs & Hrs & Hprod).
    exists ((q - p) / p :: rs). split.
    + rewrite pairwise_cons, one_return_simple by assumption. cbn [bind].
      rewrite Hrs. reflexivity.
    + cbn [compound fold_right]. fold (compound rs). rewrite Hprod.
      change (last (p :: q :: rest) 0) with (last (q :: rest) 0).
      field. split; assumption.
Qed.

(** X21. Simple returns compound: for a list of at least two non-zero
    prices the call with [method='simple'] returns a list [rs] with
    [(1 + r1) * ... * (1 + rn) = last / first], that is one plus the simple
    return between the first and the last price. *)
Theorem simple_returns_compound (p : R) (rest : list R)
    (Hlen : (1 <= List.length rest)%nat)
    (Hnz : Forall (fun x => x <> 0) (p :: rest)) :
  exists rs r,
    calculate_return [PriceList (p :: rest)] "simple" = Ok (Returns rs) /\
    calculate_return [Num p; Num (last (p :: rest) 0)] "simple"
    = Ok (Return r) /\
    compound rs = 1 + r.
Proof.
  destruct (pairwise_simple rest p Hnz) as (rs & Hrs & Hprod).
  assert (Hp : p <> 0) by now inversion Hnz.
  exists rs, ((last (p :: rest) 0 - p) / p). split; [|split].
  - rewrite price_list_pairwise by (cbn; lia). now rewrite Hrs.
  - apply two_values. now apply one_return_simple.
  - rewrite Hprod. field. exact Hp.
Qed.

End CalculateReturn.

Lemma price_list_returns_pairwise_witness :
  (2 <= List.length [100; 110]%R)%nat /\
  FinancialAssetUtil.calculate_return
    [FinancialAssetUtil.PriceList [100; 110]%R] "simple"
  = Ok (FinancialAssetUtil.Returns [(110 - 100) / 100]%R).
Proof.
  assert (H : (2 <= List.length [100; 110]%R)%nat) by (cbn; lia).
  split; [exact H|].
  apply (proj2 (price_list_returns_pairwise "simple" [100; 110]%R
                  [(110 - 100) / 100]%R H)).
  repeat constructor. cbn [fst snd]. apply two_values, one_return_simple. lra.
Defined.

Lemma series_positive : Forall (fun x => 0 < x)%R [100; 105; 103; 108]%R.
Proof. repeat constructor; lra. Defined.

Lemma series_nonzero : Forall (fun x => x <> 0)%R [100; 105; 103; 108]%R.
Proof. repeat constructor; lra. Defined.

Lemma log_returns_telescope_witness :
  Forall (fun x => 0 < x)%R [100; 105; 103; 108]%R /\
  exists rs,
    FinancialAssetUtil.calculate_return
      [FinancialAssetUtil.PriceList [100; 105; 103; 108]%R] "log"
    = Ok (FinancialAssetUtil.Returns rs) /\
    List.length rs = 3%nat.
Proof.
  split; [exact series_positive|].
  destruct (log_returns_telescope 100%R [105; 103; 108]%R
              ltac:(cbn; lia) series_positive) as (rs & H1 & H2 & _).
  exists rs. split; assumption.
Defined.

Lemma simple_returns_compound_witness :
  Forall (fun x => x <> 0)%R [100; 105; 103; 108]%R /\
  exists rs,
    FinancialAssetUtil.calculate_return
      [FinancialAssetUtil.PriceList [100; 105; 103; 108]%R] "simple"
    = Ok (FinancialAssetUtil.Returns rs).
Proof.
  split; [exact series_nonzero|].
  destruct (simple_returns_compound 100%R [105; 103; 108]%R
              ltac:(cbn; lia) series_nonzero) as (rs & r & H1 & _).
  exists rs. exact H1.
Defined.

(** *** [calculate_asset_list_value] *)
Section AssetList.
Local Open Scope R_scope.

(** An asset whose [price()] returns a value that is not negative: a stock
    with a non-negative price per share, a call with positive spot, strike,
    maturity and volatility. *)
Definition well_formed (asset : Pricable) : Prop :=
  match asset with
  | StockPricable _ price_per_share => 0 <= price_per_share
  | CallPricable spot strike risk_free ttm vol =>
      spot > 0 /\ strike > 0 /\ ttm > 0 /\ vol > 0
  end.

Lemma asset_list_loop_from (assets : list Pricable) : forall total,
  asset_list_loop assets total
  = pure_bind (asset_list_loop assets 0) (fun v => Ok (total + v)).
Proof.
  induction assets as [|asset assets IH]; intros total; cbn [asset_list_loop].
  - cbn [pure_bind]. f_equal. ring.
  - destruct (asset_price asset) as [p|e]; cbn [pure_bind]; [|reflexivity].
    rewrite (IH (total + p)), (IH (0 + p)).
    destruct (asset_list_loop assets 0) as [v|e]; cbn [pure_bind]; [|reflexivity].
    f_equal. ring.
Qed.

Lemma asset_list_loop_app (xs ys : list Pricable) : forall total,
  asset_list_loop (xs ++ ys) total
  = pure_bind (asset_list_loop xs total) (fun t => asset_list_loop ys t).
Proof.
  induction xs as [|asset xs IH]; intros total; cbn [app asset_list_loop].
  - reflexivity.
  - destruct (asset_price asset) as [p|e]; cbn [pure_bind]; [|reflexivity].
    apply IH.
Qed.

Lemma value_from_zero (assets : list Pricable) :
  calculate_asset_list_value assets = asset_list_loop assets 0.
Proof.
  unfold calculate_asset_list_value. now replace 0.0 with 0 by lra.
Qed.

(** X22. [calculate_asset_list_value] returns [0.0] for an empty list and
    is additive: on [xs + ys] it returns the sum of what it returns on [xs]
    and on [ys], and raises the first exception either call would raise
    (exact real arithmetic). *)
Theorem asset_list_value_additive (xs ys : list Pricable) :
  calculate_asset_list_value [] = Ok 0 /\
  calculate_asset_list_value (xs ++ ys)
  = pure_bind (calculate_asset_list_value xs) (fun x =>
    pure_bind (calculate_asset_list_value ys) (fun y => Ok (x + y))).
Proof.
  split.
  - rewrite value_from_zero. reflexivity.
  - rewrite !value_from_zero, asset_list_loop_app.
    destruct (asset_list_loop xs 0) as [x|e]; cbn [pure_bind]; [|reflexivity].
    apply asset_list_loop_from.
Qed.

Lemma asset_price_nonneg (asset : Pricable) :
  well_formed asset -> exists p, asset_price asset = Ok p /\ 0 <= p.
Proof.
  destruct asset as [symbol price_per_share | spot strike risk_free ttm vol];
    cbn [well_formed asset_price].
  - intros H. now exists price_per_share.
  - intros (HS & HK & HT & Hv).
    exact (BlackScholesExtras.call_price_nonneg
             (mkOption spot strike risk_free ttm vol) HS HK HT Hv).
Qed.

(** X23. On a list of well-formed assets (stocks with a price per share
    that is not negative, calls with positive spot, strike, maturity and
    volatility) [calculate_asset_list_value] returns, and the value it
    returns is not negative. *)
Theorem asset_list_value_nonneg (assets : list Pricable)
    (Hwf : Forall well_formed assets) :
  exists v, calculate_asset_list_value assets = Ok v /\ 0 <= v.
Proof.
  rewrite value_from_zero.
  assert (H : forall total, 0 <= total ->
            exists v, asset_list_loop assets total = Ok v /\ 0 <= v).
  { induction Hwf as [|asset assets Hasset _ IH]; intros total Htotal.
    - now exists total.
    - cbn [asset_list_loop].
      destruct (asset_price_nonneg asset Hasset) as (p & Hp & Hp0).
      rewrite Hp. cbn [pure_bind]. apply IH. lra. }
  apply H. lra.
Qed.

End AssetList.

(** The portfolio of the script: a stock at 150.0 and a call. *)
Definition asset_list : list Pricable :=
  [StockPricable "AAPL" 150.0; CallPricable 100 90 0.05 1 0.2].

Lemma asset_list_well_formed : Forall well_formed asset_list.
Proof. repeat constructor; cbn; lra. Defined.

Lemma asset_list_value_nonneg_witness :
  Forall well_formed asset_list /\
  exists v, calculate_asset_list_value asset_list = Ok v /\ (0 <= v)%R.
Proof.
  split; [exact asset_list_well_formed|].
  exact (asset_list_value_nonneg asset_list asset_list_well_formed).
Defined.

End UtilitiesProofs.

(** ** Sequences of quote updates *)
Module QuoteHistoryProofs.
Import s3_extended.
Local Open Scope R_scope.
Section Proofs.
Variable datetime : Type.
Variable repr_datetime : datetime -> string.
Variable repr_float : R -> string.

Definition update : Quote datetime -> world datetime -> result (exception datetime) unit * world datetime :=
  update_last_quote repr_datetime repr_float.

(** A quote the update accepts. *)
Definition accepted (q : Quote datetime) : bool :=
  if Rlt_dec (price q) 0 then false else true.

(** The state after the updates [quotes], in that order. *)
Definition run_updates (quotes : list (Quote datetime)) (w : world datetime)
    : world datetime :=
  fold_left (fun w q => snd (update q w)) quotes w.

(** All the quotes the asset has held, oldest first. *)
Definition quotes_held (w : world datetime) : list (Quote datetime) :=
  history (self_ w) ++ [last_quote (self_ w)].

Lemma update_accepted (q : Quote datetime) (w : world datetime) :
  accepted q = true ->
  update q w
  = (Ok tt,
     mkWorld
       (mkFinancialAsset (ticker (self_ w)) q (currency (self_ w))
          (history (self_ w) ++ [last_quote (self_ w)]))
       (stdout w)).
Proof.
  unfold accepted, update, update_last_quote, try_except, __check_quote_for_asset, bind.
  destruct (Rlt_dec (price q) 0); [discriminate | reflexivity].
Qed.

Lemma update_rejected (q : Quote datetime) (w : world datetime) :
  accepted q = false ->
  exists line,
    update q w
    = (Ok tt,
       mkWorld (self_ w) (stdout w ++ [line; "Quote has not been updated"%string])).
Proof.
  unfold accepted, update, update_last_quote, try_except, __check_quote_for_asset, bind.
  destruct (Rlt_dec (price q) 0); [|discriminate]. intros _.
  eexists. unfold raise, print. cbv beta iota. cbn [self_ stdout].
  now rewrite <- app_assoc.
Qed.

(** X24. After any sequence of [update_last_quote] calls, the history
    followed by the last quote is the history and last quote the asset
    started with, followed by the quotes with a price that is not negative,
    in the order they came; a refused quote leaves no trace but two printed
    lines; ticker and currency never change and no call raises. *)
Theorem quote_history_is_accepted_quotes
    (quotes : list (Quote datetime)) (w : world datetime) :
  quotes_held (run_updates quotes w)
  = quotes_held w ++ filter accepted quotes /\
  List.length (stdout (run_updates quotes w))
  = (List.length (stdout w)
     + 2 * (List.length quotes - List.length (filter accepted quotes)))%nat /\
  ticker (self_ (run_updates quotes w)) = ticker (self_ w) /\
  currency (self_ (run_updates quotes w)) = currency (self_ w) /\
  Forall (fun q => forall w', fst (update q w') = Ok tt) quotes.
Proof.
  revert w. induction quotes as [|q quotes IH]; intros w.
  - cbn. rewrite app_nil_r. repeat split; try lia. constructor.
  - pose proof (filter_length_le accepted quotes) as Hle.
    assert (Hrun : run_updates (q :: quotes) w
                   = run_updates quotes (snd (update q w))) by reflexivity.
    rewrite Hrun. cbn [filter].
    destruct (accepted q) eqn:Hq.
    + rewrite update_accepted by exact Hq. cbn [snd].
      match goal with |- context [run_updates quotes ?w1] =>
        destruct (IH w1) as (H1 & H2 & H3 & H4 & H5) end.
      rewrite H1, H2, H3, H4. unfold quotes_held.
      cbn [self_ stdout history last_quote ticker currency List.length].
      split; [now rewrite <- app_assoc|]. split; [lia|].
      split; [reflexivity|]. split; [reflexivity|].
      constructor; [|exact H5]. intros w'. now rewrite update_accepted.
    + destruct (update_rejected q w Hq) as [line Hupd]. rewrite Hupd. cbn [snd].
      match goal with |- context [run_updates quotes ?w1] =>
        destruct (IH w1) as (H1 & H2 & H3 & H4 & H5) end.
      rewrite H1, H2, H3, H4. unfold quotes_held. cbn [self_ stdout List.length].
      split; [reflexivity|]. split; [rewrite length_app; cbn [List.length]; lia|].
      split; [reflexivity|]. split; [reflexivity|].
      constructor; [|exact H5]. intros w'.
      destruct (update_rejected q w' Hq) as [line' Hupd']. now rewrite Hupd'.
Qed.

End Proofs.
End QuoteHistoryProofs.

(** ** [BankAccount]: deposits and withdrawals undo each other *)
Module BankAccountRoundTrip.
Import s2.
Import BankAccountProofs.
Local Open Scope Z_scope.

(** X25. On an account whose balance is not negative, a deposit of a
    positive amount followed by a withdrawal of the same amount is accepted
    twice and gives the balance back; the owner is unchanged and the
    transaction history has grown by the two entries, in that order. *)
Theorem deposit_then_withdraw (self : BankAccount) (amount : Z)
    (Hbal : _balance self >= 0) (Hpos : amount > 0) :
  exists self1 self2,
    deposit amount self = (Ok true, self1) /\
    withdraw amount self1 = (Ok true, self2) /\
    _balance self2 = _balance self /\
    owner self2 = owner self /\
    __transaction_history self2
    = __transaction_history self
      ++ [("Deposit of " ++ format_int amount)%string;
          ("Withdrawal of " ++ format_int amount)%string].
Proof.
  do 2 eexists. split; [now apply deposit_accepted|]. split.
  - apply withdraw_accepted. cbn [_balance]. lia.
  - cbn [_balance owner __transaction_history]. split; [lia|].
    split; [reflexivity|]. now rewrite <- app_assoc.
Qed.

Lemma deposit_then_withdraw_witness :
  _balance (__init__ "Someone" 1000) >= 0 /\
  exists self1 self2,
    deposit 500 (__init__ "Someone" 1000) = (Ok true, self1) /\
    withdraw 500 self1 = (Ok true, self2) /\
    _balance self2 = 1000.
Proof.
  assert (H : _balance (__init__ "Someone" 1000) >= 0) by (cbn; lia).
  split; [exact H|].
  destruct (deposit_then_withdraw (__init__ "Someone" 1000) 500 H ltac:(lia))
    as (s1 & s2 & H1 & H2 & H3 & _).
  exists s1, s2. repeat split; assumption.
Defined.

End BankAccountRoundTrip.

(** ** The overloaded [+] and [-] of the second [BankAccount] *)
Module OverloadingProofs.
Import s2.Overloading.
Local Open Scope Z_scope.

(** X26. [acc + other] on two accounts in the same currency adds
    [other.balance] to [acc.balance], stores it in [acc] and returns it, and
    [acc - other] straight after restores [acc]; with another currency, or
    a value of another type, both operators return [None] and leave [acc]
    unchanged, without raising; [acc + acc] doubles the balance and
    [acc - acc] sets it to [0]. *)
Theorem account_add_sub (self other : BankAccount) :
  (currency other = currency self ->
   exists self1,
     __add__ (Account other) self
     = (Ok (Some (balance self + balance other)), self1) /\
     balance self1 = balance self + balance other /\
     __sub__ (Account other) self1 = (Ok (Some (balance self)), self)) /\
  (currency other <> currency self ->
   __add__ (Account other) self = (Ok None, self) /\
   __sub__ (Account other) self = (Ok None, self)) /\
  __add__ Unsupported self = (Ok None, self) /\
  __sub__ Unsupported self = (Ok None, self) /\
  __add__ Itself self
  = (Ok (Some (2 * balance self)),
     mkBankAccount (name self) (2 * balance self) (currency self)) /\
  __sub__ Itself self
  = (Ok (Some 0), mkBankAccount (name self) 0 (currency self)).
Proof.
  destruct self as [n b c]. destruct other as [n' b' c']. cbn [currency balance name].
  split; [|split; [|split; [|split; [|split]]]].
  - intros ->. eexists.
    unfold __add__, __sub__, bind, get_self, set_balance, ret.
    cbn [currency balance name]. rewrite String.eqb_refl.
    split; [reflexivity|]. split; [reflexivity|].
    cbn [currency balance name]. rewrite String.eqb_refl.
    replace (b + b' - b') with b by lia. reflexivity.
  - intros Hne. unfold __add__, __sub__, bind, get_self, ret.
    cbn [currency balance name].
    destruct (String.eqb_spec c' c); [contradiction|]. split; reflexivity.
  - reflexivity.
  - reflexivity.
  - unfold __add__, bind, get_self, set_balance, ret. cbn [currency balance name].
    replace (2 * b) with (b + b) by lia. reflexivity.
  - unfold __sub__, bind, get_self, set_balance, ret. cbn [currency balance name].
    replace (b - b) with 0 by lia. reflexivity.
Qed.

(** X27. [acc + instrument] looks at [instrument.ticker], not at
    [instrument.currency]: the price is added exactly when the ticker of
    the instrument equals the currency of the account, whatever the
    currency of the instrument; otherwise [None] is returned and the
    account is unchanged. *)
Theorem account_add_instrument
    (self : BankAccount) (other : Instrument.FinancialInstrument) :
  (Instrument.ticker other = currency self ->
   __add__ (Instrument other) self
   = (Ok (Some (balance self + Instrument.price other)),
      mkBankAccount (name self) (balance self + Instrument.price other)
        (currency self))) /\
  (Instrument.ticker other <> currency self ->
   __add__ (Instrument other) self = (Ok None, self)).
Proof.
  unfold __add__, bind, get_self, set_balance, ret. split.
  - intros ->. now rewrite String.eqb_refl.
  - intros Hne.
    destruct (String.eqb_spec (Instrument.ticker other) (currency self));
      [contradiction | reflexivity].
Qed.

End OverloadingProofs.

(** ** [s_1_introduction.py]: the P/E ratio and the time to maturity *)
Module IntroductionProofs.
Import s_1_introduction.
Import BlackScholesProofs.

Section PE.
Local Open Scope R_scope.

(** X28. [calculate_pe_ratio] never raises, [ZeroDivisionError] included:
    it returns [0] when [eps] is [None] or not positive, and otherwise the
    ratio [price / eps], which has the sign of [price]; constructing an
    [Equity] therefore always succeeds and stores that value in [pe]. *)
Theorem pe_ratio_total (ticker currency : string) (price : R) (eps : option R) :
  exists v,
    calculate_pe_ratio price eps = Ok v /\
    Equity__init__ ticker price currency eps
    = Ok (mkEquity ticker price currency eps v) /\
    (eps = None -> v = 0) /\
    (forall e, eps = Some e -> e <= 0 -> v = 0) /\
    (forall e, eps = Some e -> 0 < e -> v * e = price /\ (0 <= price -> 0 <= v)).
Proof.
  unfold Equity__init__, calculate_pe_ratio.
  destruct eps as [e|].
  - destruct (Rle_dec e 0) as [Hle|Hgt].
    + exists 0. cbn [pure_bind].
      split; [reflexivity|]. split; [reflexivity|].
      split; [reflexivity|]. split; [reflexivity|].
      intros e' [= <-] He. lra.
    + exists (price / e). rewrite truediv_Ok by lra. cbn [pure_bind].
      split; [reflexivity|]. split; [reflexivity|].
      split; [discriminate|]. split.
      * intros e' [= <-] H. lra.
      * intros e' [= <-] He. split; [field; lra|].
        intros Hp. apply Rmult_le_pos; [lra|].
        apply Rlt_le, Rinv_0_lt_compat, He.
  - exists 0. cbn [pure_bind]. repeat split; try reflexivity; discriminate.
Qed.

End PE.

Section TTM.
Local Open Scope Z_scope.

(** X29. [compute_ttm] raises [TypeError] when the maturity date is
    timezone-aware, as [datetime.now()] is naive.  For a naive maturity
    date it returns a whole number of days divided by 365, the days being
    rounded down: the result is negative as soon as the maturity lies in
    the past, by however little, [0] when the maturity is less than a day
    ahead, and at least [n / 365] when the maturity is at least [n] days
    ahead. *)
Theorem compute_ttm_rounds_down (maturity_date : datetime) (clock : Z) :
  (forall offset, tzinfo maturity_date = Some offset ->
     compute_ttm maturity_date clock = Raise TypeError) /\
  (tzinfo maturity_date = None ->
   exists ttm : R,
     compute_ttm maturity_date clock = Ok ttm /\
     (ttm * 365)%R = IZR (timedelta_days (wall maturity_date - clock)) /\
     (wall maturity_date < clock -> (ttm <= - (1 / 365))%R) /\
     (clock <= wall maturity_date < clock + microseconds_per_day ->
      ttm = 0%R) /\
     (forall n, clock + n * microseconds_per_day <= wall maturity_date ->
                (IZR n / 365 <= ttm)%R)).
Proof.
  destruct maturity_date as [w tz]. cbn [tzinfo wall]. split.
  - intros offset ->. reflexivity.
  - intros ->. unfold compute_ttm, datetime_sub, datetime_now.
    cbn [tzinfo wall pure_bind]. rewrite truediv_Ok by lra.
    eexists. split; [reflexivity|].
    unfold timedelta_days, microseconds_per_day.
    split; [field|]. split; [|split].
    + intros H.
      assert (Hd : (w - clock) / 86400000000 <= -1).
      { apply Z.lt_succ_r. apply Z.div_lt_upper_bound; lia. }
      apply IZR_le in Hd. lra.
    + intros H. rewrite Z.div_small by lia. lra.
    + intros n H.
      assert (Hd : n <= (w - clock) / 86400000000).
      { apply Z.div_le_lower_bound; lia. }
      apply IZR_le in Hd. lra.
Qed.

End TTM.

End IntroductionProofs.
